(** * Orpheus: dispatch engine, batch coordinator and configuration view

    A shallow embedding of [orpheus-core]'s dispatcher ([Dispatcher.dispatch],
    [Dispatcher.dispatchAll], [Dispatcher.getExecutorOrder]) and of
    [Orpheus.getConfig], with the properties of the dispatch engine proved
    over it.

    The dispatcher is asynchronous code talking to three kinds of outside
    parties: the executors (provider back ends), the memory store (event
    sink) and the JavaScript host (clock, timers).  Every [await] of the
    source is a node of a small program tree ([Prog]); the tree is run
    against an arbitrary outside world [Env], and the run yields the
    promise's outcome, the new world and the trace of calls that were made,
    in order.

    The second half of the development embeds the code around the
    dispatcher: the planner ([planner.ts]), the [Orpheus] orchestrator
    ([index.ts]), the SQLite store ([store.ts]), the model registry
    ([models.ts]) and the argument parsing of the command line, and proves
    further properties of them and of the dispatcher.

    Conventions of the embedding:
    - JavaScript numbers used as counters ([retryAttempts], [attempts], the
      try number) are [nat]; durations and dates are [Z] (milliseconds).
    - [console.warn] / [console.error] output is not part of the model.
    - a [Task] is threaded as a value; [dispatch] is the only writer of the
      task while it runs. *)

From Stdlib Require Import List String ZArith Bool Arith Lia.
From Stdlib Require Import Ascii Permutation Sorted.
Import ListNotations.
Open Scope string_scope.
Open Scope list_scope.
Open Scope nat_scope.

Set Implicit Arguments.

(* ================================================================== *)
(** ** Data model ([types.ts]) *)
(* ================================================================== *)

Inductive ExecutorType := codex | sonnet | gemini.

Inductive TaskStatus := pending | running | completed | failed.

Inductive TaskPriority := low | normal | high | critical.

Record Usage := {
  promptTokens : Z;
  completionTokens : Z;
  totalTokens : Z
}.

Record ExecutorResult := {
  executor : ExecutorType;
  success : bool;
  content : string;
  usage : option Usage;
  error : option string;
  durationMs : Z
}.

Record Task := {
  id : string;
  prompt : string;
  systemPrompt : option string;
  preferredExecutor : option ExecutorType;
  fallbackExecutors : option (list ExecutorType);
  priority : TaskPriority;
  status : TaskStatus;
  parentId : option string;
  metadata : option (list (string * string));
  createdAt : Z;
  updatedAt : Z
}.

Inductive EventType :=
| task_created | task_started | task_completed | task_failed
| executor_called | executor_responded | plan_created | system_error.

(** The payloads [dispatch] builds, one shape per event it logs. *)
Inductive Payload :=
| PStarted (promptHead : string)
| PCalled (attempt : nat)
| PResponded (ok : bool) (duration : Z) (use : option Usage)
| PCompleted (by_ : ExecutorType) (total : nat)
| PFailed (reason : string) (total : nat).

(** [Omit<MemoryEvent, 'id' | 'timestamp'>]: what [logEvent] receives. *)
Record EventInput := {
  type : EventType;
  taskId : option string;
  executorType : option ExecutorType;
  payload : Payload
}.

Record DispatchResult := {
  task : Task;
  result : ExecutorResult;
  attempts : nat
}.

Record DispatcherOptions := {
  retryAttempts : nat;
  retryDelayMs : Z
}.

(** A value thrown or used to reject a promise: an [Error] object or
    anything else; [describe] is
    [err instanceof Error ? err.message : String(err)]. *)
Inductive Thrown :=
| ErrorObject (message : string)
| OtherValue (asString : string).

Definition describe (err : Thrown) : string :=
  match err with
  | ErrorObject m => m
  | OtherValue s => s
  end.

(** How a promise settles. *)
Inductive Settled (A : Type) :=
| Resolved (a : A)
| Rejected (err : Thrown).
Arguments Rejected {A} err.

(** Decidable equalities used by the checkers below. *)
Definition ExecutorType_eqb (a b : ExecutorType) : bool :=
  match a, b with
  | codex, codex | sonnet, sonnet | gemini, gemini => true
  | _, _ => false
  end.

Definition EventType_eqb (a b : EventType) : bool :=
  match a, b with
  | task_created, task_created | task_started, task_started
  | task_completed, task_completed | task_failed, task_failed
  | executor_called, executor_called
  | executor_responded, executor_responded
  | plan_created, plan_created | system_error, system_error => true
  | _, _ => false
  end.

(** Field updates of the mutable task object. *)
Definition setStatus (s : TaskStatus) (t : Task) : Task :=
  {| id := id t; prompt := prompt t; systemPrompt := systemPrompt t;
     preferredExecutor := preferredExecutor t;
     fallbackExecutors := fallbackExecutors t;
     priority := priority t; status := s; parentId := parentId t;
     metadata := metadata t; createdAt := createdAt t;
     updatedAt := updatedAt t |}.

Definition setUpdatedAt (d : Z) (t : Task) : Task :=
  {| id := id t; prompt := prompt t; systemPrompt := systemPrompt t;
     preferredExecutor := preferredExecutor t;
     fallbackExecutors := fallbackExecutors t;
     priority := priority t; status := status t; parentId := parentId t;
     metadata := metadata t; createdAt := createdAt t;
     updatedAt := d |}.

(** [s.slice(0, n)] for [0 <= n]. *)
Definition slice0 (n : nat) (s : string) : string := substring 0 n s.

(* ================================================================== *)
(** ** Outside world, program trees and their runs *)
(* ================================================================== *)

Section World.

Context {Env : Type}.

(** [Executor] interface: a type tag and two asynchronous methods, each a
    transition of the outside world that settles a promise. *)
Record Executor := {
  kind : ExecutorType;                                   (* [type] *)
  execute : Task -> Env -> Settled ExecutorResult * Env;
  isAvailable : Env -> Settled bool * Env
}.

(** [MemoryStore] interface, the part [dispatch] uses. *)
Record MemoryStore := {
  logEvent : EventInput -> Env -> Settled string * Env
}.

(** The JavaScript host: [new Date()] and [setTimeout]. *)
Record Host := {
  newDate : Env -> Z * Env;
  setTimeout : Z -> Env -> Env
}.

(** One call made to the outside, with what came back. *)
Inductive Action :=
| ALog (ev : EventInput) (r : Settled string)
| AProbe (x : Executor) (r : Settled bool)
| AExec (x : Executor) (t : Task) (r : Settled ExecutorResult)
| ASleep (ms : Z)
| ANow (d : Z)
| AStatus (s : TaskStatus).

(** Asynchronous code as a tree: a leaf is the settled promise of the
    function itself, an inner node is one call to the outside, or one write
    to the [status] of the caller's task object, followed by the rest of
    the function. *)
Inductive Prog (A : Type) :=
| Ret (a : A)
| Raise (err : Thrown)
| CallLogEvent (m : MemoryStore) (ev : EventInput) (k : Settled string -> Prog A)
| CallIsAvailable (x : Executor) (k : Settled bool -> Prog A)
| CallExecute (x : Executor) (t : Task) (k : Settled ExecutorResult -> Prog A)
| Sleep (ms : Z) (k : Prog A)
| NewDate (k : Z -> Prog A)
| WriteStatus (s : TaskStatus) (k : Prog A).
Arguments Raise {A} err.
Arguments CallLogEvent {A} m ev k.
Arguments CallIsAvailable {A} x k.
Arguments CallExecute {A} x t k.
Arguments Sleep {A} ms k.
Arguments NewDate {A} k.
Arguments WriteStatus {A} s k.

Fixpoint bind {A B} (p : Prog A) (f : A -> Prog B) : Prog B :=
  match p with
  | Ret a => f a
  | Raise err => Raise err
  | CallLogEvent m ev k => CallLogEvent m ev (fun r => bind (k r) f)
  | CallIsAvailable x k => CallIsAvailable x (fun r => bind (k r) f)
  | CallExecute x t k => CallExecute x t (fun r => bind (k r) f)
  | Sleep ms k => Sleep ms (bind k f)
  | NewDate k => NewDate (fun d => bind (k d) f)
  | WriteStatus s k => WriteStatus s (bind k f)
  end.

Variable host : Host.

(** Running a tree to its leaf. *)
Fixpoint run {A} (p : Prog A) (env : Env) : Settled A * Env * list Action :=
  match p with
  | Ret a => (Resolved a, env, [])
  | Raise err => (Rejected err, env, [])
  | CallLogEvent m ev k =>
      let '(r, env1) := logEvent m ev env in
      let '(o, env2, tr) := run (k r) env1 in
      (o, env2, ALog ev r :: tr)
  | CallIsAvailable x k =>
      let '(r, env1) := isAvailable x env in
      let '(o, env2, tr) := run (k r) env1 in
      (o, env2, AProbe x r :: tr)
  | CallExecute x t k =>
      let '(r, env1) := execute x t env in
      let '(o, env2, tr) := run (k r) env1 in
      (o, env2, AExec x t r :: tr)
  | Sleep ms k =>
      let '(o, env2, tr) := run k (setTimeout host ms env) in
      (o, env2, ASleep ms :: tr)
  | NewDate k =>
      let '(d, env1) := newDate host env in
      let '(o, env2, tr) := run (k d) env1 in
      (o, env2, ANow d :: tr)
  | WriteStatus s k =>
      let '(o, env2, tr) := run k env in
      (o, env2, AStatus s :: tr)
  end.

(* ================================================================== *)
(** ** The dispatcher ([dispatcher.ts]) *)
(* ================================================================== *)

(** [Map<ExecutorType, Executor>]: insertion-ordered, looked up by key. *)
Definition ExecutorMap := list (ExecutorType * Executor).

Fixpoint get (m : ExecutorMap) (key : ExecutorType) : option Executor :=
  match m with
  | [] => None
  | (k, x) :: rest => if ExecutorType_eqb k key then Some x else get rest key
  end.

Fixpoint set (m : ExecutorMap) (key : ExecutorType) (x : Executor) : ExecutorMap :=
  match m with
  | [] => [(key, x)]
  | (k, y) :: rest =>
      if ExecutorType_eqb k key then (k, x) :: rest else (k, y) :: set rest key x
  end.

Definition keys (m : ExecutorMap) : list ExecutorType := map fst m.

Record Dispatcher := {
  executors : ExecutorMap;
  memory : MemoryStore;
  options : DispatcherOptions
}.

(** [new Dispatcher(executors, memory, options?)] with its defaults. *)
Definition createDispatcher (ex : ExecutorMap) (mem : MemoryStore)
    (retryAttempts_ : option nat) (retryDelayMs_ : option Z) : Dispatcher :=
  {| executors := ex;
     memory := mem;
     options :=
       {| retryAttempts := match retryAttempts_ with Some n => n | None => 3 end;
          retryDelayMs := match retryDelayMs_ with Some z => z | None => 1000%Z end |} |}.

Definition registerExecutor (d : Dispatcher) (x : Executor) : Dispatcher :=
  {| executors := set (executors d) (kind x) x;
     memory := memory d;
     options := options d |}.

Definition getRegisteredExecutors (d : Dispatcher) : list ExecutorType :=
  keys (executors d).

Definition getExecutorOrder (d : Dispatcher) (t : Task) : list ExecutorType :=
  match fallbackExecutors t with
  | Some (e :: l) => e :: l
  | _ =>
      match preferredExecutor t with
      | Some p => [p]
      | None => keys (executors d)
      end
  end.

(** *** The executors of the repository ([executors/*/src/index.ts])

    [CodexExecutor], [SonnetExecutor] and [GeminiExecutor] have one shape:
    [execute] times a call to the provider's SDK and wraps its outcome,
    thrown errors included, in a result stamped with the executor's own
    type; [isAvailable] pings the provider and answers [false] when the
    ping throws.  The SDK is a part of the outside world. *)
Record Completion := {
  text : string;
  tokens : option Usage
}.

Record Provider := {
  complete : Task -> Env -> Settled Completion * Env;
  ping : Env -> Settled bool * Env
}.

Definition providerExecutor (ty : ExecutorType) (api : Provider) : Executor :=
  {| kind := ty;
     execute := fun t env =>
       let '(startTime, env1) := newDate host env in
       let '(r, env2) := complete api t env1 in
       let '(endTime, env3) := newDate host env2 in
       (Resolved
          match r with
          | Resolved c =>
              {| executor := ty; success := true; content := text c;
                 usage := tokens c; error := None;
                 durationMs := (endTime - startTime)%Z |}
          | Rejected err =>
              {| executor := ty; success := false; content := "";
                 usage := None; error := Some (describe err);
                 durationMs := (endTime - startTime)%Z |}
          end, env3);
     isAvailable := fun env =>
       let '(r, env1) := ping api env in
       (Resolved match r with Resolved b => b | Rejected _ => false end, env1) |}.

Definition CodexExecutor (api : Provider) : Executor := providerExecutor codex api.
Definition SonnetExecutor (api : Provider) : Executor := providerExecutor sonnet api.
Definition GeminiExecutor (api : Provider) : Executor := providerExecutor gemini api.

(** The locals of [dispatch] that its loops update: the task object,
    [lastError] and [attempts]. *)
Record Locals := {
  theTask : Task;
  lastError : option string;
  attemptsSoFar : nat
}.

(** How a piece of the body of [dispatch] ends: with [return], or by
    falling through to the code after it. *)
Inductive Flow :=
| Exit (r : DispatchResult)
| Continue (s : Locals).

Definition calledEvent (t : Task) (ty : ExecutorType) (attempt : nat) : EventInput :=
  {| type := executor_called; taskId := Some (id t);
     executorType := Some ty; payload := PCalled attempt |}.

Definition respondedEvent (t : Task) (ty : ExecutorType) (res : ExecutorResult) : EventInput :=
  {| type := executor_responded; taskId := Some (id t);
     executorType := Some ty;
     payload := PResponded (success res) (durationMs res) (usage res) |}.

Definition completedEvent (t : Task) (ty : ExecutorType) (n : nat) : EventInput :=
  {| type := task_completed; taskId := Some (id t);
     executorType := None; payload := PCompleted ty n |}.

Definition startedEvent (t : Task) : EventInput :=
  {| type := task_started; taskId := Some (id t);
     executorType := None; payload := PStarted (slice0 100 (prompt t)) |}.

Definition failedEvent (t : Task) (reason : string) (n : nat) : EventInput :=
  {| type := task_failed; taskId := Some (id t);
     executorType := None; payload := PFailed reason n |}.

(** One pass through the body of the retry loop, up to the end of its
    [try]/[catch]: [attempts++], the [executor_called] event (outside the
    [try]), then the guarded call.  Whatever is thrown inside the [try],
    by [execute] or by a [logEvent] there, lands in [catch], which only
    records the message; the writes to the task made before the throw
    stay. *)
Definition tryOnce (d : Dispatcher) (ty : ExecutorType) (x : Executor)
    (attempt : nat) (s : Locals) : Prog Flow :=
  let n := S (attemptsSoFar s) in
  let t := theTask s in
  let catch (t' : Task) (err : Thrown) : Prog Flow :=
    Ret (Continue {| theTask := t'; lastError := Some (describe err);
                     attemptsSoFar := n |}) in
  CallLogEvent (memory d) (calledEvent t ty attempt) (fun r0 =>
  match r0 with
  | Rejected err => Raise err
  | Resolved _ =>
    CallExecute x t (fun r1 =>
    match r1 with
    | Rejected err => catch t err
    | Resolved res =>
      CallLogEvent (memory d) (respondedEvent t ty res) (fun r2 =>
      match r2 with
      | Rejected err => catch t err
      | Resolved _ =>
        if success res then
          let t1 := setStatus completed t in
          WriteStatus completed (
          NewDate (fun now =>
          let t2 := setUpdatedAt now t1 in
          CallLogEvent (memory d) (completedEvent t2 ty n) (fun r3 =>
          match r3 with
          | Rejected err => catch t2 err
          | Resolved _ =>
              Ret (Exit {| task := t2; result := res; attempts := n |})
          end)))
        else
          Ret (Continue {| theTask := t; lastError := error res;
                           attemptsSoFar := n |})
      end)
    end)
  end).

(** [for (let attempt = 1; attempt <= retryAttempts; attempt++)], entered
    at try number [attempt] with [remaining] iterations to go
    ([remaining = retryAttempts + 1 - attempt]). *)
Fixpoint attemptLoop (d : Dispatcher) (ty : ExecutorType) (x : Executor)
    (remaining attempt : nat) (s : Locals) : Prog Flow :=
  match remaining with
  | O => Ret (Continue s)
  | S remaining' =>
      bind (tryOnce d ty x attempt s) (fun f =>
      match f with
      | Exit r => Ret (Exit r)
      | Continue s' =>
          if attempt <? retryAttempts (options d) then
            Sleep (retryDelayMs (options d) * Z.of_nat attempt)
                  (attemptLoop d ty x remaining' (S attempt) s')
          else attemptLoop d ty x remaining' (S attempt) s'
      end)
  end.

(** [for (const executorType of executorOrder)]. *)
Fixpoint executorLoop (d : Dispatcher) (order : list ExecutorType)
    (s : Locals) : Prog Flow :=
  match order with
  | [] => Ret (Continue s)
  | ty :: rest =>
      match get (executors d) ty with
      | None => executorLoop d rest s
      | Some x =>
          CallIsAvailable x (fun r =>
          let available :=
            match r with Resolved b => b | Rejected _ => false end in
          if negb available then executorLoop d rest s
          else
            bind (attemptLoop d ty x (retryAttempts (options d)) 1 s) (fun f =>
            match f with
            | Exit res => Ret (Exit res)
            | Continue s' => executorLoop d rest s'
            end))
      end
  end.

Definition allFailedMessage : string := "All executors failed".

(** The synthetic result built when no executor succeeded. *)
Definition failureResult (t : Task) (lastError_ : option string) : ExecutorResult :=
  {| executor := match preferredExecutor t with Some p => p | None => sonnet end;
     success := false;
     content := "";
     usage := None;
     error := Some (match lastError_ with Some e => e | None => allFailedMessage end);
     durationMs := 0%Z |}.

Definition errorText (r : ExecutorResult) : string :=
  match error r with Some e => e | None => "" end.

(** The code of [dispatch] after the loops. *)
Definition allFailed (d : Dispatcher) (s : Locals) : Prog DispatchResult :=
  let t1 := setStatus failed (theTask s) in
  WriteStatus failed (
  NewDate (fun now =>
  let t2 := setUpdatedAt now t1 in
  let fr := failureResult t2 (lastError s) in
  CallLogEvent (memory d) (failedEvent t2 (errorText fr) (attemptsSoFar s)) (fun r =>
  match r with
  | Rejected err => Raise err
  | Resolved _ =>
      Ret {| task := t2; result := fr; attempts := attemptsSoFar s |}
  end))).

Definition dispatch (d : Dispatcher) (t : Task) : Prog DispatchResult :=
  let t1 := setStatus running t in
  WriteStatus running (
  NewDate (fun now =>
  let t2 := setUpdatedAt now t1 in
  CallLogEvent (memory d) (startedEvent t2) (fun r =>
  match r with
  | Rejected err => Raise err
  | Resolved _ =>
      bind (executorLoop d (getExecutorOrder d t2)
              {| theTask := t2; lastError := None; attemptsSoFar := 0 |}) (fun f =>
      match f with
      | Exit res => Ret res
      | Continue s => allFailed d s
      end)
  end))).

(** *** [dispatchAll] *)

(** Sequential mode: [for (const task of tasks) results.push(await
    this.dispatch(task))]. *)
Fixpoint dispatchEach (d : Dispatcher) (tasks : list Task)
    (results : list DispatchResult) : Prog (list DispatchResult) :=
  match tasks with
  | [] => Ret results
  | t :: rest =>
      bind (dispatch d t) (fun r => dispatchEach d rest (results ++ [r]))
  end.

(** What [dispatchAll] hands to the event loop: one promise chain, or the
    promises of [tasks.map(t => this.dispatch(t))] given to
    [Promise.all]. *)
Inductive Batch :=
| OneByOne (p : Prog (list DispatchResult))
| AllAtOnce (ps : list (Prog DispatchResult)).

Definition dispatchAll (d : Dispatcher) (tasks : list Task) (parallel : bool) : Batch :=
  if parallel then AllAtOnce (map (dispatch d) tasks)
  else OneByOne (dispatchEach d tasks []).

(** One step of an unsettled promise: its pending call completes. *)
Definition step {A} (p : Prog A) (env : Env) : Prog A * Env * list Action :=
  match p with
  | Ret a => (Ret a, env, [])
  | Raise err => (Raise err, env, [])
  | CallLogEvent m ev k =>
      let '(r, env1) := logEvent m ev env in (k r, env1, [ALog ev r])
  | CallIsAvailable x k =>
      let '(r, env1) := isAvailable x env in (k r, env1, [AProbe x r])
  | CallExecute x t k =>
      let '(r, env1) := execute x t env in (k r, env1, [AExec x t r])
  | Sleep ms k => (k, setTimeout host ms env, [ASleep ms])
  | NewDate k =>
      let '(d, env1) := newDate host env in (k d, env1, [ANow d])
  | WriteStatus s k => (k, env, [AStatus s])
  end.

(** [Promise.all] over promises that have all fulfilled. *)
Fixpoint values {A} (ps : list (Prog A)) : option (list A) :=
  match ps with
  | [] => Some []
  | Ret a :: rest =>
      match values rest with
      | Some l => Some (a :: l)
      | None => None
      end
  | _ :: _ => None
  end.

Fixpoint replaceAt {A} (i : nat) (a : A) (l : list A) : list A :=
  match l, i with
  | [], _ => []
  | _ :: rest, O => a :: rest
  | b :: rest, S i' => b :: replaceAt i' a rest
  end.

(** [Promise.all(ps)] under a schedule: [sched] lists, in order of
    completion, the index of the promise whose pending call completes
    next.  The result is [None] while some promise is still pending when
    the schedule ends; a rejection of one promise rejects the whole. *)
Fixpoint promiseAll {A} (sched : list nat) (ps : list (Prog A)) (env : Env)
    : option (Settled (list A)) * Env * list Action :=
  match values ps with
  | Some l => (Some (Resolved l), env, [])
  | None =>
      match sched with
      | [] => (None, env, [])
      | i :: sched' =>
          match nth_error ps i with
          | None => promiseAll sched' ps env
          | Some p =>
              let '(p', env1, a) := step p env in
              match p' with
              | Raise err => (Some (Rejected err), env1, a)
              | _ =>
                  let '(o, env2, tr) := promiseAll sched' (replaceAt i p' ps) env1 in
                  (o, env2, a ++ tr)
              end
          end
      end
  end.

Definition runBatch (sched : list nat) (b : Batch) (env : Env)
    : option (Settled (list DispatchResult)) * Env * list Action :=
  match b with
  | OneByOne p => let '(o, env1, tr) := run p env in (Some o, env1, tr)
  | AllAtOnce ps => promiseAll sched ps env
  end.

End World.

Arguments Ret {Env A} a.
Arguments Raise {Env A} err.
Arguments CallLogEvent {Env A} m ev k.
Arguments CallIsAvailable {Env A} x k.
Arguments CallExecute {Env A} x t k.
Arguments Sleep {Env A} ms k.
Arguments NewDate {Env A} k.
Arguments WriteStatus {Env A} s k.
Arguments ALog {Env} ev r.
Arguments AProbe {Env} x r.
Arguments AExec {Env} x t r.
Arguments ASleep {Env} ms.
Arguments ANow {Env} d.
Arguments AStatus {Env} s.
Arguments OneByOne {Env} p.
Arguments AllAtOnce {Env} ps.
Arguments Executor : clear implicits.
Arguments Provider : clear implicits.
Arguments MemoryStore : clear implicits.
Arguments Host : clear implicits.
Arguments Action : clear implicits.
Arguments Prog : clear implicits.
Arguments Dispatcher : clear implicits.
Arguments ExecutorMap : clear implicits.
Arguments Batch : clear implicits.

(* ================================================================== *)
(** ** Reading a trace *)
(* ================================================================== *)

Section Observations.

Context {Env : Type}.

(** The events the store accepted, in the order they were appended. *)
Fixpoint loggedEvents (tr : list (Action Env)) : list EventInput :=
  match tr with
  | [] => []
  | ALog ev (Resolved _) :: rest => ev :: loggedEvents rest
  | _ :: rest => loggedEvents rest
  end.

Definition string_eqb_opt (a : option string) (b : string) : bool :=
  match a with
  | Some s => String.eqb s b
  | None => false
  end.

(** [getTaskHistory(taskId)]: the rows of one task ([WHERE task_id = ?]),
    rows taken in insertion order. *)
Definition getTaskHistory (taskId_ : string) (rows : list EventInput) : list EventInput :=
  filter (fun ev => string_eqb_opt (taskId ev) taskId_) rows.

Definition isTerminal (ev : EventInput) : bool :=
  EventType_eqb (type ev) task_completed || EventType_eqb (type ev) task_failed.

Definition isCalled (ev : EventInput) : bool := EventType_eqb (type ev) executor_called.

Definition isResponded (ev : EventInput) : bool := EventType_eqb (type ev) executor_responded.

Definition sameExecutor (a b : EventInput) : bool :=
  match executorType a, executorType b with
  | Some x, Some y => ExecutorType_eqb x y
  | _, _ => false
  end.

Definition sameTask (a b : EventInput) : bool :=
  match taskId a, taskId b with
  | Some x, Some y => String.eqb x y
  | _, _ => false
  end.

(** [b] is the [executor_responded] event that matches the
    [executor_called] event [a]. *)
Definition answers (a b : EventInput) : bool :=
  isCalled a && isResponded b && sameExecutor a b && sameTask a b.

(** Every [executor_called] event is immediately followed by its
    matching [executor_responded] event. *)
Fixpoint calledThenResponded (evs : list EventInput) : bool :=
  match evs with
  | [] => true
  | a :: rest =>
      (if isCalled a then
         match rest with
         | b :: _ => answers a b
         | [] => false
         end
       else true) && calledThenResponded rest
  end.

(** Every [executor_responded] event immediately follows its matching
    [executor_called] event; [prev] is the event just before [evs]. *)
Fixpoint respondedAfterCalled (prev : option EventInput) (evs : list EventInput) : bool :=
  match evs with
  | [] => true
  | b :: rest =>
      (if isResponded b then
         match prev with
         | Some a => answers a b
         | None => false
         end
       else true) && respondedAfterCalled (Some b) rest
  end.

Definition countTerminal (evs : list EventInput) : nat :=
  List.length (filter isTerminal evs).

(** Number of [execute] calls made. *)
Fixpoint execCalls (tr : list (Action Env)) : nat :=
  match tr with
  | [] => 0
  | AExec _ _ _ :: rest => S (execCalls rest)
  | _ :: rest => execCalls rest
  end.

(** Number of availability probes answered [true]: the back ends of the
    order that were registered and found available. *)
Fixpoint availableProbes (tr : list (Action Env)) : nat :=
  match tr with
  | [] => 0
  | AProbe _ (Resolved true) :: rest => S (availableProbes rest)
  | _ :: rest => availableProbes rest
  end.

(** The last [executor_called] event of a list, as (back end, try
    number); [seen] is the answer for a list without one. *)
Fixpoint lastCall (seen : option (option ExecutorType * nat)) (evs : list EventInput)
    : option (option ExecutorType * nat) :=
  match evs with
  | [] => seen
  | ev :: rest =>
      match type ev, payload ev with
      | executor_called, PCalled n => lastCall (Some (executorType ev, n)) rest
      | _, _ => lastCall seen rest
      end
  end.

(** All the events [logEvent] was called with, accepted or not. *)
Fixpoint offeredEvents (tr : list (Action Env)) : list EventInput :=
  match tr with
  | [] => []
  | ALog ev _ :: rest => ev :: offeredEvents rest
  | _ :: rest => offeredEvents rest
  end.

(** No [execute] call threw and no store write was refused. *)
Fixpoint allSettled (tr : list (Action Env)) : bool :=
  match tr with
  | [] => true
  | AExec _ _ (Rejected _) :: _ => false
  | ALog _ (Rejected _) :: _ => false
  | _ :: rest => allSettled rest
  end.

(** No store write was refused. *)
Fixpoint allLogged (tr : list (Action Env)) : bool :=
  match tr with
  | [] => true
  | ALog _ (Rejected _) :: _ => false
  | _ :: rest => allLogged rest
  end.

(** The values written to the [status] of the task, in order. *)
Fixpoint statusWrites (tr : list (Action Env)) : list TaskStatus :=
  match tr with
  | [] => []
  | AStatus s :: rest => s :: statusWrites rest
  | _ :: rest => statusWrites rest
  end.

(** The status writes of a stretch of the loops of [dispatch]: one
    [completed] when the stretch ends in [return], before it a [completed]
    for every success whose [task_completed] write the store refused. *)
Definition loopWrites (returned : bool) (tr : list (Action Env)) : Prop :=
  exists unrecorded,
    Forall (fun s => s = completed) unrecorded /\
    statusWrites tr = unrecorded ++ (if returned then [completed] else []) /\
    (allLogged tr = true -> unrecorded = []).

(** A store that takes every write. *)
Definition accepts (m : MemoryStore Env) : Prop :=
  forall ev env, exists i env', logEvent m ev env = (Resolved i, env').

(** An executor that stamps its results with its own type, as the three
    executors of the repository do. *)
Definition labelled (x : Executor Env) : Prop :=
  forall t env r env', execute x t env = (Resolved r, env') -> executor r = kind x.

(** [t'] is [t] up to [status] and [updatedAt]. *)
Definition frame (t t' : Task) : Prop :=
  id t' = id t /\ prompt t' = prompt t /\ systemPrompt t' = systemPrompt t /\
  preferredExecutor t' = preferredExecutor t /\
  fallbackExecutors t' = fallbackExecutors t /\
  priority t' = priority t /\ parentId t' = parentId t /\
  metadata t' = metadata t /\ createdAt t' = createdAt t.

(** The task while a dispatch is under way: the caller's task up to
    [status] and [updatedAt], and past [pending]. *)
Definition inFlight (t0 t : Task) : Prop :=
  frame t0 t /\ (status t = running \/ status t = completed).

(** The events of a stretch of the loops of [dispatch], for the task
    [tid]: tries only, closed by [task_completed] exactly when the stretch
    ends in [return]. *)
Definition loopEvents (tid : string) (returned : bool) (evs : list EventInput) : Prop :=
  respondedAfterCalled None evs = true /\
  Forall (fun ev => taskId ev = Some tid) evs /\
  if returned
  then exists pre last,
         evs = pre ++ [last] /\ type last = task_completed /\ countTerminal pre = 0
  else countTerminal evs = 0.

Definition returns (o : Settled Flow) : bool :=
  match o with
  | Resolved (Exit _) => true
  | _ => false
  end.

(** The error [dispatch] has last seen, read off the trace: a thrown
    [execute], a failed result's [error], or a store write that threw
    inside the [try]. *)
Fixpoint lastObservedError (seen : option string) (tr : list (Action Env)) : option string :=
  match tr with
  | [] => seen
  | AExec _ _ (Rejected err) :: rest => lastObservedError (Some (describe err)) rest
  | AExec _ _ (Resolved r) :: rest => lastObservedError (error r) rest
  | ALog _ (Rejected err) :: rest => lastObservedError (Some (describe err)) rest
  | _ :: rest => lastObservedError seen rest
  end.

End Observations.

(* ================================================================== *)
(** ** The runs of [dispatch], piece by piece *)
(* ================================================================== *)

(** The possible runs of each piece of [dispatch], as relations between
    the locals on entry, the outcome and the trace.  They are derived from
    [run] (soundness lemmas below) and carry, for every answer of the
    outside world that matters, that the world could give it. *)

Section Runs.

Context {Env : Type}.

(** [Path p o tr]: the tree [p] can be walked to the leaf [o] making the
    calls [tr], every answer being one the callee can give in some state
    of the world. *)
Inductive Path {A : Type} : Prog Env A -> Settled A -> list (Action Env) -> Prop :=
| path_ret a : Path (Ret a) (Resolved a) []
| path_raise err : Path (Raise err) (Rejected err) []
| path_log m ev k r o tr :
    (exists env0 env1, logEvent m ev env0 = (r, env1)) ->
    Path (k r) o tr ->
    Path (CallLogEvent m ev k) o (ALog ev r :: tr)
| path_probe x k r o tr :
    (exists env0 env1, isAvailable x env0 = (r, env1)) ->
    Path (k r) o tr ->
    Path (CallIsAvailable x k) o (AProbe x r :: tr)
| path_exec x t k r o tr :
    (exists env0 env1, execute x t env0 = (r, env1)) ->
    Path (k r) o tr ->
    Path (CallExecute x t k) o (AExec x t r :: tr)
| path_sleep ms k o tr :
    Path k o tr ->
    Path (Sleep ms k) o (ASleep ms :: tr)
| path_now k now o tr :
    Path (k now) o tr ->
    Path (NewDate k) o (ANow now :: tr)
| path_status s k o tr :
    Path k o tr ->
    Path (WriteStatus s k) o (AStatus s :: tr).

(** [p'] is a later stage of [p]: whatever [p'] can still do, [p] could
    do from the start. *)
Definition Ahead {A : Type} (p p' : Prog Env A) : Prop :=
  forall o tr, Path p' o tr -> exists tr0, Path p o (tr0 ++ tr).

Variable d : Dispatcher Env.

(** [r] is a result of dispatching [t]: [dispatch d t] can return it, and
    its task is [t] up to [status] and [updatedAt]. *)
Definition resultOf (t : Task) (r : DispatchResult) : Prop :=
  (exists tr, Path (dispatch d t) (Resolved r) tr) /\ frame t (task r).

(** The store can reject this write with this error. *)
Definition mayReject (ev : EventInput) (err : Thrown) : Prop :=
  exists env0 env1, logEvent (memory d) ev env0 = (Rejected err, env1).

(** The executor can settle this call this way. *)
Definition maySettle (x : Executor Env) (t : Task) (r : Settled ExecutorResult) : Prop :=
  exists env0 env1, execute x t env0 = (r, env1).

Inductive TryRun (ty : ExecutorType) (x : Executor Env) (attempt : nat) (s : Locals)
  : Settled Flow -> list (Action Env) -> Prop :=
| try_store_down err :
    mayReject (calledEvent (theTask s) ty attempt) err ->
    TryRun ty x attempt s (Rejected err)
      [ALog (calledEvent (theTask s) ty attempt) (Rejected err)]
| try_threw i err :
    maySettle x (theTask s) (Rejected err) ->
    TryRun ty x attempt s
      (Resolved (Continue {| theTask := theTask s;
                             lastError := Some (describe err);
                             attemptsSoFar := S (attemptsSoFar s) |}))
      [ALog (calledEvent (theTask s) ty attempt) (Resolved i);
       AExec x (theTask s) (Rejected err)]
| try_unlogged i res err :
    maySettle x (theTask s) (Resolved res) ->
    mayReject (respondedEvent (theTask s) ty res) err ->
    TryRun ty x attempt s
      (Resolved (Continue {| theTask := theTask s;
                             lastError := Some (describe err);
                             attemptsSoFar := S (attemptsSoFar s) |}))
      [ALog (calledEvent (theTask s) ty attempt) (Resolved i);
       AExec x (theTask s) (Resolved res);
       ALog (respondedEvent (theTask s) ty res) (Rejected err)]
| try_failed i res i' :
    maySettle x (theTask s) (Resolved res) ->
    success res = false ->
    TryRun ty x attempt s
      (Resolved (Continue {| theTask := theTask s;
                             lastError := error res;
                             attemptsSoFar := S (attemptsSoFar s) |}))
      [ALog (calledEvent (theTask s) ty attempt) (Resolved i);
       AExec x (theTask s) (Resolved res);
       ALog (respondedEvent (theTask s) ty res) (Resolved i')]
| try_uncompleted i res i' now err :
    maySettle x (theTask s) (Resolved res) ->
    success res = true ->
    mayReject (completedEvent (setUpdatedAt now (setStatus completed (theTask s)))
                 ty (S (attemptsSoFar s))) err ->
    TryRun ty x attempt s
      (Resolved (Continue {| theTask := setUpdatedAt now (setStatus completed (theTask s));
                             lastError := Some (describe err);
                             attemptsSoFar := S (attemptsSoFar s) |}))
      [ALog (calledEvent (theTask s) ty attempt) (Resolved i);
       AExec x (theTask s) (Resolved res);
       ALog (respondedEvent (theTask s) ty res) (Resolved i');
       AStatus completed;
       ANow now;
       ALog (completedEvent (setUpdatedAt now (setStatus completed (theTask s)))
               ty (S (attemptsSoFar s))) (Rejected err)]
| try_succeeded i res i' now i'' :
    maySettle x (theTask s) (Resolved res) ->
    success res = true ->
    TryRun ty x attempt s
      (Resolved (Exit {| task := setUpdatedAt now (setStatus completed (theTask s));
                         result := res;
                         attempts := S (attemptsSoFar s) |}))
      [ALog (calledEvent (theTask s) ty attempt) (Resolved i);
       AExec x (theTask s) (Resolved res);
       ALog (respondedEvent (theTask s) ty res) (Resolved i');
       AStatus completed;
       ANow now;
       ALog (completedEvent (setUpdatedAt now (setStatus completed (theTask s)))
               ty (S (attemptsSoFar s))) (Resolved i'')].

(** The pause between try [attempt] and the next one, if any. *)
Definition pause (attempt : nat) : list (Action Env) :=
  if attempt <? retryAttempts (options d)
  then [ASleep (retryDelayMs (options d) * Z.of_nat attempt)]
  else [].

Inductive AttemptsRun (ty : ExecutorType) (x : Executor Env)
  : nat -> nat -> Locals -> Settled Flow -> list (Action Env) -> Prop :=
| attempts_none attempt s :
    AttemptsRun ty x 0 attempt s (Resolved (Continue s)) []
| attempts_raise remaining attempt s err tr :
    TryRun ty x attempt s (Rejected err) tr ->
    AttemptsRun ty x (S remaining) attempt s (Rejected err) tr
| attempts_exit remaining attempt s r tr :
    TryRun ty x attempt s (Resolved (Exit r)) tr ->
    AttemptsRun ty x (S remaining) attempt s (Resolved (Exit r)) tr
| attempts_again remaining attempt s s' tr o tr' :
    TryRun ty x attempt s (Resolved (Continue s')) tr ->
    AttemptsRun ty x remaining (S attempt) s' o tr' ->
    AttemptsRun ty x (S remaining) attempt s o (tr ++ pause attempt ++ tr').

Inductive OrderRun
  : list ExecutorType -> Locals -> Settled Flow -> list (Action Env) -> Prop :=
| order_done s :
    OrderRun [] s (Resolved (Continue s)) []
| order_unregistered ty rest s o tr :
    get (executors d) ty = None ->
    OrderRun rest s o tr ->
    OrderRun (ty :: rest) s o tr
| order_unavailable ty rest x r s o tr :
    get (executors d) ty = Some x ->
    r <> Resolved true ->
    OrderRun rest s o tr ->
    OrderRun (ty :: rest) s o (AProbe x r :: tr)
| order_raise ty rest x s err tr :
    get (executors d) ty = Some x ->
    AttemptsRun ty x (retryAttempts (options d)) 1 s (Rejected err) tr ->
    OrderRun (ty :: rest) s (Rejected err) (AProbe x (Resolved true) :: tr)
| order_exit ty rest x s r tr :
    get (executors d) ty = Some x ->
    AttemptsRun ty x (retryAttempts (options d)) 1 s (Resolved (Exit r)) tr ->
    OrderRun (ty :: rest) s (Resolved (Exit r)) (AProbe x (Resolved true) :: tr)
| order_next ty rest x s s' tr o tr' :
    get (executors d) ty = Some x ->
    AttemptsRun ty x (retryAttempts (options d)) 1 s (Resolved (Continue s')) tr ->
    OrderRun rest s' o tr' ->
    OrderRun (ty :: rest) s o (AProbe x (Resolved true) :: tr ++ tr').

(** The task as [dispatch] first writes it. *)
Definition started (now : Z) (t : Task) : Task :=
  setUpdatedAt now (setStatus running t).

Definition entry (now : Z) (t : Task) : Locals :=
  {| theTask := started now t; lastError := None; attemptsSoFar := 0 |}.

(** The task and the result [dispatch] ends with when nothing worked. *)
Definition given_up (now : Z) (s : Locals) : Task :=
  setUpdatedAt now (setStatus failed (theTask s)).

Definition verdict (now : Z) (s : Locals) : DispatchResult :=
  {| task := given_up now s;
     result := failureResult (given_up now s) (lastError s);
     attempts := attemptsSoFar s |}.

Definition failedEventOf (now : Z) (s : Locals) : EventInput :=
  failedEvent (given_up now s)
    (errorText (failureResult (given_up now s) (lastError s))) (attemptsSoFar s).

(** What [dispatch] does before and after its loops. *)
Definition opening (now : Z) (t : Task) (r : Settled string) : list (Action Env) :=
  [AStatus running; ANow now; ALog (startedEvent (started now t)) r].

Definition closing (now : Z) (s : Locals) (r : Settled string) : list (Action Env) :=
  [AStatus failed; ANow now; ALog (failedEventOf now s) r].

Inductive DispatchRun (t : Task)
  : Settled DispatchResult -> list (Action Env) -> Prop :=
| dispatch_not_started now err :
    mayReject (startedEvent (started now t)) err ->
    DispatchRun t (Rejected err) (opening now t (Rejected err))
| dispatch_raise now i err tr :
    OrderRun (getExecutorOrder d (started now t)) (entry now t) (Rejected err) tr ->
    DispatchRun t (Rejected err) (opening now t (Resolved i) ++ tr)
| dispatch_completed now i r tr :
    OrderRun (getExecutorOrder d (started now t)) (entry now t) (Resolved (Exit r)) tr ->
    DispatchRun t (Resolved r) (opening now t (Resolved i) ++ tr)
| dispatch_unrecorded now i s tr now' err :
    OrderRun (getExecutorOrder d (started now t)) (entry now t) (Resolved (Continue s)) tr ->
    mayReject (failedEventOf now' s) err ->
    DispatchRun t (Rejected err)
      (opening now t (Resolved i) ++ tr ++ closing now' s (Rejected err))
| dispatch_failed now i s tr now' i' :
    OrderRun (getExecutorOrder d (started now t)) (entry now t) (Resolved (Continue s)) tr ->
    DispatchRun t (Resolved (verdict now' s))
      (opening now t (Resolved i) ++ tr ++ closing now' s (Resolved i')).

(** The trace ends with a write the store refused, with this error. *)
Definition endsRefused (err : Thrown) (tr : list (Action Env)) : Prop :=
  exists pre ev, tr = pre ++ [ALog ev (Rejected err)] /\ mayReject ev err.

(** Only back ends whose probe answered [true] are called or announced. *)
Definition probedFirst (tr : list (Action Env)) : Prop :=
  (forall y t r, In (AExec y t r) tr -> In (AProbe y (Resolved true)) tr) /\
  (forall ev r, In (ALog ev r) tr -> type ev = executor_called ->
     exists ty y, executorType ev = Some ty /\ get (executors d) ty = Some y /\
       In (AProbe y (Resolved true)) tr).

(** *** Availability as a property of the back ends *)

(** [avail] tells, for every registered back end, what its probe answered
    in the trace. *)
Definition probesAnswer (avail : ExecutorType -> bool) (tr : list (Action Env)) : Prop :=
  forall ty x r, get (executors d) ty = Some x -> In (AProbe x r) tr ->
    (r = Resolved true <-> avail ty = true).

(** Registered and available. *)
Definition usable (avail : ExecutorType -> bool) (ty : ExecutorType) : bool :=
  match get (executors d) ty with
  | Some _ => avail ty
  | None => false
  end.

(** *** Watching the tries *)

(** A monitor for the announcement, the call and the report of a try.
    After an accepted [executor_called] write the next call must be
    [execute]; if it returns, the next call must be the write of the
    matching [executor_responded] event, reporting the result; no
    [executor_responded] event is written otherwise. *)
Inductive Stage :=
| Quiet
| Announced (ev : EventInput)
| Returned (ev : EventInput) (res : ExecutorResult).

Definition reports (ev' : EventInput) (res : ExecutorResult) : bool :=
  match payload ev' with
  | PResponded ok ms _ => Bool.eqb ok (success res) && (ms =? durationMs res)%Z
  | _ => false
  end.

Definition follow (st : Stage) (a : Action Env) : option Stage :=
  match st with
  | Quiet =>
      match a with
      | ALog ev r =>
          if isResponded ev then None
          else if isCalled ev then
            match r with
            | Resolved _ => Some (Announced ev)
            | Rejected _ => Some Quiet
            end
          else Some Quiet
      | AExec _ _ _ => None
      | _ => Some Quiet
      end
  | Announced ev =>
      match a with
      | AExec _ _ (Resolved res) => Some (Returned ev res)
      | AExec _ _ (Rejected _) => Some Quiet
      | _ => None
      end
  | Returned ev res =>
      match a with
      | ALog ev' _ => if answers ev ev' && reports ev' res then Some Quiet else None
      | _ => None
      end
  end.

Fixpoint followAll (st : Stage) (tr : list (Action Env)) : option Stage :=
  match tr with
  | [] => Some st
  | a :: rest =>
      match follow st a with
      | Some st' => followAll st' rest
      | None => None
      end
  end.

(** *** Watching the pauses *)

(** A monitor for the retry pauses.  Its state is the last try announced
    (back end and number) and whether a pause has just been taken. *)
Definition Watch : Type := option (option ExecutorType * nat) * bool.

(** The monitor state in which try [attempt] of [ty] may be announced. *)
Definition ready (ty : ExecutorType) (attempt : nat) (st : Watch) : Prop :=
  (attempt = 1 /\ snd st = false) \/
  (exists n, attempt = S n /\ 1 <= n /\ st = (Some (Some ty, n), true)).

Definition optType_eqb (a b : option ExecutorType) : bool :=
  match a, b with
  | Some x, Some y => ExecutorType_eqb x y
  | None, None => true
  | _, _ => false
  end.

Definition watch (st : Watch) (a : Action Env) : option Watch :=
  let (last, slept) := st in
  match a with
  | ASleep ms =>
      if slept then None
      else
        match last with
        | Some (ty, n) =>
            if (1 <=? n) && (n <? retryAttempts (options d)) &&
               (ms =? retryDelayMs (options d) * Z.of_nat n)%Z
            then Some (Some (ty, n), true) else None
        | None => None
        end
  | ALog ev _ =>
      match type ev, payload ev with
      | executor_called, PCalled m =>
          if slept then
            match last with
            | Some (ty, n) =>
                if (m =? S n) && optType_eqb (executorType ev) ty
                then Some (Some (ty, m), false) else None
            | None => None
            end
          else if m =? 1 then Some (Some (executorType ev, 1), false) else None
      | _, _ => if slept then None else Some st
      end
  | _ => if slept then None else Some st
  end.

Fixpoint watchAll (st : Watch) (tr : list (Action Env)) : option Watch :=
  match tr with
  | [] => Some st
  | a :: rest =>
      match watch st a with
      | Some st' => watchAll st' rest
      | None => None
      end
  end.

End Runs.

(* ================================================================== *)
(** ** [Orpheus.getConfig] ([index.ts]) *)
(* ================================================================== *)

Inductive LogLevel := debug | info | warn | error_level.

Record PlannerConfig := {
  maxSubtasks : nat;
  defaultExecutor : ExecutorType;
  parallelExecution : bool
}.

Record OrpheusConfig := {
  openaiApiKey : option string;
  anthropicApiKey : option string;
  googleApiKey : option string;
  memoryPath : string;
  logLevel : LogLevel;
  planner : PlannerConfig
}.

(** JavaScript truthiness of a [string | undefined]. *)
Definition truthy (s : option string) : bool :=
  match s with
  | Some s' => negb (String.eqb s' "")
  | None => false
  end.

Definition redact (key : option string) : option string :=
  if truthy key then Some "[REDACTED]" else None.

Definition getConfig (config : OrpheusConfig) : OrpheusConfig :=
  {| openaiApiKey := redact (openaiApiKey config);
     anthropicApiKey := redact (anthropicApiKey config);
     googleApiKey := redact (googleApiKey config);
     memoryPath := memoryPath config;
     logLevel := logLevel config;
     planner := planner config |}.

(* ================================================================== *)
(** ** Small worlds to run the dispatcher in *)
(* ================================================================== *)

Module Scenario.

(** The world is the number of [execute] calls made so far. *)
Definition World := nat.

Definition host : Host World :=
  {| newDate := fun w => (1700000000000%Z, w);
     setTimeout := fun _ w => w |}.

Definition store : MemoryStore World :=
  {| logEvent := fun _ w => (Resolved "event-id", w) |}.

(** A store that is down. *)
Definition brokenStore : MemoryStore World :=
  {| logEvent := fun _ w => (Rejected (ErrorObject "database is locked"), w) |}.

Definition reply (ty : ExecutorType) (ok : bool) : ExecutorResult :=
  {| executor := ty; success := ok;
     content := if ok then "hello" else "";
     usage := None;
     error := if ok then None else Some "rate limited";
     durationMs := 7%Z |}.

(** A back end that answers every call with a failure. *)
Definition failing (ty : ExecutorType) : Executor World :=
  {| kind := ty;
     execute := fun _ w => (Resolved (reply ty false), S w);
     isAvailable := fun w => (Resolved true, w) |}.

(** A back end that answers every call with a success. *)
Definition working (ty : ExecutorType) : Executor World :=
  {| kind := ty;
     execute := fun _ w => (Resolved (reply ty true), S w);
     isAvailable := fun w => (Resolved true, w) |}.

(** A back end whose [execute] rejects. *)
Definition throwing (ty : ExecutorType) : Executor World :=
  {| kind := ty;
     execute := fun _ w => (Rejected (ErrorObject "socket hang up"), S w);
     isAvailable := fun w => (Resolved true, w) |}.

(** A back end whose probe answers [false]. *)
Definition unavailable (ty : ExecutorType) : Executor World :=
  {| kind := ty;
     execute := fun _ w => (Resolved (reply ty true), S w);
     isAvailable := fun w => (Resolved false, w) |}.

(** A back end that fails until the world has seen [n] calls. *)
Definition workingAfter (n : nat) (ty : ExecutorType) : Executor World :=
  {| kind := ty;
     execute := fun _ w => (Resolved (reply ty (n <=? w)), S w);
     isAvailable := fun w => (Resolved true, w) |}.

(** A provider whose SDK call throws and whose ping goes through. *)
Definition offline : Provider World :=
  {| complete := fun _ w => (Rejected (ErrorObject "fetch failed"), S w);
     ping := fun w => (Resolved true, w) |}.

Definition aTask (preferred : option ExecutorType)
    (fallback : option (list ExecutorType)) : Task :=
  {| id := "task-1"; prompt := "Say hello"; systemPrompt := None;
     preferredExecutor := preferred; fallbackExecutors := fallback;
     priority := normal; status := pending; parentId := None;
     metadata := None; createdAt := 0%Z; updatedAt := 0%Z |}.

Definition dispatcherWith (ex : ExecutorMap World) (mem : MemoryStore World)
    (retries : nat) : Dispatcher World :=
  createDispatcher ex mem (Some retries) (Some 100%Z).

End Scenario.

(** Dispatchers and tasks used as examples. *)
Module Examples.

Import Scenario.

(** No executor registered; the task names none. *)
Definition emptyDispatcher : Dispatcher World := dispatcherWith [] store 3.
Definition plainTask : Task := aTask None None.

(** One back end whose [execute] rejects, one try. *)
Definition throwingDispatcher : Dispatcher World :=
  dispatcherWith [(sonnet, throwing sonnet)] store 1.
Definition sonnetTask : Task := aTask (Some sonnet) None.

(** [sonnet] fails both tries, [codex] succeeds at once. *)
Definition fallbackDispatcher : Dispatcher World :=
  dispatcherWith [(sonnet, failing sonnet); (codex, working codex)] store 2.
Definition fallbackTask : Task := aTask (Some sonnet) (Some [sonnet; codex]).

(** Both back ends fail every try. *)
Definition hopelessDispatcher : Dispatcher World :=
  dispatcherWith [(sonnet, failing sonnet); (codex, failing codex)] store 2.

(** A task with a fallback list and no preferred executor. *)
Definition geminiDispatcher : Dispatcher World :=
  dispatcherWith [(gemini, failing gemini)] store 1.
Definition geminiFirstTask : Task := aTask None (Some [gemini]).

(** The repository's Codex executor over a provider that is down. *)
Definition offlineDispatcher : Dispatcher World :=
  dispatcherWith [(codex, CodexExecutor host offline)] store 1.
Definition codexTask : Task := aTask (Some codex) None.

(** The only back end of the order is unavailable. *)
Definition downDispatcher : Dispatcher World :=
  dispatcherWith [(sonnet, unavailable sonnet)] store 1.

Definition basePlanner : PlannerConfig :=
  {| maxSubtasks := 10; defaultExecutor := sonnet; parallelExecution := false |}.

Definition configWith (openai : option string) : OrpheusConfig :=
  {| openaiApiKey := openai; anthropicApiKey := None; googleApiKey := None;
     memoryPath := "./orpheus.db"; logLevel := info; planner := basePlanner |}.

End Examples.

(* ================================================================== *)
(** ** The statements under test that the code does not meet *)
(* ================================================================== *)

Section Statements.

Context {Env : Type}.
Variable host : Host Env.

(** "Dispatch raises a plan error and appends no events." *)
Definition raisesPlanError (d : Dispatcher Env) (t : Task) (env : Env) : Prop :=
  exists err env' tr,
    run host (dispatch d t) env = (Rejected err, env', tr) /\ loggedEvents tr = [].

(** "Starts with [task_started], ends with exactly one terminal event,
    and every [executor_called] is immediately followed by its
    [executor_responded]." *)
Definition strictHistory (evs : list EventInput) : Prop :=
  (exists first rest, evs = first :: rest /\ type first = task_started) /\
  (exists pre last, evs = pre ++ [last] /\ isTerminal last = true) /\
  countTerminal evs = 1 /\
  calledThenResponded evs = true.

(** "The failure is attributed to the plan's first entry or to the
    task's preferred back end." *)
Definition blamesPlanOrPreferred (d : Dispatcher Env) (t : Task)
    (res : DispatchResult) : Prop :=
  (exists rest, getExecutorOrder d t = executor (result res) :: rest) \/
  preferredExecutor t = Some (executor (result res)).

End Statements.

(** "Configurations that differ only in the values of the API keys, the
    same keys being present, have equal views." *)
Definition sameKeysPresent (c1 c2 : OrpheusConfig) : Prop :=
  memoryPath c1 = memoryPath c2 /\ logLevel c1 = logLevel c2 /\
  planner c1 = planner c2 /\
  (openaiApiKey c1 = None <-> openaiApiKey c2 = None) /\
  (anthropicApiKey c1 = None <-> anthropicApiKey c2 = None) /\
  (googleApiKey c1 = None <-> googleApiKey c2 = None).

(* ================================================================== *)
(** ** Further readings of a trace *)
(* ================================================================== *)

Section Readings.

Context {Env : Type}.

(** The executors probed, in the order of the probes. *)
Fixpoint probed (tr : list (Action Env)) : list (Executor Env) :=
  match tr with
  | [] => []
  | AProbe x _ :: rest => x :: probed rest
  | _ :: rest => probed rest
  end.

(** The time asked of [setTimeout], summed over the trace. *)
Fixpoint totalDelay (tr : list (Action Env)) : Z :=
  match tr with
  | [] => 0%Z
  | ASleep ms :: rest => (ms + totalDelay rest)%Z
  | _ :: rest => totalDelay rest
  end.

(** [this.executors.get(executorType)] along an order, the types that
    are not registered left out. *)
Fixpoint registeredOf (d : Dispatcher Env) (order : list ExecutorType)
    : list (Executor Env) :=
  match order with
  | [] => []
  | ty :: rest =>
      match get (executors d) ty with
      | Some x => x :: registeredOf d rest
      | None => registeredOf d rest
      end
  end.

Definition isStarted (ev : EventInput) : bool := EventType_eqb (type ev) task_started.

(** The task ids of the [task_started] events handed to the store. *)
Definition startedTasks (tr : list (Action Env)) : list (option string) :=
  map taskId (filter isStarted (offeredEvents tr)).

(** The store writes that were refused, as event types. *)
Fixpoint refusedWrites (tr : list (Action Env)) : list EventType :=
  match tr with
  | [] => []
  | ALog ev (Rejected _) :: rest => type ev :: refusedWrites rest
  | _ :: rest => refusedWrites rest
  end.

(** An executor whose [execute] never rejects. *)
Definition neverThrows (x : Executor Env) : Prop :=
  forall t env, exists res env', execute x t env = (Resolved res, env').

(** The pauses a back end with [R] tries takes when every try from try
    number [attempt] on fails, [remaining] tries being left. *)
Fixpoint owedDelay (D : Z) (R : nat) (remaining attempt : nat) : Z :=
  match remaining with
  | O => 0%Z
  | S remaining' =>
      ((if (attempt <? R)%nat then D * Z.of_nat attempt else 0) +
       owedDelay D R remaining' (S attempt))%Z
  end.

End Readings.

Section Refused.

Context {Env : Type}.

(** The trace ends with a store write of one of the given types that was
    refused with this error. *)
Definition endsWithRefusal (types : list EventType) (err : Thrown)
    (tr : list (Action Env)) : Prop :=
  exists pre ev, tr = pre ++ [ALog ev (Rejected err)] /\ In (type ev) types.

End Refused.

(* ================================================================== *)
(** ** The planner ([planner.ts]) *)
(* ================================================================== *)

(** Strings are sequences of 8-bit characters; [toLowerCase] is
    [String.prototype.toLowerCase] on them: the letters A to Z are mapped
    to a to z, every other character is kept. *)
Definition lowerChar (c : ascii) : ascii :=
  let n := nat_of_ascii c in
  if (65 <=? n) && (n <=? 90) then ascii_of_nat (n + 32) else c.

Fixpoint toLowerCase (s : string) : string :=
  match s with
  | EmptyString => EmptyString
  | String c s' => String (lowerChar c) (toLowerCase s')
  end.

(** [s.includes(p)]: [p] occurs in [s] at some position. *)
Fixpoint includes (s p : string) : bool :=
  String.prefix p s ||
  match s with
  | EmptyString => false
  | String _ s' => includes s' p
  end.

(** The parameter object of [createTask]. *)
Module TaskParams.
Record t := {
  prompt : string;
  systemPrompt : option string;
  preferredExecutor : option ExecutorType;
  priority : option TaskPriority;
  parentId : option string;
  metadata : option (list (string * string))
}.
End TaskParams.

Module Plan.
Record t := {
  id : string;
  originalPrompt : string;
  tasks : list Task;
  strategy : string;
  createdAt : Z
}.
End Plan.

(** What [analyzePrompt] returns. *)
Module Analysis.
Record t := {
  recommendedExecutor : ExecutorType;
  priority : TaskPriority;
  strategy : string
}.
End Analysis.

Definition matchesPatterns (text : string) (patterns : list string) : bool :=
  existsb (fun p => includes text p) patterns.

Definition codePatterns : list string :=
  ["code"; "function"; "class"; "implement"; "debug"; "refactor";
   "typescript"; "javascript"; "python"; "rust"; "script";
   "api"; "endpoint"; "database"; "sql"; "query"]%string.

Definition researchPatterns : list string :=
  ["research"; "analyze image"; "compare"; "summarize document";
   "multimodal"; "vision"; "video"; "search"]%string.

Definition analyzePrompt (prompt_ : string) : Analysis.t :=
  let lower := toLowerCase prompt_ in
  if matchesPatterns lower codePatterns then
    {| Analysis.recommendedExecutor := codex;
       Analysis.priority := normal;
       Analysis.strategy := "Code generation task routed to Codex" |}
  else if matchesPatterns lower researchPatterns then
    {| Analysis.recommendedExecutor := gemini;
       Analysis.priority := normal;
       Analysis.strategy := "Research/multimodal task routed to Gemini" |}
  else
    {| Analysis.recommendedExecutor := sonnet;
       Analysis.priority := normal;
       Analysis.strategy := "General reasoning task routed to Sonnet" |}.

Definition getFallbackOrder (preferred : option ExecutorType) : list ExecutorType :=
  let all := [sonnet; codex; gemini] in
  match preferred with
  | None => all
  | Some p => p :: filter (fun e => negb (ExecutorType_eqb e p)) all
  end.

(** [Partial<PlannerConfig>]. *)
Module PartialPlannerConfig.
Record t := {
  maxSubtasks : option nat;
  defaultExecutor : option ExecutorType;
  parallelExecution : option bool
}.
End PartialPlannerConfig.

(** [createPlanner(config?)]: the planner is its configuration,
    [{ ...defaults, ...config }]. *)
Definition createPlanner (config : option PartialPlannerConfig.t) : PlannerConfig :=
  let pick {A} (given : option A) (default : A) : A :=
    match given with Some a => a | None => default end in
  match config with
  | None =>
      {| maxSubtasks := 10; defaultExecutor := sonnet; parallelExecution := false |}
  | Some c =>
      {| maxSubtasks := pick (PartialPlannerConfig.maxSubtasks c) 10;
         defaultExecutor := pick (PartialPlannerConfig.defaultExecutor c) sonnet;
         parallelExecution := pick (PartialPlannerConfig.parallelExecution c) false |}
  end.

Section Planner.

Context {Env : Type}.

(** [randomUUID] of [crypto]. *)
Record Crypto := {
  randomUUID : Env -> string * Env
}.

Variable host : Host Env.
Variable crypto : Crypto.

(** [Planner.createTask(params)] of a planner with configuration
    [config]. *)
Definition createTask (config : PlannerConfig) (params : TaskParams.t) (env : Env)
    : Task * Env :=
  let '(now, env1) := newDate host env in
  let '(uuid, env2) := randomUUID crypto env1 in
  ({| id := uuid;
      prompt := TaskParams.prompt params;
      systemPrompt := TaskParams.systemPrompt params;
      preferredExecutor :=
        Some match TaskParams.preferredExecutor params with
             | Some p => p
             | None => defaultExecutor config
             end;
      fallbackExecutors := Some (getFallbackOrder (TaskParams.preferredExecutor params));
      priority :=
        match TaskParams.priority params with
        | Some p => p
        | None => normal
        end;
      status := pending;
      parentId := TaskParams.parentId params;
      metadata := TaskParams.metadata params;
      createdAt := now;
      updatedAt := now |}, env2).

(** [Planner.createPlan(prompt)]. *)
Definition createPlan (config : PlannerConfig) (prompt_ : string) (env : Env)
    : Plan.t * Env :=
  let '(planId, env1) := randomUUID crypto env in
  let '(now, env2) := newDate host env1 in
  let analysis := analyzePrompt prompt_ in
  let '(task_, env3) :=
    createTask config
      {| TaskParams.prompt := prompt_;
         TaskParams.systemPrompt := None;
         TaskParams.preferredExecutor := Some (Analysis.recommendedExecutor analysis);
         TaskParams.priority := Some (Analysis.priority analysis);
         TaskParams.parentId := None;
         TaskParams.metadata := None |} env2 in
  ({| Plan.id := planId;
      Plan.originalPrompt := prompt_;
      Plan.tasks := [task_];
      Plan.strategy := Analysis.strategy analysis;
      Plan.createdAt := now |}, env3).

End Planner.

Arguments Crypto : clear implicits.

(** [p] occurs in [s]. *)
Definition occursIn (p s : string) : Prop :=
  exists pre post, s = String.append pre (String.append p post).

(** Some pattern of the list occurs in [s]. *)
Definition someOccurs (patterns : list string) (s : string) : Prop :=
  exists p, In p patterns /\ occursIn p s.

(* ================================================================== *)
(** ** The orchestrator ([index.ts]) *)
(* ================================================================== *)

(** [a ?? b]. *)
Definition nullish {A : Type} (a b : option A) : option A :=
  match a with
  | Some x => Some x
  | None => b
  end.

(** The variables of [process.env] that the constructor reads.
    [ORPHEUS_LOG_LEVEL], which the source casts to a log level without a
    check, is taken to hold one of the four level names when it is set. *)
Record ProcessEnv := {
  OPENAI_API_KEY : option string;
  ANTHROPIC_API_KEY : option string;
  GOOGLE_AI_API_KEY : option string;
  ORPHEUS_MEMORY_PATH : option string;
  ORPHEUS_LOG_LEVEL : option LogLevel
}.

(** [Partial<OrpheusConfig>]. *)
Module PartialConfig.
Record t := {
  openaiApiKey : option string;
  anthropicApiKey : option string;
  googleApiKey : option string;
  memoryPath : option string;
  logLevel : option LogLevel;
  planner : option PlannerConfig
}.
End PartialConfig.

(** The configuration the constructor stores in [this.config]. *)
Definition resolveConfig (config : PartialConfig.t) (penv : ProcessEnv) : OrpheusConfig :=
  {| openaiApiKey := nullish (PartialConfig.openaiApiKey config) (OPENAI_API_KEY penv);
     anthropicApiKey :=
       nullish (PartialConfig.anthropicApiKey config) (ANTHROPIC_API_KEY penv);
     googleApiKey := nullish (PartialConfig.googleApiKey config) (GOOGLE_AI_API_KEY penv);
     memoryPath :=
       match nullish (PartialConfig.memoryPath config) (ORPHEUS_MEMORY_PATH penv) with
       | Some p => p
       | None => "./orpheus.db"
       end;
     logLevel :=
       match nullish (PartialConfig.logLevel config) (ORPHEUS_LOG_LEVEL penv) with
       | Some l => l
       | None => info
       end;
     planner :=
       match PartialConfig.planner config with
       | Some p => p
       | None =>
           {| maxSubtasks := 10; defaultExecutor := sonnet;
              parallelExecution := false |}
       end |}.

Section Orchestrator.

Context {Env : Type}.

(** An [Orpheus] object, by its private fields. *)
Record Orpheus := {
  theConfig : OrpheusConfig;                 (* [config] *)
  thePlanner : PlannerConfig;                (* [planner] *)
  theDispatcher : option (Dispatcher Env);   (* [dispatcher] *)
  theExecutors : ExecutorMap Env;            (* [executors] *)
  theMemory : option (MemoryStore Env)       (* [memory] *)
}.

(** [new Orpheus(config)], run with the environment [penv]. *)
Definition newOrpheus (config : PartialConfig.t) (penv : ProcessEnv) : Orpheus :=
  let cfg := resolveConfig config penv in
  {| theConfig := cfg;
     thePlanner :=
       createPlanner
         (Some {| PartialPlannerConfig.maxSubtasks := Some (maxSubtasks (planner cfg));
                  PartialPlannerConfig.defaultExecutor :=
                    Some (defaultExecutor (planner cfg));
                  PartialPlannerConfig.parallelExecution :=
                    Some (parallelExecution (planner cfg)) |});
     theDispatcher := None;
     theExecutors := [];
     theMemory := None |}.

Definition rebuildDispatcher (o : Orpheus) : Orpheus :=
  match theMemory o, theExecutors o with
  | Some m, _ :: _ =>
      {| theConfig := theConfig o;
         thePlanner := thePlanner o;
         theDispatcher := Some (createDispatcher (theExecutors o) m None None);
         theExecutors := theExecutors o;
         theMemory := theMemory o |}
  | _, _ => o
  end.

Definition useMemory (o : Orpheus) (m : MemoryStore Env) : Orpheus :=
  rebuildDispatcher
    {| theConfig := theConfig o;
       thePlanner := thePlanner o;
       theDispatcher := theDispatcher o;
       theExecutors := theExecutors o;
       theMemory := Some m |}.

Definition useExecutor (o : Orpheus) (x : Executor Env) : Orpheus :=
  rebuildDispatcher
    {| theConfig := theConfig o;
       thePlanner := thePlanner o;
       theDispatcher := theDispatcher o;
       theExecutors := set (theExecutors o) (kind x) x;
       theMemory := theMemory o |}.

(** A registration call made on an [Orpheus] object. *)
Inductive Registration :=
| UseMemory (m : MemoryStore Env)
| UseExecutor (x : Executor Env).

Definition register (o : Orpheus) (r : Registration) : Orpheus :=
  match r with
  | UseMemory m => useMemory o m
  | UseExecutor x => useExecutor o x
  end.

Definition notReady : Thrown :=
  ErrorObject "Orpheus not ready: register memory and at least one executor".

Variable host : Host Env.
Variable crypto : Crypto Env.

(** [Orpheus.execute(prompt)].  The tasks of the plan are the objects
    handed to [dispatchAll]: the plan that is returned holds them as the
    dispatches left them. *)
Definition orpheusExecute (o : Orpheus) (prompt_ : string) (sched : list nat) (env : Env)
    : option (Settled (Plan.t * list DispatchResult)) * Env * list (Action Env) :=
  match theDispatcher o with
  | None => (Some (Rejected notReady), env, [])
  | Some d =>
      let '(plan, env1) := createPlan host crypto (thePlanner o) prompt_ env in
      let '(r, env2, tr) :=
        runBatch host sched
          (dispatchAll d (Plan.tasks plan) (parallelExecution (planner (theConfig o))))
          env1 in
      (match r with
       | Some (Resolved results) =>
           Some (Resolved
                   ({| Plan.id := Plan.id plan;
                       Plan.originalPrompt := Plan.originalPrompt plan;
                       Plan.tasks := map task results;
                       Plan.strategy := Plan.strategy plan;
                       Plan.createdAt := Plan.createdAt plan |}, results))
       | Some (Rejected err) => Some (Rejected err)
       | None => None
       end, env2, tr)
  end.

(** [Orpheus.checkExecutors()]: one probe per registered executor, in the
    order of the map; a probe that throws counts as [false]. *)
Fixpoint checkEach (m : ExecutorMap Env) (status_ : list (ExecutorType * bool))
    : Prog Env (list (ExecutorType * bool)) :=
  match m with
  | [] => Ret status_
  | (ty, x) :: rest =>
      CallIsAvailable x (fun r =>
      let b := match r with Resolved b => b | Rejected _ => false end in
      checkEach rest (status_ ++ [(ty, b)]))
  end.

Definition checkExecutors (o : Orpheus) : Prog Env (list (ExecutorType * bool)) :=
  checkEach (theExecutors o) [].

End Orchestrator.

Arguments Orpheus : clear implicits.
Arguments Registration : clear implicits.

Section OrchestratorState.

Context {Env : Type}.

(** [this.dispatcher] is what [rebuildDispatcher] would build from
    [this.memory] and [this.executors], and is unset while either is
    missing. *)
Definition dispatcherInSync (o : Orpheus Env) : Prop :=
  theDispatcher o =
  match theMemory o, theExecutors o with
  | Some m, _ :: _ => Some (createDispatcher (theExecutors o) m None None)
  | _, _ => None
  end.

End OrchestratorState.

Section ProbeAnswers.

Context {Env : Type}.

(** What [checkExecutors] makes of the answer of a probe. *)
Definition asBool (r : Settled bool) : bool :=
  match r with
  | Resolved b => b
  | Rejected _ => false
  end.

(** The probes of the executors of a map, in order, with their answers. *)
Definition probesOf (m : ExecutorMap Env) (answers_ : list (Settled bool))
    : list (Action Env) :=
  map (fun p => AProbe (snd (fst p)) (snd p)) (combine m answers_).

End ProbeAnswers.

(* ================================================================== *)
(** ** The SQLite store ([store.ts]) *)
(* ================================================================== *)

(** A row of the table [events].  The [timestamp] column holds the ISO
    text of a date, which sorts as the date does; it is kept as the date,
    in milliseconds.  The [payload] column holds the JSON text of the
    payload, which [JSON.parse] reads back; it is kept as the payload. *)
Module EventRow.
Record t := {
  id : string;
  type : EventType;
  timestamp : Z;
  task_id : option string;
  executor_type : option ExecutorType;
  payload : Payload
}.
End EventRow.

Module MemoryEvent.
Record t := {
  id : string;
  type : EventType;
  timestamp : Z;
  taskId : option string;
  executorType : option ExecutorType;
  payload : Payload
}.
End MemoryEvent.

(** The table, rows in the order of insertion. *)
Definition Table := list EventRow.t.

(** [rowToEvent]: a [NULL] in [task_id] or [executor_type] is read back
    as an absent field. *)
Definition rowToEvent (row : EventRow.t) : MemoryEvent.t :=
  {| MemoryEvent.id := EventRow.id row;
     MemoryEvent.type := EventRow.type row;
     MemoryEvent.timestamp := EventRow.timestamp row;
     MemoryEvent.taskId := EventRow.task_id row;
     MemoryEvent.executorType := EventRow.executor_type row;
     MemoryEvent.payload := EventRow.payload row |}.

(** The row [logEvent] inserts for an event. *)
Definition rowOf (uuid : string) (now : Z) (ev : EventInput) : EventRow.t :=
  {| EventRow.id := uuid;
     EventRow.type := type ev;
     EventRow.timestamp := now;
     EventRow.task_id := taskId ev;
     EventRow.executor_type := executorType ev;
     EventRow.payload := payload ev |}.

(** What a row says of the event that was logged. *)
Definition inputOf (row : EventRow.t) : EventInput :=
  {| type := EventRow.type row;
     taskId := EventRow.task_id row;
     executorType := EventRow.executor_type row;
     payload := EventRow.payload row |}.

Definition hasId (uuid : string) (row : EventRow.t) : bool :=
  String.eqb (EventRow.id row) uuid.

(** [INSERT INTO events ...]: the primary key must be new. *)
Definition insertRow (constraintFailed : Thrown) (row : EventRow.t) (db : Table)
    : Settled string * Table :=
  if existsb (hasId (EventRow.id row)) db
  then (Rejected constraintFailed, db)
  else (Resolved (EventRow.id row), db ++ [row]).

(** *** Queries *)

(** [ORDER BY timestamp ASC] and [DESC].  SQLite does not say in which
    order it returns rows of equal timestamp: an answer is any arrangement
    of the selected rows that is sorted. *)
Definition earlier (a b : EventRow.t) : Prop :=
  (EventRow.timestamp a <= EventRow.timestamp b)%Z.

Definition later (a b : EventRow.t) : Prop :=
  (EventRow.timestamp b <= EventRow.timestamp a)%Z.

Definition orderedAsc (selected answer : list EventRow.t) : Prop :=
  Permutation selected answer /\ StronglySorted earlier answer.

Definition orderedDesc (selected answer : list EventRow.t) : Prop :=
  Permutation selected answer /\ StronglySorted later answer.

(** One such arrangement: rows of equal timestamp in insertion order. *)
Fixpoint insertSorted (row : EventRow.t) (sorted : list EventRow.t) : list EventRow.t :=
  match sorted with
  | [] => [row]
  | r :: rest =>
      if (EventRow.timestamp row <? EventRow.timestamp r)%Z
      then row :: r :: rest
      else r :: insertSorted row rest
  end.

Definition orderByTimestamp (rows : list EventRow.t) : list EventRow.t :=
  fold_left (fun sorted row => insertSorted row sorted) rows [].

(** [WHERE task_id = ?]. *)
Definition ofTask (taskId_ : string) (row : EventRow.t) : bool :=
  string_eqb_opt (EventRow.task_id row) taskId_.

(** [getTaskHistory(taskId)]: the possible answers. *)
Definition taskHistory (db : Table) (taskId_ : string) (events : list MemoryEvent.t) : Prop :=
  exists rows, orderedAsc (filter (ofTask taskId_) db) rows /\ events = map rowToEvent rows.

(** [Partial<MemoryEvent>], the filter of [getEvents]. *)
Module EventFilter.
Record t := {
  id : option string;
  type : option EventType;
  timestamp : option Z;
  taskId : option string;
  executorType : option ExecutorType;
  payload : option Payload
}.
End EventFilter.

(** The [WHERE] clause [getEvents] builds: a condition for each of
    [type], [taskId] and [executorType] that is truthy in the filter. *)
Definition selects (filter_ : option EventFilter.t) (row : EventRow.t) : bool :=
  match filter_ with
  | None => true
  | Some f =>
      match EventFilter.type f with
      | Some ty => EventType_eqb (EventRow.type row) ty
      | None => true
      end &&
      (if truthy (EventFilter.taskId f)
       then match EventFilter.taskId f with
            | Some tid => ofTask tid row
            | None => true
            end
       else true) &&
      match EventFilter.executorType f with
      | Some x =>
          match EventRow.executor_type row with
          | Some y => ExecutorType_eqb y x
          | None => false
          end
      | None => true
      end
  end.

(** [getEvents(filter?)]: the possible answers. *)
Definition events (db : Table) (filter_ : option EventFilter.t)
    (answer : list MemoryEvent.t) : Prop :=
  exists rows, orderedAsc (filter (selects filter_) db) rows /\ answer = map rowToEvent rows.

(** [LIMIT ?]: a negative limit is no limit. *)
Definition limitTo {A : Type} (limit : Z) (rows : list A) : list A :=
  if (limit <? 0)%Z then rows else firstn (Z.to_nat limit) rows.

(** [getRecentEvents(limit)]: the possible answers. *)
Definition recentEvents (db : Table) (limit : Z) (answer : list MemoryEvent.t) : Prop :=
  exists rows, orderedDesc db rows /\ answer = rev (map rowToEvent (limitTo limit rows)).

(** [clear()] and [getEventCount()]. *)
Definition clear (db : Table) : Table := [].

Definition getEventCount (db : Table) : nat := List.length db.

(** *** The store as a [MemoryStore] *)

Section SQLiteStore.

(** The world is the table and the rest [W], where the clock and the
    UUID generator live. *)
Context {W : Type}.
Variable host : Host W.
Variable crypto : Crypto W.

(** The error [better-sqlite3] throws when a constraint fails. *)
Variable constraintFailed : Thrown.

(** [SQLiteStore.logEvent(event)]. *)
Definition sqliteLogEvent (ev : EventInput) (env : Table * W)
    : Settled string * (Table * W) :=
  let '(db, w) := env in
  let '(uuid, w1) := randomUUID crypto w in
  let '(now, w2) := newDate host w1 in
  let '(r, db') := insertRow constraintFailed (rowOf uuid now ev) db in
  (r, (db', w2)).

Definition SQLiteStore : MemoryStore (Table * W) :=
  {| logEvent := sqliteLogEvent |}.

(** The host and an executor, which have no hand on the table. *)
Definition besideTable (h : Host W) : Host (Table * W) :=
  {| newDate := fun env =>
       let '(d, w') := newDate h (snd env) in (d, (fst env, w'));
     setTimeout := fun ms env => (fst env, setTimeout h ms (snd env)) |}.

Definition executorBesideTable (x : Executor W) : Executor (Table * W) :=
  {| kind := kind x;
     execute := fun t env =>
       let '(r, w') := execute x t (snd env) in (r, (fst env, w'));
     isAvailable := fun env =>
       let '(r, w') := isAvailable x (snd env) in (r, (fst env, w')) |}.

End SQLiteStore.

Definition strictlyEarlier (a b : EventRow.t) : Prop :=
  (EventRow.timestamp a < EventRow.timestamp b)%Z.

(** Events in the order of their timestamps. *)
Definition notAfter (a b : MemoryEvent.t) : Prop :=
  (MemoryEvent.timestamp a <= MemoryEvent.timestamp b)%Z.

(** The event as it was given to [logEvent], read back from the store. *)
Definition eventInput (e : MemoryEvent.t) : EventInput :=
  {| type := MemoryEvent.type e;
     taskId := MemoryEvent.taskId e;
     executorType := MemoryEvent.executorType e;
     payload := MemoryEvent.payload e |}.

Section BesideTheTable.

Context {W : Type}.

(** An executor that leaves the table as it is. *)
Definition keepsTable (x : Executor (Table * W)) : Prop :=
  (forall t env, fst (snd (execute x t env)) = fst env) /\
  (forall env, fst (snd (isAvailable x env)) = fst env).

(** A program whose store writes all go to [m] and whose executors leave
    the table as it is. *)
Inductive Tidy (m : MemoryStore (Table * W)) {A : Type} : Prog (Table * W) A -> Prop :=
| tidy_ret a : Tidy m (Ret a)
| tidy_raise err : Tidy m (Raise err)
| tidy_log ev k : (forall r, Tidy m (k r)) -> Tidy m (CallLogEvent m ev k)
| tidy_probe x k :
    keepsTable x -> (forall r, Tidy m (k r)) -> Tidy m (CallIsAvailable x k)
| tidy_exec x t k :
    keepsTable x -> (forall r, Tidy m (k r)) -> Tidy m (CallExecute x t k)
| tidy_sleep ms k : Tidy m k -> Tidy m (Sleep ms k)
| tidy_now k : (forall d, Tidy m (k d)) -> Tidy m (NewDate k)
| tidy_status s k : Tidy m k -> Tidy m (WriteStatus s k).

End BesideTheTable.

(* ================================================================== *)
(** ** More small worlds *)
(* ================================================================== *)

Module Demo.

Import Scenario.

(** UUIDs drawn from the world: the n-th one is "uuid-" followed by [n]
    strokes. *)
Fixpoint strokes (n : nat) : string :=
  match n with
  | O => EmptyString
  | S n' => String "|"%char (strokes n')
  end.

Definition crypto : Crypto World :=
  {| randomUUID := fun w => (String.append "uuid-" (strokes w), S w) |}.

(** A clock that moves by one millisecond at every reading. *)
Definition ticking : Host World :=
  {| newDate := fun w => (Z.of_nat w, S w);
     setTimeout := fun _ w => w |}.

(** No try allowed. *)
Definition noRetryDispatcher : Dispatcher World :=
  dispatcherWith [(sonnet, working sonnet)] store 0.

(** The store is down. *)
Definition unloggedDispatcher : Dispatcher World :=
  dispatcherWith [(sonnet, working sonnet)] brokenStore 1.

Definition secondTask : Task :=
  {| id := "task-2"; prompt := "Say goodbye"; systemPrompt := None;
     preferredExecutor := Some sonnet; fallbackExecutors := None;
     priority := normal; status := pending; parentId := None;
     metadata := None; createdAt := 0%Z; updatedAt := 0%Z |}.

Definition someParams : TaskParams.t :=
  {| TaskParams.prompt := "Write a script";
     TaskParams.systemPrompt := None;
     TaskParams.preferredExecutor := Some gemini;
     TaskParams.priority := None;
     TaskParams.parentId := None;
     TaskParams.metadata := None |}.

Definition noOptions : PartialConfig.t :=
  {| PartialConfig.openaiApiKey := None;
     PartialConfig.anthropicApiKey := None;
     PartialConfig.googleApiKey := None;
     PartialConfig.memoryPath := None;
     PartialConfig.logLevel := None;
     PartialConfig.planner := None |}.

Definition noEnvironment : ProcessEnv :=
  {| OPENAI_API_KEY := None; ANTHROPIC_API_KEY := None; GOOGLE_AI_API_KEY := None;
     ORPHEUS_MEMORY_PATH := None; ORPHEUS_LOG_LEVEL := None |}.

(** An orchestrator with the plain store and two executors. *)
Definition registrations : list (Registration World) :=
  [UseExecutor (failing sonnet); UseMemory store; UseExecutor (working codex)].

Definition readyOrpheus : Orpheus World :=
  fold_left register registrations (newOrpheus noOptions noEnvironment).

Definition readyDispatcher : Dispatcher World :=
  createDispatcher [(sonnet, failing sonnet); (codex, working codex)] store None None.

(** The SQLite store, in a world made of the table and a counter. *)
Definition databaseLocked : Thrown := ErrorObject "UNIQUE constraint failed: events.id".

Definition sqlite : MemoryStore (Table * World) :=
  SQLiteStore ticking crypto databaseLocked.

Definition sqliteDispatcher : Dispatcher (Table * World) :=
  createDispatcher
    [(sonnet, executorBesideTable (failing sonnet));
     (codex, executorBesideTable (working codex))]
    sqlite (Some 1) (Some 100%Z).

Definition oldRow : EventRow.t :=
  {| EventRow.id := "uuid-";
     EventRow.type := task_created;
     EventRow.timestamp := 5%Z;
     EventRow.task_id := Some "task-0";
     EventRow.executor_type := None;
     EventRow.payload := PStarted "older" |}.

Definition newRow : EventRow.t :=
  {| EventRow.id := "uuid-|";
     EventRow.type := task_started;
     EventRow.timestamp := 9%Z;
     EventRow.task_id := Some "task-1";
     EventRow.executor_type := None;
     EventRow.payload := PStarted "newer" |}.

End Demo.

(* ================================================================== *)
(** ** The model registry ([models.ts]) *)
(* ================================================================== *)

Inductive ModelProvider := openai | anthropic | google.

Inductive UseCase := flagship | fast | reasoning | execution.

(** [FRONTIER_MODELS[provider][useCase]], when the provider has that
    key. *)
Definition FRONTIER_MODELS (provider : ModelProvider) (useCase : UseCase) : option string :=
  match provider, useCase with
  | openai, flagship => Some "gpt-4o"
  | openai, reasoning => Some "o1"
  | anthropic, flagship => Some "claude-opus-4-5-20251101"
  | anthropic, execution => Some "claude-sonnet-4-5-20250929"
  | google, flagship => Some "gemini-2.5-pro-preview-06-05"
  | google, fast => Some "gemini-2.0-flash-exp"
  | _, _ => None
  end.

(** The [flagship] entry, which every provider has. *)
Definition flagshipOf (provider : ModelProvider) : string :=
  match provider with
  | openai => "gpt-4o"
  | anthropic => "claude-opus-4-5-20251101"
  | google => "gemini-2.5-pro-preview-06-05"
  end.

(** [getModel(provider, useCase = 'flagship')]. *)
Definition getModel (provider : ModelProvider) (useCase : option UseCase) : string :=
  let useCase_ := match useCase with Some u => u | None => flagship end in
  match FRONTIER_MODELS provider useCase_ with
  | Some m => m
  | None => flagshipOf provider
  end.

(* ================================================================== *)
(** ** The command line ([bin/orpheus]) *)
(* ================================================================== *)

Record CLIOptions := {
  json : bool;
  help : bool;
  verbose : bool
}.

(** [s.startsWith(p)] and [args.includes(a)]. *)
Definition startsWith (s p : string) : bool := String.prefix p s.

Definition hasArg (args : list string) (a : string) : bool :=
  existsb (String.eqb a) args.

Definition parseArgs (args : list string) : string * CLIOptions :=
  let options_ :=
    {| json := hasArg args "--json";
       help := hasArg args "--help" || hasArg args "-h";
       verbose := hasArg args "--verbose" || hasArg args "-v" |} in
  let prompt_ :=
    String.concat " "
      (filter (fun a => negb (startsWith a "--") && negb (startsWith a "-")) args) in
  (prompt_, options_).

Section CommandLine.

Context {Env : Type}.
Variable host : Host Env.

(** What the packages the command line imports give it: the store opened
    at a path, and the SDK client made for an API key and a model. *)
Variable createMemoryStore : string -> MemoryStore Env.
Variable client : ModelProvider -> string -> string -> Provider Env.

(** The executors [main] registers, one for each API key of the
    environment that is truthy, in the order Codex, Sonnet, Gemini. *)
Definition executorsFor (penv : ProcessEnv) : list (Executor Env) :=
  (match OPENAI_API_KEY penv with
   | Some key =>
       if truthy (Some key)
       then [CodexExecutor host (client openai key "gpt-4o")] else []
   | None => []
   end) ++
  (match ANTHROPIC_API_KEY penv with
   | Some key =>
       if truthy (Some key)
       then [SonnetExecutor host (client anthropic key "claude-sonnet-4-5-20250929")]
       else []
   | None => []
   end) ++
  (match GOOGLE_AI_API_KEY penv with
   | Some key =>
       if truthy (Some key)
       then [GeminiExecutor host (client google key "gemini-2.0-flash-exp")] else []
   | None => []
   end).

(** The [Orpheus] object [main] has built when it reaches
    [orpheus.execute]. *)
Definition cliOrpheus (options_ : CLIOptions) (penv : ProcessEnv) : Orpheus Env :=
  let memoryPath_ :=
    match ORPHEUS_MEMORY_PATH penv with
    | Some p => p
    | None => "./orpheus.db"
    end in
  let orpheus :=
    newOrpheus
      {| PartialConfig.openaiApiKey := None;
         PartialConfig.anthropicApiKey := None;
         PartialConfig.googleApiKey := None;
         PartialConfig.memoryPath := None;
         PartialConfig.logLevel := Some (if verbose options_ then debug else info);
         PartialConfig.planner := None |} penv in
  fold_left useExecutor (executorsFor penv)
    (useMemory orpheus (createMemoryStore memoryPath_)).

(** How far [main] gets: it leaves with an exit code before executing
    anything, or it calls [orpheus.execute(prompt)]. *)
Inductive Launch :=
| Leaves (exitCode : nat)
| Executes (orpheus : Orpheus Env) (prompt_ : string).

Definition launch (argv : list string) (penv : ProcessEnv) : Launch :=
  let '(prompt_, options_) := parseArgs (skipn 2 argv) in
  if help options_ || String.eqb prompt_ "" then
    Leaves (if help options_ then 0 else 1)
  else
    match executorsFor penv with
    | [] => Leaves 1
    | _ :: _ => Executes (cliOrpheus options_ penv) prompt_
    end.

End CommandLine.

Arguments Launch : clear implicits.

(** The API key that enables the executor of a type. *)
Definition apiKeyFor (penv : ProcessEnv) (ty : ExecutorType) : option string :=
  match ty with
  | codex => OPENAI_API_KEY penv
  | sonnet => ANTHROPIC_API_KEY penv
  | gemini => GOOGLE_AI_API_KEY penv
  end.

(* ================================================================== *)
(** * Properties *)
(* ================================================================== *)

Lemma ExecutorType_eqb_eq a b : ExecutorType_eqb a b = true <-> a = b.
Proof. destruct a, b; simpl; split; intro H; try reflexivity; discriminate. Qed.

Lemma ExecutorType_eqb_refl a : ExecutorType_eqb a a = true.
Proof. destruct a; reflexivity. Qed.

Lemma EventType_eqb_eq a b : EventType_eqb a b = true <-> a = b.
Proof. destruct a, b; simpl; split; intro H; try reflexivity; discriminate. Qed.

(** ** From runs to paths, and from paths to the shape of [dispatch] *)

Section PathLemmas.

Context {Env : Type}.
Variable host : Host Env.

Lemma run_path {A} (p : Prog Env A) : forall env o env' tr,
  run host p env = (o, env', tr) -> Path p o tr.
Proof.
  induction p as [a | err | m ev k IH | x k IH | x t k IH | ms k IH | k IH | st k IH];
    intros env o env' tr; simpl.
  - intros H. inversion H; subst. constructor.
  - intros H. inversion H; subst. constructor.
  - destruct (logEvent m ev env) as [r env1] eqn:Hc.
    destruct (run host (k r) env1) as [[o1 env2] tr1] eqn:Hr.
    intros H. inversion H; subst.
    constructor; [exists env, env1; exact Hc | eapply IH; exact Hr].
  - destruct (isAvailable x env) as [r env1] eqn:Hc.
    destruct (run host (k r) env1) as [[o1 env2] tr1] eqn:Hr.
    intros H. inversion H; subst.
    constructor; [exists env, env1; exact Hc | eapply IH; exact Hr].
  - destruct (execute x t env) as [r env1] eqn:Hc.
    destruct (run host (k r) env1) as [[o1 env2] tr1] eqn:Hr.
    intros H. inversion H; subst.
    constructor; [exists env, env1; exact Hc | eapply IH; exact Hr].
  - destruct (run host k (setTimeout host ms env)) as [[o1 env2] tr1] eqn:Hr.
    intros H. inversion H; subst.
    constructor. eapply IH; exact Hr.
  - destruct (newDate host env) as [now env1] eqn:Hc.
    destruct (run host (k now) env1) as [[o1 env2] tr1] eqn:Hr.
    intros H. inversion H; subst.
    constructor. eapply IH; exact Hr.
  - destruct (run host k env) as [[o1 env2] tr1] eqn:Hr.
    intros H. inversion H; subst.
    constructor. eapply IH; exact Hr.
Qed.

Lemma run_bind {A B} (p : Prog Env A) (f : A -> Prog Env B) env :
  run host (bind p f) env =
  match run host p env with
  | (Resolved a, env1, tr) =>
      let '(o, env2, tr') := run host (f a) env1 in (o, env2, tr ++ tr')
  | (Rejected err, env1, tr) => (Rejected err, env1, tr)
  end.
Proof.
  revert env.
  induction p as [a | err | m ev k IH | x k IH | x t k IH | ms k IH | k IH | st k IH];
    intros env; simpl.
  - destruct (run host (f a) env) as [[o env2] tr']. reflexivity.
  - reflexivity.
  - destruct (logEvent m ev env) as [r env1]. rewrite IH.
    destruct (run host (k r) env1) as [[[a | err] env2] tr]; simpl.
    + destruct (run host (f a) env2) as [[o env3] tr']. reflexivity.
    + reflexivity.
  - destruct (isAvailable x env) as [r env1]. rewrite IH.
    destruct (run host (k r) env1) as [[[a | err] env2] tr]; simpl.
    + destruct (run host (f a) env2) as [[o env3] tr']. reflexivity.
    + reflexivity.
  - destruct (execute x t env) as [r env1]. rewrite IH.
    destruct (run host (k r) env1) as [[[a | err] env2] tr]; simpl.
    + destruct (run host (f a) env2) as [[o env3] tr']. reflexivity.
    + reflexivity.
  - rewrite IH.
    destruct (run host k (setTimeout host ms env)) as [[[a | err] env2] tr]; simpl.
    + destruct (run host (f a) env2) as [[o env3] tr']. reflexivity.
    + reflexivity.
  - destruct (newDate host env) as [now env1]. rewrite IH.
    destruct (run host (k now) env1) as [[[a | err] env2] tr]; simpl.
    + destruct (run host (f a) env2) as [[o env3] tr']. reflexivity.
    + reflexivity.
  - rewrite IH.
    destruct (run host k env) as [[[a | err] env2] tr]; simpl.
    + destruct (run host (f a) env2) as [[o env3] tr']. reflexivity.
    + reflexivity.
Qed.

Lemma Path_ret_inv {A} (a : A) o tr :
  Path (Env := Env) (Ret a) o tr -> o = Resolved a /\ tr = [].
Proof. intros H. inversion H; subst. split; reflexivity. Qed.

Lemma Path_raise_inv {A} err (o : Settled A) tr :
  Path (Env := Env) (Raise err) o tr -> o = Rejected err /\ tr = [].
Proof. intros H. inversion H; subst. split; reflexivity. Qed.

Lemma Path_log_inv {A} m ev (k : Settled string -> Prog Env A) o tr :
  Path (CallLogEvent m ev k) o tr ->
  exists r tr', tr = ALog ev r :: tr' /\
    (exists env0 env1, logEvent m ev env0 = (r, env1)) /\ Path (k r) o tr'.
Proof. intros H. inversion H; subst. eauto. Qed.

Lemma Path_probe_inv {A} x (k : Settled bool -> Prog Env A) o tr :
  Path (CallIsAvailable x k) o tr ->
  exists r tr', tr = AProbe x r :: tr' /\
    (exists env0 env1, isAvailable x env0 = (r, env1)) /\ Path (k r) o tr'.
Proof. intros H. inversion H; subst. eauto. Qed.

Lemma Path_exec_inv {A} x t (k : Settled ExecutorResult -> Prog Env A) o tr :
  Path (CallExecute x t k) o tr ->
  exists r tr', tr = AExec x t r :: tr' /\
    (exists env0 env1, execute x t env0 = (r, env1)) /\ Path (k r) o tr'.
Proof. intros H. inversion H; subst. eauto. Qed.

Lemma Path_sleep_inv {A} ms (k : Prog Env A) o tr :
  Path (Sleep ms k) o tr -> exists tr', tr = ASleep ms :: tr' /\ Path k o tr'.
Proof. intros H. inversion H; subst. eauto. Qed.

Lemma Path_now_inv {A} (k : Z -> Prog Env A) o tr :
  Path (NewDate k) o tr ->
  exists now tr', tr = ANow now :: tr' /\ Path (k now) o tr'.
Proof. intros H. inversion H; subst. eauto. Qed.

Lemma Path_status_inv {A} st (k : Prog Env A) o tr :
  Path (WriteStatus st k) o tr -> exists tr', tr = AStatus st :: tr' /\ Path k o tr'.
Proof. intros H. inversion H; subst. eauto. Qed.

Lemma Path_bind_inv {A B} (p : Prog Env A) (f : A -> Prog Env B) : forall o tr,
  Path (bind p f) o tr ->
  (exists err, o = Rejected err /\ Path p (Rejected err) tr) \/
  (exists a tr1 tr2, tr = tr1 ++ tr2 /\ Path p (Resolved a) tr1 /\ Path (f a) o tr2).
Proof.
  induction p as [a | err | m ev k IH | x k IH | x t k IH | ms k IH | k IH | st k IH];
    intros o tr H; simpl in H.
  - right. exists a, [], tr. repeat split; [constructor | exact H].
  - apply Path_raise_inv in H. destruct H as [-> ->].
    left. exists err. split; [reflexivity | constructor].
  - apply Path_log_inv in H. destruct H as (r & tr' & -> & Hw & H).
    apply IH in H. destruct H as [(err & -> & H) | (a & tr1 & tr2 & -> & H1 & H2)].
    + left. exists err. split; [reflexivity | constructor; assumption].
    + right. exists a, (ALog ev r :: tr1), tr2.
      repeat split; [constructor; assumption | assumption].
  - apply Path_probe_inv in H. destruct H as (r & tr' & -> & Hw & H).
    apply IH in H. destruct H as [(err & -> & H) | (a & tr1 & tr2 & -> & H1 & H2)].
    + left. exists err. split; [reflexivity | constructor; assumption].
    + right. exists a, (AProbe x r :: tr1), tr2.
      repeat split; [constructor; assumption | assumption].
  - apply Path_exec_inv in H. destruct H as (r & tr' & -> & Hw & H).
    apply IH in H. destruct H as [(err & -> & H) | (a & tr1 & tr2 & -> & H1 & H2)].
    + left. exists err. split; [reflexivity | constructor; assumption].
    + right. exists a, (AExec x t r :: tr1), tr2.
      repeat split; [constructor; assumption | assumption].
  - apply Path_sleep_inv in H. destruct H as (tr' & -> & H).
    apply IH in H. destruct H as [(err & -> & H) | (a & tr1 & tr2 & -> & H1 & H2)].
    + left. exists err. split; [reflexivity | constructor; assumption].
    + right. exists a, (ASleep ms :: tr1), tr2.
      repeat split; [constructor; assumption | assumption].
  - apply Path_now_inv in H. destruct H as (now & tr' & -> & H).
    apply IH in H. destruct H as [(err & -> & H) | (a & tr1 & tr2 & -> & H1 & H2)].
    + left. exists err. split; [reflexivity | constructor; assumption].
    + right. exists a, (ANow now :: tr1), tr2.
      repeat split; [constructor; assumption | assumption].
  - apply Path_status_inv in H. destruct H as (tr' & -> & H).
    apply IH in H. destruct H as [(err & -> & H) | (a & tr1 & tr2 & -> & H1 & H2)].
    + left. exists err. split; [reflexivity | constructor; assumption].
    + right. exists a, (AStatus st :: tr1), tr2.
      repeat split; [constructor; assumption | assumption].
Qed.

Variable d : Dispatcher Env.

Lemma tryOnce_sound ty x attempt s o tr :
  Path (tryOnce d ty x attempt s) o tr -> TryRun d ty x attempt s o tr.
Proof.
  unfold tryOnce. intros H.
  apply Path_log_inv in H. destruct H as ([i | err] & tr0 & -> & Hcall & H).
  2:{ apply Path_raise_inv in H. destruct H as [-> ->]. constructor. exact Hcall. }
  apply Path_exec_inv in H. destruct H as ([res | err] & tr1 & -> & Hexec & H).
  2:{ apply Path_ret_inv in H. destruct H as [-> ->]. constructor. exact Hexec. }
  apply Path_log_inv in H. destruct H as ([i' | err] & tr2 & -> & Hresp & H).
  2:{ apply Path_ret_inv in H. destruct H as [-> ->]. constructor; assumption. }
  destruct (success res) eqn:Hok.
  2:{ apply Path_ret_inv in H. destruct H as [-> ->]. constructor; assumption. }
  apply Path_status_inv in H. destruct H as (tr3' & -> & H).
  apply Path_now_inv in H. destruct H as (now & tr3 & -> & H).
  apply Path_log_inv in H. destruct H as ([i'' | err] & tr4 & -> & Hdone & H);
    apply Path_ret_inv in H; destruct H as [-> ->]; constructor; assumption.
Qed.

Lemma attemptLoop_sound ty x remaining : forall attempt s o tr,
  Path (attemptLoop d ty x remaining attempt s) o tr ->
  AttemptsRun d ty x remaining attempt s o tr.
Proof.
  induction remaining as [| remaining IH]; intros attempt s o tr H.
  - simpl in H. apply Path_ret_inv in H. destruct H as [-> ->]. constructor.
  - cbn [attemptLoop] in H. apply Path_bind_inv in H.
    destruct H as [(err & -> & H) | (f & tr1 & tr2 & -> & H1 & H2)].
    + constructor. apply tryOnce_sound. exact H.
    + apply tryOnce_sound in H1. destruct f as [r | s'].
      * apply Path_ret_inv in H2. destruct H2 as [-> ->]. rewrite app_nil_r.
        constructor. exact H1.
      * pose proof (fun o' tr' => @attempts_again _ d ty x remaining attempt s s' tr1 o' tr' H1)
          as Hagain.
        unfold pause in Hagain.
        destruct (attempt <? retryAttempts (options d)).
        -- apply Path_sleep_inv in H2. destruct H2 as (tr' & -> & H2).
           apply IH in H2. apply (Hagain _ _ H2).
        -- apply IH in H2. apply (Hagain _ _ H2).
Qed.

Lemma executorLoop_sound order : forall s o tr,
  Path (executorLoop d order s) o tr -> OrderRun d order s o tr.
Proof.
  induction order as [| ty rest IH]; intros s o tr H.
  - simpl in H. apply Path_ret_inv in H. destruct H as [-> ->]. constructor.
  - cbn [executorLoop] in H.
    destruct (get (executors d) ty) as [x |] eqn:Hget.
    2:{ apply order_unregistered; [exact Hget | apply IH; exact H]. }
    apply Path_probe_inv in H. destruct H as (r & tr0 & -> & Hprobe & H).
    destruct r as [[|] | err]; cbn [negb] in H.
    + apply Path_bind_inv in H.
      destruct H as [(err & -> & H) | (f & tr1 & tr2 & -> & H1 & H2)].
      * apply order_raise; [exact Hget | apply attemptLoop_sound; exact H].
      * apply attemptLoop_sound in H1. destruct f as [r | s'].
        -- apply Path_ret_inv in H2. destruct H2 as [-> ->]. rewrite app_nil_r.
           apply order_exit; assumption.
        -- eapply order_next; [exact Hget | exact H1 | apply IH; exact H2].
    + apply order_unavailable; [exact Hget | discriminate | apply IH; exact H].
    + apply order_unavailable; [exact Hget | discriminate | apply IH; exact H].
Qed.

Lemma dispatch_sound t o tr :
  Path (dispatch d t) o tr -> DispatchRun d t o tr.
Proof.
  unfold dispatch. intros H.
  apply Path_status_inv in H. destruct H as (tr0' & -> & H).
  apply Path_now_inv in H. destruct H as (now & tr0 & -> & H).
  fold (started now t) in H. fold (entry now t) in H.
  apply Path_log_inv in H. destruct H as ([i | err] & tr1 & -> & Hlog & H).
  2:{ apply Path_raise_inv in H. destruct H as [-> ->].
      refine (@dispatch_not_started _ d t now err _). exact Hlog. }
  apply Path_bind_inv in H.
  destruct H as [(err & -> & H) | (f & tr2 & tr3 & -> & H1 & H2)].
  - refine (@dispatch_raise _ d t now i err tr1 _). apply executorLoop_sound. exact H.
  - apply executorLoop_sound in H1. destruct f as [r | s].
    + apply Path_ret_inv in H2. destruct H2 as [-> ->]. rewrite app_nil_r.
      refine (@dispatch_completed _ d t now i r tr2 _). exact H1.
    + unfold allFailed in H2.
      apply Path_status_inv in H2. destruct H2 as (tr4' & -> & H2).
      apply Path_now_inv in H2. destruct H2 as (now' & tr4 & -> & H2).
      fold (given_up now' s) in H2. fold (failedEventOf now' s) in H2.
      apply Path_log_inv in H2. destruct H2 as ([i' | err] & tr5 & -> & Hlog' & H2).
      * apply Path_ret_inv in H2. destruct H2 as [-> ->].
        refine (@dispatch_failed _ d t now i s tr2 now' i' _). exact H1.
      * apply Path_raise_inv in H2. destruct H2 as [-> ->].
        refine (@dispatch_unrecorded _ d t now i s tr2 now' err _ _); assumption.
Qed.

Lemma dispatch_run_sound t env o env' tr :
  run host (dispatch d t) env = (o, env', tr) -> DispatchRun d t o tr.
Proof. intros H. apply dispatch_sound. eapply run_path. exact H. Qed.

End PathLemmas.

(** ** Reading traces piecewise *)

Section TraceLemmas.

Context {Env : Type}.
Implicit Types tr : list (Action Env).

Lemma loggedEvents_app tr tr' :
  loggedEvents (tr ++ tr') = loggedEvents tr ++ loggedEvents tr'.
Proof.
  induction tr as [| a tr IH]; simpl; [reflexivity |].
  destruct a as [ev [i | err] | | | | |]; simpl; rewrite IH; reflexivity.
Qed.

Lemma offeredEvents_app tr tr' :
  offeredEvents (tr ++ tr') = offeredEvents tr ++ offeredEvents tr'.
Proof.
  induction tr as [| a tr IH]; simpl; [reflexivity |].
  destruct a; simpl; rewrite IH; reflexivity.
Qed.

Lemma execCalls_app tr tr' : execCalls (tr ++ tr') = execCalls tr + execCalls tr'.
Proof.
  induction tr as [| a tr IH]; simpl; [reflexivity |].
  destruct a; simpl; rewrite IH; reflexivity.
Qed.

Lemma availableProbes_app tr tr' :
  availableProbes (tr ++ tr') = availableProbes tr + availableProbes tr'.
Proof.
  induction tr as [| a tr IH]; simpl; [reflexivity |].
  destruct a as [| x [[|] | err] | | | |]; simpl; rewrite IH; reflexivity.
Qed.

Lemma lastObservedError_app tr tr' : forall seen,
  lastObservedError seen (tr ++ tr') =
  lastObservedError (lastObservedError seen tr) tr'.
Proof.
  induction tr as [| a tr IH]; intros seen; simpl; [reflexivity |].
  destruct a as [ev [i | err] | | x t [r | err] | | |]; simpl; apply IH.
Qed.

Lemma allSettled_app tr tr' :
  allSettled (tr ++ tr') = allSettled tr && allSettled tr'.
Proof.
  induction tr as [| a tr IH]; simpl; [reflexivity |].
  destruct a as [ev [i | err] | | x t [r | err] | | |]; simpl; auto.
Qed.

Lemma allLogged_app tr tr' :
  allLogged (tr ++ tr') = allLogged tr && allLogged tr'.
Proof.
  induction tr as [| a tr IH]; simpl; [reflexivity |].
  destruct a as [ev [i | err] | | | | |]; simpl; auto.
Qed.

Lemma allSettled_allLogged tr : allSettled tr = true -> allLogged tr = true.
Proof.
  induction tr as [| a tr IH]; simpl; [reflexivity |].
  destruct a as [ev [i | err] | | x t [r | err] | | |]; simpl; auto; discriminate.
Qed.

Lemma lastCall_app (evs evs' : list EventInput) : forall seen,
  lastCall seen (evs ++ evs') = lastCall (lastCall seen evs) evs'.
Proof.
  induction evs as [| ev evs IH]; intros seen; simpl; [reflexivity |].
  destruct (type ev), (payload ev); apply IH.
Qed.

Lemma lastCall_seen (evs : list EventInput) : forall seen,
  lastCall seen evs =
  match lastCall None evs with
  | Some c => Some c
  | None => seen
  end.
Proof.
  induction evs as [| ev evs IH]; intros seen; simpl; [reflexivity |].
  destruct (type ev), (payload ev); try apply IH.
  rewrite IH. destruct (lastCall None evs); reflexivity.
Qed.

Lemma lastCall_found (evs : list EventInput) seen c :
  lastCall None evs = Some c -> lastCall seen evs = Some c.
Proof. intros H. rewrite lastCall_seen, H. reflexivity. Qed.

Lemma In_loggedEvents ev tr :
  In ev (loggedEvents tr) -> exists i, In (ALog ev (Resolved i)) tr.
Proof.
  induction tr as [| a tr IH]; simpl; [intros [] |].
  destruct a as [ev' [i | err] | | | | |]; simpl.
  - intros [-> | H]; [exists i; left; reflexivity |].
    destruct (IH H) as [j Hj]. exists j. right. exact Hj.
  - intros H. destruct (IH H) as [j Hj]. exists j. right. exact Hj.
  - intros H. destruct (IH H) as [j Hj]. exists j. right. exact Hj.
  - intros H. destruct (IH H) as [j Hj]. exists j. right. exact Hj.
  - intros H. destruct (IH H) as [j Hj]. exists j. right. exact Hj.
  - intros H. destruct (IH H) as [j Hj]. exists j. right. exact Hj.
  - intros H. destruct (IH H) as [j Hj]. exists j. right. exact Hj.
Qed.

Variable d : Dispatcher Env.

Lemma loggedEvents_pause n : loggedEvents (pause d n) = [].
Proof. unfold pause. destruct (n <? _); reflexivity. Qed.

Lemma execCalls_pause n : execCalls (pause d n) = 0.
Proof. unfold pause. destruct (n <? _); reflexivity. Qed.

Lemma availableProbes_pause n : availableProbes (pause d n) = 0.
Proof. unfold pause. destruct (n <? _); reflexivity. Qed.

Lemma lastObservedError_pause n seen : lastObservedError seen (pause d n) = seen.
Proof. unfold pause. destruct (n <? _); reflexivity. Qed.

Lemma allSettled_pause n : allSettled (pause d n) = true.
Proof. unfold pause. destruct (n <? _); reflexivity. Qed.

Lemma allLogged_pause n : allLogged (pause d n) = true.
Proof. unfold pause. destruct (n <? _); reflexivity. Qed.

Lemma In_pause a n : In a (pause d n) -> exists ms, a = ASleep ms.
Proof.
  unfold pause. destruct (n <? _); simpl; [| intros []].
  intros [<- | []]. eexists. reflexivity.
Qed.

End TraceLemmas.

(** ** Counting tries *)

Section Counting.

Context {Env : Type}.
Variable d : Dispatcher Env.

Lemma try_count ty x attempt s o tr :
  TryRun d ty x attempt s o tr ->
  availableProbes tr = 0 /\
  match o with
  | Resolved (Continue s') =>
      attemptsSoFar s' = S (attemptsSoFar s) /\ execCalls tr = 1
  | Resolved (Exit r) =>
      attempts r = S (attemptsSoFar s) /\ execCalls tr = 1 /\
      success (result r) = true /\
      lastCall None (loggedEvents tr) = Some (Some ty, attempt) /\
      maySettle x (theTask s) (Resolved (result r))
  | Rejected _ => True
  end.
Proof.
  intros H. destruct H; simpl; repeat split; auto.
Qed.

Lemma attempts_count ty x remaining attempt s o tr :
  AttemptsRun d ty x remaining attempt s o tr ->
  availableProbes tr = 0 /\
  match o with
  | Resolved (Continue s') =>
      attemptsSoFar s' = attemptsSoFar s + remaining /\ execCalls tr = remaining
  | Resolved (Exit r) =>
      exists j, attempt <= j < attempt + remaining /\
        lastCall None (loggedEvents tr) = Some (Some ty, j) /\
        attempts r = attemptsSoFar s + (S j - attempt) /\
        execCalls tr = S j - attempt /\
        success (result r) = true /\
        exists t, maySettle x t (Resolved (result r))
  | Rejected _ => True
  end.
Proof.
  intros H.
  induction H as [attempt s | remaining attempt s err tr Htry
                  | remaining attempt s r tr Htry
                  | remaining attempt s s' tr o tr' Htry Hrest IH].
  - simpl. repeat split; lia.
  - apply try_count in Htry. destruct Htry as [Hp _]. split; [exact Hp | exact I].
  - apply try_count in Htry. destruct Htry as (Hp & Ha & He & Hs & Hl & Hm).
    split; [exact Hp |]. exists attempt.
    split; [lia |]. split; [exact Hl |]. split; [lia |]. split; [lia |].
    split; [exact Hs |]. exists (theTask s). exact Hm.
  - apply try_count in Htry. destruct Htry as (Hp & Ha & He).
    destruct IH as [Hp' IH].
    split.
    { rewrite !availableProbes_app, availableProbes_pause. lia. }
    destruct o as [[r | s''] | err]; [| | exact I].
    + destruct IH as (j & Hj & Hl & Hat & Hex & Hs & Hm).
      exists j. repeat split; try lia; try assumption.
      * rewrite !loggedEvents_app, loggedEvents_pause. simpl.
        rewrite lastCall_app. apply lastCall_found. exact Hl.
      * rewrite !execCalls_app, execCalls_pause. lia.
    + destruct IH as [Hat Hex]. split; [lia |].
      rewrite !execCalls_app, execCalls_pause. lia.
Qed.

Lemma order_count order s o tr :
  OrderRun d order s o tr ->
  match o with
  | Resolved (Continue s') =>
      attemptsSoFar s' =
        attemptsSoFar s + retryAttempts (options d) * availableProbes tr /\
      execCalls tr = retryAttempts (options d) * availableProbes tr
  | Resolved (Exit r) =>
      exists ty x j t,
        get (executors d) ty = Some x /\
        1 <= j <= retryAttempts (options d) /\
        lastCall None (loggedEvents tr) = Some (Some ty, j) /\
        1 <= availableProbes tr /\
        attempts r =
          attemptsSoFar s + retryAttempts (options d) * (availableProbes tr - 1) + j /\
        execCalls tr = retryAttempts (options d) * (availableProbes tr - 1) + j /\
        success (result r) = true /\
        maySettle x t (Resolved (result r))
  | Rejected _ => True
  end.
Proof.
  intros H.
  induction H as [s | ty rest s o tr Hget Hrest IH
                  | ty rest x r s o tr Hget Hr Hrest IH
                  | ty rest x s err tr Hget Hatt
                  | ty rest x s r tr Hget Hatt
                  | ty rest x s s' tr o tr' Hget Hatt Hrest IH].
  - simpl. split; lia.
  - exact IH.
  - assert (Hap : availableProbes (AProbe x r :: tr) = availableProbes tr).
    { destruct r as [[|] | err]; [contradiction Hr; reflexivity | |]; reflexivity. }
    assert (Hex : execCalls (AProbe x r :: tr) = execCalls tr) by reflexivity.
    assert (Hlg : loggedEvents (AProbe x r :: tr) = loggedEvents tr) by reflexivity.
    rewrite Hap, Hex, Hlg. exact IH.
  - exact I.
  - apply attempts_count in Hatt. destruct Hatt as (Hp & j & Hj & Hl & Hat & Hex & Hs & t & Hm).
    exists ty, x, j, t. simpl. rewrite Hp.
    repeat split; try assumption; try lia.
  - apply attempts_count in Hatt. destruct Hatt as (Hp & Hat & Hex).
    destruct o as [[r | s''] | err]; [| | exact I].
    + destruct IH as (ty' & x' & j & t & Hg & Hj & Hl & Hav & Hat' & Hex' & Hs & Hm).
      exists ty', x', j, t. simpl.
      rewrite availableProbes_app, execCalls_app, loggedEvents_app, Hp.
      repeat split; try assumption; try lia.
      * rewrite lastCall_app. apply lastCall_found. exact Hl.
      * rewrite Hat', Hat. simpl.
        destruct (availableProbes tr') as [| n]; [lia |].
        replace (S n - 1) with n by lia. replace (S n - 0) with (S n) by lia.
        rewrite Nat.mul_succ_r. lia.
      * rewrite Hex', Hex. simpl.
        destruct (availableProbes tr') as [| n]; [lia |].
        replace (S n - 1) with n by lia. replace (S n - 0) with (S n) by lia.
        rewrite Nat.mul_succ_r. lia.
    + destruct IH as [Hat' Hex']. simpl.
      rewrite availableProbes_app, execCalls_app, Hp. simpl.
      split; lia.
Qed.

End Counting.

(** ** Availability read as a property of the back ends *)

Section Availability.

Context {Env : Type}.
Variable d : Dispatcher Env.

Lemma probesAnswer_tail avail a (tr : list (Action Env)) :
  probesAnswer d avail (a :: tr) -> probesAnswer d avail tr.
Proof. intros H ty x r Hg Hin. apply (H ty x r Hg). right. exact Hin. Qed.

Lemma probesAnswer_app_r avail (tr tr' : list (Action Env)) :
  probesAnswer d avail (tr ++ tr') -> probesAnswer d avail tr'.
Proof.
  intros H ty x r Hg Hin. apply (H ty x r Hg). apply in_or_app. right. exact Hin.
Qed.

Lemma usable_unregistered avail ty :
  get (executors d) ty = None -> usable d avail ty = false.
Proof. unfold usable. intros ->. reflexivity. Qed.

Lemma usable_registered avail ty x :
  get (executors d) ty = Some x -> usable d avail ty = avail ty.
Proof. unfold usable. intros ->. reflexivity. Qed.

Lemma order_available order s o tr :
  OrderRun d order s o tr ->
  match o with
  | Resolved (Continue _) =>
      forall avail, probesAnswer d avail tr ->
      availableProbes tr = List.length (filter (usable d avail) order)
  | Resolved (Exit _) =>
      exists pre ty post j,
        order = pre ++ ty :: post /\
        lastCall None (loggedEvents tr) = Some (Some ty, j) /\
        forall avail, probesAnswer d avail tr ->
          usable d avail ty = true /\
          availableProbes tr = S (List.length (filter (usable d avail) pre))
  | Rejected _ => True
  end.
Proof.
  intros H.
  induction H as [s | ty rest s o tr Hget Hrest IH
                  | ty rest x r s o tr Hget Hr Hrest IH
                  | ty rest x s err tr Hget Hatt
                  | ty rest x s r tr Hget Hatt
                  | ty rest x s s' tr o tr' Hget Hatt Hrest IH].
  - intros avail _. reflexivity.
  - destruct o as [[r | s'] | err]; [| | exact I].
    + destruct IH as (pre & ty' & post & j & -> & Hl & Hn).
      exists (ty :: pre), ty', post, j.
      split; [reflexivity |]. split; [exact Hl |].
      intros avail Hav. simpl.
      rewrite (usable_unregistered avail ty Hget). apply Hn. exact Hav.
    + intros avail Hav. simpl.
      rewrite (usable_unregistered avail ty Hget). apply IH. exact Hav.
  - assert (Hno : forall avail, probesAnswer d avail (AProbe x r :: tr) ->
                    usable d avail ty = false).
    { intros avail Hav. rewrite (usable_registered avail ty Hget).
      destruct (avail ty) eqn:Ha; [| reflexivity].
      exfalso. apply Hr. apply (Hav ty x r Hget); [left; reflexivity | exact Ha]. }
    assert (Hap : availableProbes (AProbe x r :: tr) = availableProbes tr).
    { destruct r as [[|] | err]; [contradiction Hr; reflexivity | |]; reflexivity. }
    destruct o as [[r' | s'] | err]; [| | exact I].
    + destruct IH as (pre & ty' & post & j & -> & Hl & Hn).
      exists (ty :: pre), ty', post, j.
      split; [reflexivity |]. split; [exact Hl |].
      intros avail Hav. rewrite Hap. cbn [filter app]. rewrite (Hno avail Hav).
      apply Hn. apply (probesAnswer_tail Hav).
    + intros avail Hav. rewrite Hap. cbn [filter]. rewrite (Hno avail Hav).
      apply IH. apply (probesAnswer_tail Hav).
  - exact I.
  - apply attempts_count in Hatt. destruct Hatt as (Hp & j & Hj & Hl & _).
    exists [], ty, rest, j.
    split; [reflexivity |]. split; [exact Hl |].
    intros avail Hav. simpl. rewrite Hp. split; [| reflexivity].
    rewrite (usable_registered avail ty Hget).
    apply (Hav ty x (Resolved true) Hget); [left; reflexivity | reflexivity].
  - assert (Hyes : forall avail,
              probesAnswer d avail (AProbe x (Resolved true) :: tr ++ tr') ->
              usable d avail ty = true).
    { intros avail Hav. rewrite (usable_registered avail ty Hget).
      apply (Hav ty x (Resolved true) Hget); [left; reflexivity | reflexivity]. }
    assert (Hav' : forall avail,
              probesAnswer d avail (AProbe x (Resolved true) :: tr ++ tr') ->
              probesAnswer d avail tr').
    { intros avail Hav. apply probesAnswer_app_r with (tr := tr).
      apply (probesAnswer_tail Hav). }
    apply attempts_count in Hatt. destruct Hatt as (Hp & _).
    destruct o as [[r' | s''] | err]; [| | exact I].
    + destruct IH as (pre & ty' & post & j & -> & Hl & Hn).
      exists (ty :: pre), ty', post, j.
      split; [reflexivity |]. split.
      * simpl. rewrite loggedEvents_app, lastCall_app. apply lastCall_found. exact Hl.
      * intros avail Hav. destruct (Hn avail (Hav' avail Hav)) as [Hu Hcount].
        split; [exact Hu |].
        simpl. rewrite (Hyes avail Hav). simpl.
        rewrite availableProbes_app, Hp, Hcount. reflexivity.
    + intros avail Hav. simpl. rewrite (Hyes avail Hav). simpl.
      rewrite availableProbes_app, Hp, (IH avail (Hav' avail Hav)). reflexivity.
Qed.

End Availability.

(** ** The task object: what [dispatch] writes *)

Section TaskFrame.

Context {Env : Type}.
Variable d : Dispatcher Env.

Lemma frame_refl t : frame t t.
Proof. unfold frame. repeat split; reflexivity. Qed.

Lemma frame_trans t1 t2 t3 : frame t1 t2 -> frame t2 t3 -> frame t1 t3.
Proof. unfold frame. intuition congruence. Qed.

Lemma frame_setStatus st t : frame t (setStatus st t).
Proof. unfold frame. repeat split; reflexivity. Qed.

Lemma frame_setUpdatedAt now t : frame t (setUpdatedAt now t).
Proof. unfold frame. repeat split; reflexivity. Qed.

Lemma frame_written now st t : frame t (setUpdatedAt now (setStatus st t)).
Proof. unfold frame. repeat split; reflexivity. Qed.

Lemma getExecutorOrder_frame t t' :
  frame t t' -> getExecutorOrder d t' = getExecutorOrder d t.
Proof.
  unfold frame, getExecutorOrder. intros (_ & _ & _ & Hp & Hf & _).
  rewrite Hp, Hf. reflexivity.
Qed.

Lemma try_exec ty x attempt s o tr :
  TryRun d ty x attempt s o tr ->
  forall y t r, In (AExec y t r) tr -> y = x /\ t = theTask s.
Proof.
  intros H y t r Hy.
  destruct H; simpl in Hy;
    repeat (destruct Hy as [Hy | Hy];
            [try discriminate Hy; inversion Hy; subst; split; reflexivity |]);
    contradiction.
Qed.

Lemma try_task t0 ty x attempt s o tr :
  TryRun d ty x attempt s o tr ->
  inFlight t0 (theTask s) ->
  (forall y t r, In (AExec y t r) tr -> inFlight t0 t) /\
  match o with
  | Resolved (Continue s') => inFlight t0 (theTask s')
  | Resolved (Exit r) =>
      frame t0 (task r) /\ status (task r) = completed /\ success (result r) = true
  | Rejected _ => True
  end.
Proof.
  intros H Hin. split.
  - intros y t r Hy. destruct (try_exec H _ _ _ Hy) as [_ ->]. exact Hin.
  - assert (Hdone : forall now,
      frame t0 (setUpdatedAt now (setStatus completed (theTask s)))).
    { intros now. destruct Hin as [Hf _].
      eapply frame_trans; [exact Hf | apply frame_written]. }
    destruct H; simpl; try exact I; try exact Hin.
    + split; [apply Hdone | right; reflexivity].
    + split; [apply Hdone |]. split; [reflexivity | assumption].
Qed.

Lemma attempts_task t0 ty x remaining attempt s o tr :
  AttemptsRun d ty x remaining attempt s o tr ->
  inFlight t0 (theTask s) ->
  (forall y t r, In (AExec y t r) tr -> inFlight t0 t) /\
  match o with
  | Resolved (Continue s') => inFlight t0 (theTask s')
  | Resolved (Exit r) =>
      frame t0 (task r) /\ status (task r) = completed /\ success (result r) = true
  | Rejected _ => True
  end.
Proof.
  intros H.
  induction H as [attempt s | remaining attempt s err tr Htry
                  | remaining attempt s r tr Htry
                  | remaining attempt s s' tr o tr' Htry Hrest IH]; intros Hin.
  - split; [intros y t r [] | exact Hin].
  - apply (try_task Htry Hin).
  - apply (try_task Htry Hin).
  - destruct (try_task Htry Hin) as [Hex Hin'].
    destruct (IH Hin') as [Hex' Ho].
    split; [| exact Ho].
    intros y t r Hy. apply in_app_or in Hy. destruct Hy as [Hy | Hy].
    + eapply Hex; exact Hy.
    + apply in_app_or in Hy. destruct Hy as [Hy | Hy].
      * apply In_pause in Hy. destruct Hy as [ms Hy]. discriminate Hy.
      * eapply Hex'; exact Hy.
Qed.

Lemma order_task t0 order s o tr :
  OrderRun d order s o tr ->
  inFlight t0 (theTask s) ->
  (forall y t r, In (AExec y t r) tr -> inFlight t0 t) /\
  match o with
  | Resolved (Continue s') => inFlight t0 (theTask s')
  | Resolved (Exit r) =>
      frame t0 (task r) /\ status (task r) = completed /\ success (result r) = true
  | Rejected _ => True
  end.
Proof.
  intros H.
  induction H as [s | ty rest s o tr Hget Hrest IH
                  | ty rest x r s o tr Hget Hr Hrest IH
                  | ty rest x s err tr Hget Hatt
                  | ty rest x s r tr Hget Hatt
                  | ty rest x s s' tr o tr' Hget Hatt Hrest IH]; intros Hin.
  - split; [intros y t r [] | exact Hin].
  - apply IH. exact Hin.
  - destruct (IH Hin) as [Hex Ho]. split; [| exact Ho].
    intros y t r' [Hy | Hy]; [discriminate Hy | eapply Hex; exact Hy].
  - destruct (attempts_task Hatt Hin) as [Hex _]. split; [| exact I].
    intros y t r' [Hy | Hy]; [discriminate Hy | eapply Hex; exact Hy].
  - destruct (attempts_task Hatt Hin) as [Hex Ho]. split; [| exact Ho].
    intros y t r' [Hy | Hy]; [discriminate Hy | eapply Hex; exact Hy].
  - destruct (attempts_task Hatt Hin) as [Hex Hin'].
    destruct (IH Hin') as [Hex' Ho]. split; [| exact Ho].
    intros y t r' [Hy | Hy]; [discriminate Hy |].
    apply in_app_or in Hy. destruct Hy as [Hy | Hy]; [eapply Hex | eapply Hex']; exact Hy.
Qed.

End TaskFrame.

(** ** The task under a store that takes every write *)

Section Quiet.

Context {Env : Type}.
Variable d : Dispatcher Env.

Lemma try_quiet ty x attempt s o tr :
  TryRun d ty x attempt s o tr ->
  allLogged tr = true ->
  match o with
  | Resolved (Continue s') => theTask s' = theTask s
  | _ => True
  end.
Proof. intros H Hq. destruct H; simpl in *; try exact I; try reflexivity; discriminate. Qed.

Lemma attempts_quiet ty x remaining attempt s o tr :
  AttemptsRun d ty x remaining attempt s o tr ->
  allLogged tr = true ->
  (forall y t r, In (AExec y t r) tr -> t = theTask s) /\
  match o with
  | Resolved (Continue s') => theTask s' = theTask s
  | _ => True
  end.
Proof.
  intros H.
  induction H as [attempt s | remaining attempt s err tr Htry
                  | remaining attempt s r tr Htry
                  | remaining attempt s s' tr o tr' Htry Hrest IH]; intros Hq.
  - split; [intros y t r' [] | reflexivity].
  - split; [| exact I]. intros y t r' Hy. apply (try_exec Htry _ _ _ Hy).
  - split; [| exact I]. intros y t r' Hy. apply (try_exec Htry _ _ _ Hy).
  - rewrite !allLogged_app in Hq.
    apply andb_true_iff in Hq. destruct Hq as [Hq1 Hq2].
    apply andb_true_iff in Hq2. destruct Hq2 as [_ Hq2].
    pose proof (try_quiet Htry Hq1) as Hs. simpl in Hs.
    destruct (IH Hq2) as [Hex Ho]. rewrite Hs in Hex, Ho. split.
    + intros y t r' Hy. apply in_app_or in Hy. destruct Hy as [Hy | Hy].
      * apply (try_exec Htry _ _ _ Hy).
      * apply in_app_or in Hy. destruct Hy as [Hy | Hy].
        -- apply In_pause in Hy. destruct Hy as [ms Hy]. discriminate Hy.
        -- eapply Hex; exact Hy.
    + exact Ho.
Qed.

Lemma order_quiet order s o tr :
  OrderRun d order s o tr ->
  allLogged tr = true ->
  (forall y t r, In (AExec y t r) tr -> t = theTask s) /\
  match o with
  | Resolved (Continue s') => theTask s' = theTask s
  | _ => True
  end.
Proof.
  intros H.
  induction H as [s | ty rest s o tr Hget Hrest IH
                  | ty rest x r s o tr Hget Hr Hrest IH
                  | ty rest x s err tr Hget Hatt
                  | ty rest x s r tr Hget Hatt
                  | ty rest x s s' tr o tr' Hget Hatt Hrest IH]; intros Hq.
  - split; [intros y t r' [] | reflexivity].
  - apply IH. exact Hq.
  - destruct (IH Hq) as [Hex Ho]. split; [| exact Ho].
    intros y t r' [Hy | Hy]; [discriminate Hy | eapply Hex; exact Hy].
  - destruct (attempts_quiet Hatt Hq) as [Hex _]. split; [| exact I].
    intros y t r' [Hy | Hy]; [discriminate Hy | eapply Hex; exact Hy].
  - destruct (attempts_quiet Hatt Hq) as [Hex _]. split; [| exact I].
    intros y t r' [Hy | Hy]; [discriminate Hy | eapply Hex; exact Hy].
  - simpl in Hq. rewrite allLogged_app in Hq.
    apply andb_true_iff in Hq. destruct Hq as [Hq1 Hq2].
    destruct (attempts_quiet Hatt Hq1) as [Hex Hs]. simpl in Hs.
    destruct (IH Hq2) as [Hex' Ho]. rewrite Hs in Hex', Ho. split; [| exact Ho].
    intros y t r' [Hy | Hy]; [discriminate Hy |].
    apply in_app_or in Hy. destruct Hy as [Hy | Hy]; [eapply Hex | eapply Hex']; exact Hy.
Qed.

End Quiet.

(** ** The error that is reported *)

Section LastError.

Context {Env : Type}.
Variable d : Dispatcher Env.

Lemma try_error ty x attempt s o tr :
  TryRun d ty x attempt s o tr ->
  match o with
  | Resolved (Continue s') => forall seen, lastError s' = lastObservedError seen tr
  | _ => True
  end.
Proof. intros H. destruct H; simpl; try exact I; intros seen; reflexivity. Qed.

Lemma attempts_error ty x remaining attempt s o tr :
  AttemptsRun d ty x remaining attempt s o tr ->
  match o with
  | Resolved (Continue s') => lastError s' = lastObservedError (lastError s) tr
  | _ => True
  end.
Proof.
  intros H.
  induction H as [attempt s | remaining attempt s err tr Htry
                  | remaining attempt s r tr Htry
                  | remaining attempt s s' tr o tr' Htry Hrest IH].
  - reflexivity.
  - exact I.
  - exact I.
  - apply try_error in Htry. simpl in Htry.
    destruct o as [[r | s''] | err]; try exact I.
    rewrite IH, !lastObservedError_app, lastObservedError_pause.
    rewrite (Htry (lastError s)). reflexivity.
Qed.

Lemma order_error order s o tr :
  OrderRun d order s o tr ->
  match o with
  | Resolved (Continue s') => lastError s' = lastObservedError (lastError s) tr
  | _ => True
  end.
Proof.
  intros H.
  induction H as [s | ty rest s o tr Hget Hrest IH
                  | ty rest x r s o tr Hget Hr Hrest IH
                  | ty rest x s err tr Hget Hatt
                  | ty rest x s r tr Hget Hatt
                  | ty rest x s s' tr o tr' Hget Hatt Hrest IH].
  - reflexivity.
  - exact IH.
  - exact IH.
  - exact I.
  - exact I.
  - apply attempts_error in Hatt. simpl in Hatt.
    destruct o as [[r | s''] | err]; try exact I.
    simpl. rewrite lastObservedError_app, <- Hatt. exact IH.
Qed.

End LastError.

(** ** What can make [dispatch] throw *)

Section Refusals.

Context {Env : Type}.
Variable d : Dispatcher Env.

Lemma endsRefused_app err (pre tr : list (Action Env)) :
  endsRefused d err tr -> endsRefused d err (pre ++ tr).
Proof.
  intros (p & ev & -> & Hm). exists (pre ++ p), ev.
  split; [rewrite app_assoc; reflexivity | exact Hm].
Qed.

Lemma endsRefused_cons err a (tr : list (Action Env)) :
  endsRefused d err tr -> endsRefused d err (a :: tr).
Proof. intros H. apply (endsRefused_app [a]). exact H. Qed.

Lemma try_refused ty x attempt s o tr :
  TryRun d ty x attempt s o tr ->
  match o with
  | Rejected err => endsRefused d err tr
  | _ => True
  end.
Proof.
  intros H. destruct H; simpl; try exact I.
  eexists [], _. split; [reflexivity | assumption].
Qed.

Lemma attempts_refused ty x remaining attempt s o tr :
  AttemptsRun d ty x remaining attempt s o tr ->
  match o with
  | Rejected err => endsRefused d err tr
  | _ => True
  end.
Proof.
  intros H.
  induction H as [attempt s | remaining attempt s err tr Htry
                  | remaining attempt s r tr Htry
                  | remaining attempt s s' tr o tr' Htry Hrest IH].
  - exact I.
  - apply (try_refused Htry).
  - exact I.
  - destruct o as [f | err]; [exact I |].
    apply endsRefused_app. apply endsRefused_app. exact IH.
Qed.

Lemma order_refused order s o tr :
  OrderRun d order s o tr ->
  match o with
  | Rejected err => endsRefused d err tr
  | _ => True
  end.
Proof.
  intros H.
  induction H as [s | ty rest s o tr Hget Hrest IH
                  | ty rest x r s o tr Hget Hr Hrest IH
                  | ty rest x s err tr Hget Hatt
                  | ty rest x s r tr Hget Hatt
                  | ty rest x s s' tr o tr' Hget Hatt Hrest IH].
  - exact I.
  - exact IH.
  - destruct o as [f | err]; [exact I |]. apply endsRefused_cons. exact IH.
  - apply endsRefused_cons. apply (attempts_refused Hatt).
  - exact I.
  - destruct o as [f | err]; [exact I |].
    apply endsRefused_cons. apply endsRefused_app. exact IH.
Qed.

Lemma dispatch_refused t err tr :
  DispatchRun d t (Rejected err) tr -> endsRefused d err tr.
Proof.
  intros H. inversion H; subst.
  - eexists [_; _], _. split; [reflexivity | assumption].
  - apply endsRefused_app.
    match goal with Ho : OrderRun _ _ _ _ _ |- _ => apply (order_refused Ho) end.
  - apply endsRefused_app. apply endsRefused_app.
    eexists [_; _], _. split; [reflexivity | assumption].
Qed.

Lemma accepts_never_refused err (tr : list (Action Env)) :
  accepts (memory d) -> endsRefused d err tr -> False.
Proof.
  intros Hacc (pre & ev & _ & env0 & env1 & Hm).
  destruct (Hacc ev env0) as (i & env' & Hi). congruence.
Qed.

End Refusals.

(** ** The event sequence of a task *)

Section Events.

Context {Env : Type}.
Variable d : Dispatcher Env.

Lemma respondedAfterCalled_any evs :
  respondedAfterCalled None evs = true ->
  forall prev, respondedAfterCalled prev evs = true.
Proof.
  destruct evs as [| b rest]; simpl; [reflexivity |].
  destruct (isResponded b); simpl; [discriminate | intros H prev; exact H].
Qed.

Lemma respondedAfterCalled_app evs evs' : forall prev,
  respondedAfterCalled prev evs = true ->
  respondedAfterCalled None evs' = true ->
  respondedAfterCalled prev (evs ++ evs') = true.
Proof.
  induction evs as [| b rest IH]; intros prev H H'; simpl.
  - apply respondedAfterCalled_any. exact H'.
  - simpl in H. apply andb_true_iff in H. destruct H as [Hb Hrest].
    rewrite Hb. simpl. apply IH; assumption.
Qed.

Lemma calledThenResponded_app evs evs' :
  calledThenResponded evs = true ->
  calledThenResponded evs' = true ->
  calledThenResponded (evs ++ evs') = true.
Proof.
  induction evs as [| a rest IH]; intros H H'; simpl; [exact H' |].
  simpl in H. apply andb_true_iff in H. destruct H as [Ha Hrest].
  rewrite (IH Hrest H'), andb_true_r.
  destruct (isCalled a); [| reflexivity].
  destruct rest as [| b rest']; [discriminate Ha | exact Ha].
Qed.

Lemma countTerminal_app evs evs' :
  countTerminal (evs ++ evs') = countTerminal evs + countTerminal evs'.
Proof. unfold countTerminal. rewrite filter_app, length_app. reflexivity. Qed.

Lemma loopEvents_nil tid : loopEvents tid false [].
Proof. repeat split. constructor. Qed.

Lemma loopEvents_app tid returned evs evs' :
  loopEvents tid false evs ->
  loopEvents tid returned evs' ->
  loopEvents tid returned (evs ++ evs').
Proof.
  intros (Hr & Hid & Hn) (Hr' & Hid' & Hend).
  split; [apply respondedAfterCalled_app; assumption |].
  split; [apply Forall_app; split; assumption |].
  destruct returned.
  - destruct Hend as (pre & last & -> & Hty & Hpre).
    exists (evs ++ pre), last. rewrite app_assoc.
    repeat split; [exact Hty |]. rewrite countTerminal_app, Hn, Hpre. reflexivity.
  - rewrite countTerminal_app, Hn, Hend. reflexivity.
Qed.

Lemma answers_try t ty n res :
  answers (calledEvent t ty n) (respondedEvent t ty res) = true.
Proof.
  unfold answers, isCalled, isResponded, sameExecutor, sameTask. simpl.
  rewrite ExecutorType_eqb_refl, String.eqb_refl. reflexivity.
Qed.

Lemma try_id ty x attempt s o tr :
  TryRun d ty x attempt s o tr ->
  match o with
  | Resolved (Continue s') => id (theTask s') = id (theTask s)
  | _ => True
  end.
Proof. intros H. destruct H; simpl; try exact I; reflexivity. Qed.

Lemma attempts_id ty x remaining attempt s o tr :
  AttemptsRun d ty x remaining attempt s o tr ->
  match o with
  | Resolved (Continue s') => id (theTask s') = id (theTask s)
  | _ => True
  end.
Proof.
  intros H.
  induction H as [attempt s | remaining attempt s err tr Htry
                  | remaining attempt s r tr Htry
                  | remaining attempt s s' tr o tr' Htry Hrest IH];
    try exact I; try reflexivity.
  apply try_id in Htry. simpl in Htry.
  destruct o as [[r | s''] | err]; try exact I. congruence.
Qed.

Lemma try_events ty x attempt s o tr :
  TryRun d ty x attempt s o tr ->
  loopEvents (id (theTask s)) (returns o) (loggedEvents tr) /\
  (allSettled tr = true -> calledThenResponded (loggedEvents tr) = true).
Proof.
  intros H. destruct H; simpl;
    (split;
     [ split; [simpl; rewrite ?answers_try; reflexivity |];
       split; [repeat constructor |]
     | try discriminate; intros _; rewrite ?answers_try; reflexivity ]);
    try reflexivity.
  eexists [_; _], _. repeat split.
Qed.

Lemma attempts_events ty x remaining attempt s o tr :
  AttemptsRun d ty x remaining attempt s o tr ->
  loopEvents (id (theTask s)) (returns o) (loggedEvents tr) /\
  (allSettled tr = true -> calledThenResponded (loggedEvents tr) = true).
Proof.
  intros H.
  induction H as [attempt s | remaining attempt s err tr Htry
                  | remaining attempt s r tr Htry
                  | remaining attempt s s' tr o tr' Htry Hrest IH].
  - split; [apply loopEvents_nil | reflexivity].
  - apply (try_events Htry).
  - apply (try_events Htry).
  - pose proof (try_id Htry) as Hid. simpl in Hid.
    destruct (try_events Htry) as [Hshape Hpair].
    destruct IH as [Hshape' Hpair']. rewrite Hid in Hshape'.
    rewrite !loggedEvents_app, loggedEvents_pause. simpl.
    split.
    + apply loopEvents_app; assumption.
    + intros Hs. rewrite !allSettled_app in Hs.
      apply andb_true_iff in Hs. destruct Hs as [Hs1 Hs2].
      apply andb_true_iff in Hs2. destruct Hs2 as [_ Hs2].
      apply calledThenResponded_app; auto.
Qed.

Lemma order_id order s o tr :
  OrderRun d order s o tr ->
  match o with
  | Resolved (Continue s') => id (theTask s') = id (theTask s)
  | _ => True
  end.
Proof.
  intros H.
  induction H as [s | ty rest s o tr Hget Hrest IH
                  | ty rest x r s o tr Hget Hr Hrest IH
                  | ty rest x s err tr Hget Hatt
                  | ty rest x s r tr Hget Hatt
                  | ty rest x s s' tr o tr' Hget Hatt Hrest IH];
    try exact I; try reflexivity; try exact IH.
  apply attempts_id in Hatt. simpl in Hatt.
  destruct o as [[r | s''] | err]; try exact I. congruence.
Qed.

Lemma order_events order s o tr :
  OrderRun d order s o tr ->
  loopEvents (id (theTask s)) (returns o) (loggedEvents tr) /\
  (allSettled tr = true -> calledThenResponded (loggedEvents tr) = true).
Proof.
  intros H.
  induction H as [s | ty rest s o tr Hget Hrest IH
                  | ty rest x r s o tr Hget Hr Hrest IH
                  | ty rest x s err tr Hget Hatt
                  | ty rest x s r tr Hget Hatt
                  | ty rest x s s' tr o tr' Hget Hatt Hrest IH].
  - split; [apply loopEvents_nil | reflexivity].
  - exact IH.
  - exact IH.
  - apply (attempts_events Hatt).
  - apply (attempts_events Hatt).
  - pose proof (attempts_id Hatt) as Hid. simpl in Hid.
    destruct (attempts_events Hatt) as [Hshape Hpair].
    destruct IH as [Hshape' Hpair']. rewrite Hid in Hshape'.
    change (loggedEvents (AProbe x (Resolved true) :: tr ++ tr'))
      with (loggedEvents (tr ++ tr')).
    change (allSettled (AProbe x (Resolved true) :: tr ++ tr'))
      with (allSettled (tr ++ tr')).
    rewrite loggedEvents_app. split.
    + apply loopEvents_app; assumption.
    + intros Hs. rewrite allSettled_app in Hs.
      apply andb_true_iff in Hs. destruct Hs as [Hs1 Hs2].
      apply calledThenResponded_app; auto.
Qed.

Lemma getTaskHistory_all tid evs :
  Forall (fun ev => taskId ev = Some tid) evs -> getTaskHistory tid evs = evs.
Proof.
  unfold getTaskHistory. induction 1 as [| ev evs Hev _ IH]; simpl; [reflexivity |].
  rewrite Hev. simpl. rewrite String.eqb_refl, IH. reflexivity.
Qed.

(** The events of a completed dispatch. *)
Lemma dispatch_events t res tr :
  DispatchRun d t (Resolved res) tr ->
  exists first middle last,
    loggedEvents tr = first :: middle ++ [last] /\
    type first = task_started /\
    isTerminal last = true /\
    countTerminal middle = 0 /\
    respondedAfterCalled None (loggedEvents tr) = true /\
    (allSettled tr = true -> calledThenResponded (loggedEvents tr) = true) /\
    Forall (fun ev => taskId ev = Some (id t)) (loggedEvents tr).
Proof.
  intros H. inversion H as [| | now i r tr0 Ho | | now i s tr0 now' i' Ho]; subst.
  - destruct (order_events Ho) as [(Hr & Hid & pre & last & Hevs & Hty & Hpre) Hpair].
    simpl in Hid, Hr, Hevs. simpl loggedEvents. rewrite Hevs in *.
    exists (startedEvent (started now t)), pre, last.
    split; [reflexivity |]. split; [reflexivity |].
    split; [unfold isTerminal; rewrite Hty; reflexivity |].
    split; [exact Hpre |]. split; [| split].
    + simpl. apply respondedAfterCalled_any. exact Hr.
    + intros Hs. simpl in Hs. simpl. apply Hpair. exact Hs.
    + constructor; [reflexivity | exact Hid].
  - destruct (order_events Ho) as [(Hr & Hid & Hn) Hpair].
    pose proof (order_id Ho) as Hsame. simpl in Hid, Hr, Hn, Hsame.
    simpl loggedEvents. rewrite loggedEvents_app. simpl.
    exists (startedEvent (started now t)), (loggedEvents tr0), (failedEventOf now' s).
    split; [reflexivity |]. split; [reflexivity |].
    split; [reflexivity |]. split; [exact Hn |]. split; [| split].
    + apply respondedAfterCalled_app; [| reflexivity].
      apply respondedAfterCalled_any. exact Hr.
    + intros Hs. simpl in Hs. rewrite allSettled_app in Hs.
      apply andb_true_iff in Hs. destruct Hs as [Hs _].
      apply calledThenResponded_app; [apply Hpair; exact Hs | reflexivity].
    + constructor; [reflexivity |].
      apply Forall_app. split; [exact Hid |].
      constructor; [| constructor]. simpl. rewrite Hsame. reflexivity.
Qed.

End Events.

(** ** Who gets called *)

Section Tried.

Context {Env : Type}.
Variable d : Dispatcher Env.

Lemma try_calls ty x attempt s o tr :
  TryRun d ty x attempt s o tr ->
  forall ev r, In (ALog ev r) tr -> type ev = executor_called ->
    executorType ev = Some ty.
Proof.
  intros H ev r Hin Hty.
  destruct H; simpl in Hin;
    repeat (destruct Hin as [Hin | Hin];
            [try discriminate Hin; inversion Hin; subst;
             try reflexivity; discriminate Hty |]);
    contradiction.
Qed.

Lemma attempts_calls ty x remaining attempt s o tr :
  AttemptsRun d ty x remaining attempt s o tr ->
  (forall y t r, In (AExec y t r) tr -> y = x) /\
  (forall ev r, In (ALog ev r) tr -> type ev = executor_called ->
     executorType ev = Some ty).
Proof.
  intros H.
  induction H as [attempt s | remaining attempt s err tr Htry
                  | remaining attempt s r tr Htry
                  | remaining attempt s s' tr o tr' Htry Hrest IH].
  - split; [intros ? ? ? [] | intros ? ? []].
  - split; [intros y t r' Hy; apply (try_exec Htry _ _ _ Hy)
           | apply (try_calls Htry)].
  - split; [intros y t r' Hy; apply (try_exec Htry _ _ _ Hy)
           | apply (try_calls Htry)].
  - destruct IH as [IHx IHc]. split.
    + intros y t r' Hy. apply in_app_or in Hy. destruct Hy as [Hy | Hy].
      * apply (try_exec Htry _ _ _ Hy).
      * apply in_app_or in Hy. destruct Hy as [Hy | Hy].
        -- apply In_pause in Hy. destruct Hy as [ms Hy]. discriminate Hy.
        -- apply (IHx _ _ _ Hy).
    + intros ev r' Hin Hty. apply in_app_or in Hin. destruct Hin as [Hin | Hin].
      * apply (try_calls Htry _ _ Hin Hty).
      * apply in_app_or in Hin. destruct Hin as [Hin | Hin].
        -- apply In_pause in Hin. destruct Hin as [ms Hin]. discriminate Hin.
        -- apply (IHc _ _ Hin Hty).
Qed.

Lemma probedFirst_cons a tr :
  (forall y t r, a <> AExec y t r) ->
  (forall ev r, a = ALog ev r -> type ev <> executor_called) ->
  probedFirst d tr -> probedFirst d (a :: tr).
Proof.
  intros Hx Hl [Px Pc]. split.
  - intros y t r [Hin | Hin]; [exfalso; apply (Hx y t r Hin) |].
    right. apply (Px _ _ _ Hin).
  - intros ev r [Hin | Hin] Hty; [exfalso; apply (Hl ev r Hin Hty) |].
    destruct (Pc _ _ Hin Hty) as (ty & y & H1 & H2 & H3).
    exists ty, y. repeat split; try assumption. right. exact H3.
Qed.

Lemma probedFirst_tried ty x remaining attempt s o tr :
  get (executors d) ty = Some x ->
  AttemptsRun d ty x remaining attempt s o tr ->
  forall tr', probedFirst d tr' ->
  probedFirst d (AProbe x (Resolved true) :: tr ++ tr').
Proof.
  intros Hget Hatt tr' [Px Pc].
  destruct (attempts_calls Hatt) as [Ax Ac]. split.
  - intros y t r [Hin | Hin]; [discriminate Hin |].
    apply in_app_or in Hin. destruct Hin as [Hin | Hin].
    + rewrite (Ax _ _ _ Hin). left. reflexivity.
    + right. apply in_or_app. right. apply (Px _ _ _ Hin).
  - intros ev r [Hin | Hin] Hty; [discriminate Hin |].
    apply in_app_or in Hin. destruct Hin as [Hin | Hin].
    + exists ty, x. repeat split; [apply (Ac _ _ Hin Hty) | exact Hget |].
      left. reflexivity.
    + destruct (Pc _ _ Hin Hty) as (ty' & y & H1 & H2 & H3).
      exists ty', y. repeat split; try assumption.
      right. apply in_or_app. right. exact H3.
Qed.

Lemma probedFirst_nil : probedFirst d [].
Proof. split; [intros ? ? ? [] | intros ? ? []]. Qed.

Lemma order_tried order s o tr :
  OrderRun d order s o tr -> probedFirst d tr.
Proof.
  intros H.
  induction H as [s | ty rest s o tr Hget Hrest IH
                  | ty rest x r s o tr Hget Hr Hrest IH
                  | ty rest x s err tr Hget Hatt
                  | ty rest x s r tr Hget Hatt
                  | ty rest x s s' tr o tr' Hget Hatt Hrest IH].
  - apply probedFirst_nil.
  - exact IH.
  - apply probedFirst_cons; [discriminate | discriminate | exact IH].
  - rewrite <- (app_nil_r tr).
    apply (probedFirst_tried Hget Hatt probedFirst_nil).
  - rewrite <- (app_nil_r tr).
    apply (probedFirst_tried Hget Hatt probedFirst_nil).
  - apply (probedFirst_tried Hget Hatt IH).
Qed.

Lemma probedFirst_app_r tr post :
  (forall a, In a post ->
     (forall y t r, a <> AExec y t r) /\
     (forall ev r, a = ALog ev r -> type ev <> executor_called)) ->
  probedFirst d tr -> probedFirst d (tr ++ post).
Proof.
  intros Hpost [Px Pc]. split.
  - intros y t r Hin. apply in_app_or in Hin. destruct Hin as [Hin | Hin].
    + apply in_or_app. left. apply (Px _ _ _ Hin).
    + exfalso. destruct (Hpost _ Hin) as [Hx _]. apply (Hx y t r). reflexivity.
  - intros ev r Hin Hty. apply in_app_or in Hin. destruct Hin as [Hin | Hin].
    + destruct (Pc _ _ Hin Hty) as (ty & y & H1 & H2 & H3).
      exists ty, y. repeat split; try assumption. apply in_or_app. left. exact H3.
    + exfalso. destruct (Hpost _ Hin) as [_ Hl]. apply (Hl ev r eq_refl Hty).
Qed.

Lemma probedFirst_opening now t r tr :
  probedFirst d tr -> probedFirst d (opening now t r ++ tr).
Proof.
  intros H. unfold opening. cbn [app].
  apply probedFirst_cons; [discriminate | discriminate |].
  apply probedFirst_cons; [discriminate | discriminate |].
  apply probedFirst_cons; [discriminate | | exact H].
  intros ev r' Heq. inversion Heq; subst. discriminate.
Qed.

Lemma probedFirst_closing now s r tr :
  probedFirst d tr -> probedFirst d (tr ++ closing now s r).
Proof.
  apply probedFirst_app_r. intros a [<- | [<- | [<- | []]]];
    (split; [discriminate |]); try discriminate.
  intros ev r' Heq. inversion Heq; subst. discriminate.
Qed.

Lemma dispatch_tried t o tr :
  DispatchRun d t o tr -> probedFirst d tr.
Proof.
  intros H. inversion H; subst.
  - rewrite <- (app_nil_r (opening _ _ _)).
    apply probedFirst_opening. apply probedFirst_nil.
  - apply probedFirst_opening. eapply order_tried; eassumption.
  - apply probedFirst_opening. eapply order_tried; eassumption.
  - apply probedFirst_opening. apply probedFirst_closing.
    eapply order_tried; eassumption.
  - apply probedFirst_opening. apply probedFirst_closing.
    eapply order_tried; eassumption.
Qed.

End Tried.

(** ** Pauses *)

Section Pauses.

Context {Env : Type}.
Variable d : Dispatcher Env.

Lemma watchAll_app (tr tr' : list (Action Env)) : forall st,
  watchAll d st (tr ++ tr') =
  match watchAll d st tr with
  | Some st' => watchAll d st' tr'
  | None => None
  end.
Proof.
  induction tr as [| a tr IH]; intros st; simpl; [reflexivity |].
  destruct (watch d st a) as [st' |]; [apply IH | reflexivity].
Qed.

Lemma optType_eqb_eq a b : optType_eqb a b = true -> a = b.
Proof.
  destruct a as [a |], b as [b |]; simpl; intros H; try discriminate; [| reflexivity].
  apply ExecutorType_eqb_eq in H. subst. reflexivity.
Qed.

Lemma watch_first l t ty r :
  watch d (l, false) (ALog (calledEvent t ty 1) r) = Some (Some (Some ty, 1), false).
Proof. reflexivity. Qed.

Lemma watch_next t ty n r :
  watch d (Some (Some ty, n), true) (ALog (calledEvent t ty (S n)) r) =
  Some (Some (Some ty, S n), false).
Proof.
  unfold watch. cbn [type payload calledEvent executorType optType_eqb].
  rewrite Nat.eqb_refl, ExecutorType_eqb_refl. reflexivity.
Qed.

Lemma try_watch ty x attempt s o tr :
  TryRun d ty x attempt s o tr ->
  forall st l,
    (forall r, watch d st (ALog (calledEvent (theTask s) ty attempt) r) = Some (l, false)) ->
    watchAll d st tr = Some (l, false).
Proof.
  intros H st l Hw.
  destruct H; cbn [watchAll]; rewrite Hw; reflexivity.
Qed.

Lemma ready_watch ty attempt st t :
  ready ty attempt st ->
  forall r, watch d st (ALog (calledEvent t ty attempt) r) =
            Some (Some (Some ty, attempt), false).
Proof.
  intros [[-> Hs] | (n & -> & Hn & ->)] r.
  - destruct st as [l b]. simpl in Hs. subst b. apply watch_first.
  - apply watch_next.
Qed.

Lemma pause_watch ty attempt :
  1 <= attempt ->
  watchAll d (Some (Some ty, attempt), false) (pause d attempt) =
  Some (Some (Some ty, attempt),
        attempt <? retryAttempts (options d)).
Proof.
  intros Hpos. unfold pause.
  destruct (attempt <? retryAttempts (options d)) eqn:Hlt; [| reflexivity].
  cbn [watchAll watch].
  assert (Hle : (1 <=? attempt) = true) by (apply Nat.leb_le; exact Hpos).
  rewrite Hle, Hlt, Z.eqb_refl. reflexivity.
Qed.

Lemma attempts_watch ty x remaining attempt s o tr :
  AttemptsRun d ty x remaining attempt s o tr ->
  attempt + remaining = S (retryAttempts (options d)) ->
  1 <= attempt ->
  forall st,
    (remaining = 0 -> snd st = false) ->
    (1 <= remaining -> ready ty attempt st) ->
    exists l, watchAll d st tr = Some (l, false).
Proof.
  intros H.
  induction H as [attempt s | remaining attempt s err tr Htry
                  | remaining attempt s r tr Htry
                  | remaining attempt s s' tr o tr' Htry Hrest IH];
    intros Hsum Hpos st Hzero Hready.
  - destruct st as [l b]. simpl in Hzero. rewrite (Hzero eq_refl).
    exists l. reflexivity.
  - eexists. apply (try_watch Htry). apply ready_watch. apply Hready. lia.
  - eexists. apply (try_watch Htry). apply ready_watch. apply Hready. lia.
  - rewrite watchAll_app.
    rewrite (try_watch Htry st (ready_watch (theTask s) (Hready ltac:(lia)))).
    rewrite watchAll_app, (pause_watch ty Hpos).
    apply IH; [lia | lia | |].
    + intros ->. simpl. apply Nat.ltb_ge. lia.
    + intros Hrem. right. exists attempt. repeat split; [exact Hpos |].
      f_equal. apply Nat.ltb_lt. lia.
Qed.

Lemma watch_idle st (a : Action Env) :
  snd st = false ->
  (forall ms, a <> ASleep ms) ->
  (forall ev r, a = ALog ev r -> type ev <> executor_called) ->
  watch d st a = Some st.
Proof.
  intros Hs Hsl Hc. destruct st as [l b]. simpl in Hs. subst b. unfold watch.
  destruct a as [ev r | | | ms | |]; try reflexivity.
  - specialize (Hc ev r eq_refl).
    destruct (type ev); try reflexivity. contradiction Hc. reflexivity.
  - contradiction (Hsl ms). reflexivity.
Qed.

Lemma order_watch order s o tr :
  OrderRun d order s o tr ->
  forall st, snd st = false -> exists l, watchAll d st tr = Some (l, false).
Proof.
  assert (Htried : forall ty x s1 o1 tr1,
            AttemptsRun d ty x (retryAttempts (options d)) 1 s1 o1 tr1 ->
            forall st, snd st = false -> exists l, watchAll d st tr1 = Some (l, false)).
  { intros ty x s1 o1 tr1 Hatt st Hs.
    apply (attempts_watch Hatt); [lia | lia | intros _; exact Hs |].
    intros _. left. split; [reflexivity | exact Hs]. }
  intros H.
  induction H as [s | ty rest s o tr Hget Hrest IH
                  | ty rest x r s o tr Hget Hr Hrest IH
                  | ty rest x s err tr Hget Hatt
                  | ty rest x s r tr Hget Hatt
                  | ty rest x s s' tr o tr' Hget Hatt Hrest IH]; intros st Hs.
  - destruct st as [l b]. simpl in Hs. subst b. exists l. reflexivity.
  - apply IH. exact Hs.
  - cbn [watchAll]. rewrite watch_idle; try discriminate; [| exact Hs].
    apply IH. exact Hs.
  - cbn [watchAll]. rewrite watch_idle; try discriminate; [| exact Hs].
    apply (Htried _ _ _ _ _ Hatt). exact Hs.
  - cbn [watchAll]. rewrite watch_idle; try discriminate; [| exact Hs].
    apply (Htried _ _ _ _ _ Hatt). exact Hs.
  - cbn [watchAll]. rewrite watch_idle; try discriminate; [| exact Hs].
    rewrite watchAll_app.
    destruct (Htried _ _ _ _ _ Hatt st Hs) as [l ->].
    apply IH. reflexivity.
Qed.

Lemma watch_now st now : snd st = false -> watch d st (ANow now) = Some st.
Proof. intros Hs. apply watch_idle; [exact Hs | discriminate | discriminate]. Qed.

Lemma watch_log st ev r :
  snd st = false -> type ev <> executor_called -> watch d st (ALog ev r) = Some st.
Proof.
  intros Hs Hty. apply watch_idle; [exact Hs | discriminate |].
  intros ev' r' Heq. inversion Heq; subst. exact Hty.
Qed.

Lemma watch_status st s : snd st = false -> watch d st (AStatus s) = Some st.
Proof. intros Hs. apply watch_idle; [exact Hs | discriminate | discriminate]. Qed.

Lemma opening_watch now t r :
  watchAll d (None, false) (opening now t r) = Some (None, false).
Proof.
  unfold opening. cbn [watchAll].
  rewrite watch_status by reflexivity. rewrite watch_now by reflexivity.
  rewrite watch_log by (try reflexivity; discriminate). reflexivity.
Qed.

Lemma closing_watch l now s r :
  watchAll d (l, false) (closing now s r) = Some (l, false).
Proof.
  unfold closing. cbn [watchAll].
  rewrite watch_status by reflexivity. rewrite watch_now by reflexivity.
  rewrite watch_log by (try reflexivity; discriminate). reflexivity.
Qed.

Lemma dispatch_watch t o tr :
  DispatchRun d t o tr -> exists l, watchAll d (None, false) tr = Some (l, false).
Proof.
  intros H. inversion H; subst.
  - exists None. apply opening_watch.
  - rewrite watchAll_app, opening_watch.
    eapply order_watch; [eassumption | reflexivity].
  - rewrite watchAll_app, opening_watch.
    eapply order_watch; [eassumption | reflexivity].
  - rewrite watchAll_app, opening_watch, watchAll_app.
    match goal with
    | Ho : OrderRun _ _ _ _ _ |- _ =>
        destruct (order_watch Ho (None, false) eq_refl) as [l ->]
    end.
    exists l. apply closing_watch.
  - rewrite watchAll_app, opening_watch, watchAll_app.
    match goal with
    | Ho : OrderRun _ _ _ _ _ |- _ =>
        destruct (order_watch Ho (None, false) eq_refl) as [l ->]
    end.
    exists l. apply closing_watch.
Qed.

(** *** What the monitor's verdict means *)

Lemma watchAll_split (pre post : list (Action Env)) a : forall st st',
  watchAll d st (pre ++ a :: post) = Some st' ->
  exists st1 st2,
    watchAll d st pre = Some st1 /\ watch d st1 a = Some st2 /\
    watchAll d st2 post = Some st'.
Proof.
  intros st st' H. rewrite watchAll_app in H.
  destruct (watchAll d st pre) as [st1 |]; [| discriminate].
  cbn [watchAll] in H.
  destruct (watch d st1 a) as [st2 |] eqn:Hw; [| discriminate].
  exists st1, st2. repeat split; assumption.
Qed.

(** The four ways the monitor moves. *)
Lemma watch_cases st (a : Action Env) st' :
  watch d st a = Some st' ->
  (snd st = false /\ st' = st /\
   forall seen, lastCall seen (offeredEvents [a]) = seen) \/
  (exists ms ty n,
     a = ASleep ms /\ st = (Some (ty, n), false) /\ st' = (Some (ty, n), true) /\
     1 <= n < retryAttempts (options d) /\
     ms = (retryDelayMs (options d) * Z.of_nat n)%Z) \/
  (exists ev r l,
     a = ALog ev r /\ type ev = executor_called /\ payload ev = PCalled 1 /\
     st = (l, false) /\ st' = (Some (executorType ev, 1), false)) \/
  (exists ev r n,
     a = ALog ev r /\ type ev = executor_called /\ payload ev = PCalled (S n) /\
     st = (Some (executorType ev, n), true) /\
     st' = (Some (executorType ev, S n), false)).
Proof.
  destruct st as [l b]. unfold watch.
  assert (Hidle : forall seen0 : list EventInput,
            (forall seen, lastCall seen seen0 = seen) ->
            (if b then None else Some (l, b)) = Some st' ->
            snd (l, b) = false /\ st' = (l, b) /\
            forall seen, lastCall seen seen0 = seen).
  { intros evs Hevs H. destruct b; [discriminate |].
    inversion H; subst. repeat split. exact Hevs. }
  destruct a as [ev r | x r | x t r | ms | now | st0].
  - destruct (type ev) eqn:Hty;
      try (intros H; left; apply (Hidle [ev]); [| exact H];
           intros seen; simpl; rewrite Hty; reflexivity).
    destruct (payload ev) as [| m | | |] eqn:Hp;
      try (intros H; left; apply (Hidle [ev]); [| exact H];
           intros seen; simpl; rewrite Hty, Hp; reflexivity).
    destruct b.
    + destruct l as [[ty n] |]; [| discriminate].
      destruct ((m =? S n) && optType_eqb (executorType ev) ty) eqn:Hc; [| discriminate].
      apply andb_true_iff in Hc. destruct Hc as [Hm Ht].
      apply Nat.eqb_eq in Hm. apply optType_eqb_eq in Ht. subst.
      intros H. inversion H; subst.
      right. right. right. exists ev, r, n. repeat split; assumption.
    + destruct (m =? 1) eqn:Hm; [| discriminate].
      apply Nat.eqb_eq in Hm. subst m.
      intros H. inversion H; subst.
      right. right. left. exists ev, r, l. repeat split; assumption.
  - intros H. left. apply (Hidle []); [reflexivity | exact H].
  - intros H. left. apply (Hidle []); [reflexivity | exact H].
  - destruct b; [discriminate |].
    destruct l as [[ty n] |]; [| discriminate].
    destruct ((1 <=? n) && (n <? retryAttempts (options d)) &&
              (ms =? retryDelayMs (options d) * Z.of_nat n)%Z) eqn:Hc; [| discriminate].
    apply andb_true_iff in Hc. destruct Hc as [Hc Hms].
    apply andb_true_iff in Hc. destruct Hc as [Hlo Hhi].
    apply Nat.leb_le in Hlo. apply Nat.ltb_lt in Hhi. apply Z.eqb_eq in Hms.
    intros H. inversion H; subst.
    right. left. eexists _, ty, n. repeat split; try reflexivity; assumption.
  - intros H. left. apply (Hidle []); [reflexivity | exact H].
  - intros H. left. apply (Hidle []); [reflexivity | exact H].
Qed.

Lemma watch_fst st (a : Action Env) st' :
  watch d st a = Some st' ->
  fst st' = lastCall (fst st) (offeredEvents [a]).
Proof.
  intros H. apply watch_cases in H.
  destruct H as [(_ & -> & Hsame)
               | [(ms & ty & n & -> & -> & -> & _)
               | [(ev & r & l & -> & Hty & Hp & -> & ->)
               | (ev & r & n & -> & Hty & Hp & -> & ->)]]].
  - rewrite Hsame. reflexivity.
  - reflexivity.
  - simpl. rewrite Hty, Hp. reflexivity.
  - simpl. rewrite Hty, Hp. reflexivity.
Qed.

Lemma watchAll_fst (tr : list (Action Env)) : forall st st',
  watchAll d st tr = Some st' ->
  fst st' = lastCall (fst st) (offeredEvents tr).
Proof.
  induction tr as [| a tr IH]; intros st st' H.
  - simpl in H. inversion H; subst. reflexivity.
  - cbn [watchAll] in H.
    destruct (watch d st a) as [st1 |] eqn:Hw; [| discriminate].
    change (a :: tr) with ([a] ++ tr).
    rewrite offeredEvents_app, lastCall_app, <- (watch_fst _ _ Hw).
    apply IH. exact H.
Qed.

(** The monitor reaches "pause taken" only by a pause of the right
    length after a try that has a successor. *)
Lemma slept_inv st (a : Action Env) l :
  watch d st a = Some (l, true) ->
  exists ms ty n,
    a = ASleep ms /\ st = (Some (ty, n), false) /\ l = Some (ty, n) /\
    1 <= n < retryAttempts (options d) /\
    ms = (retryDelayMs (options d) * Z.of_nat n)%Z.
Proof.
  intros H. apply watch_cases in H.
  destruct H as [(Hs & Heq & _)
               | [(ms & ty & n & -> & -> & Heq & Hn & ->)
               | [(ev & r & l0 & _ & _ & _ & _ & Heq)
               | (ev & r & n & _ & _ & _ & _ & Heq)]]]; try discriminate Heq.
  - subst st. discriminate Hs.
  - inversion Heq; subst. eexists _, ty, n. repeat split; try reflexivity; apply Hn.
Qed.

(** After a pause the monitor takes one thing only: the next try of the
    same back end. *)
Lemma after_sleep ty n (a : Action Env) st' :
  watch d (Some (ty, n), true) a = Some st' ->
  exists ev r,
    a = ALog ev r /\ type ev = executor_called /\
    payload ev = PCalled (S n) /\ executorType ev = ty.
Proof.
  intros H. apply watch_cases in H.
  destruct H as [(Hs & _)
               | [(ms & ty0 & n0 & _ & Heq & _)
               | [(ev & r & l0 & _ & _ & _ & Heq & _)
               | (ev & r & n0 & -> & Hty & Hp & Heq & _)]]]; try discriminate.
  inversion Heq; subst. exists ev, r. repeat split; assumption.
Qed.

(** A try is announced either as a first try, no pause pending, or as
    the successor of the try before the pause. *)
Lemma called_inv st ev (r : Settled string) m st' :
  watch d st (ALog (Env := Env) ev r) = Some st' ->
  type ev = executor_called ->
  payload ev = PCalled m ->
  (snd st = false /\ m = 1) \/
  (exists n, st = (Some (executorType ev, n), true) /\ m = S n).
Proof.
  intros H Hty Hp. apply watch_cases in H.
  destruct H as [(_ & _ & Hsame)
               | [(ms & ty0 & n0 & Heq & _)
               | [(ev0 & r0 & l0 & Heq & _ & Hp0 & -> & _)
               | (ev0 & r0 & n0 & Heq & _ & Hp0 & -> & _)]]].
  - specialize (Hsame None). simpl in Hsame. rewrite Hty, Hp in Hsame.
    discriminate Hsame.
  - discriminate Heq.
  - inversion Heq; subst. left. split; [reflexivity | congruence].
  - inversion Heq; subst. right. exists n0. split; [reflexivity | congruence].
Qed.

Lemma watchAll_slept (tr : list (Action Env)) st l :
  snd st = false ->
  watchAll d st tr = Some (l, true) ->
  exists pre ms ty n,
    tr = pre ++ [ASleep ms] /\
    watchAll d st pre = Some (Some (ty, n), false) /\
    l = Some (ty, n) /\
    1 <= n < retryAttempts (options d) /\
    ms = (retryDelayMs (options d) * Z.of_nat n)%Z.
Proof.
  intros Hs.
  induction tr as [| a0 pre0 _] using rev_ind.
  - simpl. intros H. inversion H; subst. discriminate Hs.
  - intros H. apply watchAll_split in H.
    destruct H as (st1 & st2 & Hpre & Hw & Hpost).
    simpl in Hpost. inversion Hpost; subst st2.
    apply slept_inv in Hw.
    destruct Hw as (ms & ty & n & -> & -> & -> & Hn & ->).
    exists pre0, (retryDelayMs (options d) * Z.of_nat n)%Z, ty, n.
    repeat split; try assumption; try reflexivity; apply Hn.
Qed.

Lemma sleep_inv st ms st' :
  watch d st (ASleep (Env := Env) ms) = Some st' ->
  exists ty n,
    st = (Some (ty, n), false) /\ st' = (Some (ty, n), true) /\
    1 <= n < retryAttempts (options d) /\
    ms = (retryDelayMs (options d) * Z.of_nat n)%Z.
Proof.
  intros H. destruct st' as [l' b']. destruct b'.
  - apply slept_inv in H. destruct H as (ms' & ty & n & Heq & -> & -> & Hn & Hms).
    inversion Heq; subst. exists ty, n. repeat split; try reflexivity; apply Hn.
  - exfalso. destruct st as [l b]. unfold watch in H.
    destruct b; [discriminate |].
    destruct l as [[ty n] |]; [| discriminate].
    destruct ((1 <=? n) && (n <? retryAttempts (options d)) &&
              (ms =? retryDelayMs (options d) * Z.of_nat n)%Z); discriminate.
Qed.

End Pauses.

(** ** Batches *)

Section Batches.

Context {Env : Type}.
Variable host : Host Env.

Lemma Ahead_refl {A} (p : Prog Env A) : Ahead p p.
Proof. intros o tr H. exists []. exact H. Qed.

Lemma Ahead_trans {A} (p q r : Prog Env A) : Ahead p q -> Ahead q r -> Ahead p r.
Proof.
  intros Hpq Hqr o tr H.
  destruct (Hqr _ _ H) as [tr1 H1]. destruct (Hpq _ _ H1) as [tr0 H0].
  exists (tr0 ++ tr1). rewrite <- app_assoc. exact H0.
Qed.

Lemma step_ahead {A} (p : Prog Env A) env p' env1 acts :
  step host p env = (p', env1, acts) -> Ahead p p'.
Proof.
  destruct p as [a | err | m ev k | x k | x t k | ms k | k | st k]; simpl.
  - intros H. inversion H; subst. apply Ahead_refl.
  - intros H. inversion H; subst. apply Ahead_refl.
  - destruct (logEvent m ev env) as [r env2] eqn:Hc.
    intros H. inversion H; subst. intros o tr Hp.
    exists [ALog ev r]. constructor; [exists env, env1; exact Hc | exact Hp].
  - destruct (isAvailable x env) as [r env2] eqn:Hc.
    intros H. inversion H; subst. intros o tr Hp.
    exists [AProbe x r]. constructor; [exists env, env1; exact Hc | exact Hp].
  - destruct (execute x t env) as [r env2] eqn:Hc.
    intros H. inversion H; subst. intros o tr Hp.
    exists [AExec x t r]. constructor; [exists env, env1; exact Hc | exact Hp].
  - intros H. inversion H; subst. intros o tr Hp.
    exists [ASleep ms]. constructor. exact Hp.
  - destruct (newDate host env) as [now env2] eqn:Hc.
    intros H. inversion H; subst. intros o tr Hp.
    exists [ANow now]. constructor. exact Hp.
  - intros H. inversion H; subst. intros o tr Hp.
    exists [AStatus st]. constructor. exact Hp.
Qed.

(** A step does not change what the promise settles to. *)
Lemma step_run {A} (p : Prog Env A) env p' env1 acts :
  step host p env = (p', env1, acts) ->
  run host p env =
  let '(o, env2, tr) := run host p' env1 in (o, env2, acts ++ tr).
Proof.
  destruct p as [a | err | m ev k | x k | x t k | ms k | k | st k]; simpl.
  - intros H. inversion H; subst. reflexivity.
  - intros H. inversion H; subst. reflexivity.
  - destruct (logEvent m ev env) as [r env2].
    intros H. inversion H; subst.
    destruct (run host (k r) env1) as [[o env3] tr]. reflexivity.
  - destruct (isAvailable x env) as [r env2].
    intros H. inversion H; subst.
    destruct (run host (k r) env1) as [[o env3] tr]. reflexivity.
  - destruct (execute x t env) as [r env2].
    intros H. inversion H; subst.
    destruct (run host (k r) env1) as [[o env3] tr]. reflexivity.
  - intros H. inversion H; subst.
    destruct (run host p' (setTimeout host ms env)) as [[o env3] tr]. reflexivity.
  - destruct (newDate host env) as [now env2].
    intros H. inversion H; subst.
    destruct (run host (k now) env1) as [[o env3] tr]. reflexivity.
  - intros H. inversion H; subst.
    destruct (run host p' env1) as [[o env3] tr]. reflexivity.
Qed.

Lemma values_all {A} (ps : list (Prog Env A)) l :
  values ps = Some l -> ps = map Ret l.
Proof.
  revert l. induction ps as [| p ps IH]; intros l; simpl.
  - intros H. inversion H; subst. reflexivity.
  - destruct p as [a | | | | | | |]; try discriminate.
    destruct (values ps) as [l' |]; [| discriminate].
    intros H. inversion H; subst. simpl. rewrite (IH l' eq_refl). reflexivity.
Qed.

Lemma values_map_Ret {A} (l : list A) : values (map (Ret (Env := Env)) l) = Some l.
Proof. induction l as [| a l IH]; simpl; [| rewrite IH]; reflexivity. Qed.

Lemma values_stuck {A} (pre : list A) (p : Prog Env A) post :
  (forall a, p <> Ret a) -> values (map Ret pre ++ p :: post) = None.
Proof.
  intros Hp. induction pre as [| a pre IH]; simpl.
  - destruct p as [a | | | | | | |]; try reflexivity. contradiction (Hp a). reflexivity.
  - rewrite IH. reflexivity.
Qed.

Lemma nth_error_middle {A} (pre : list A) (x : A) post :
  nth_error (pre ++ x :: post) (List.length pre) = Some x.
Proof. induction pre as [| a pre IH]; simpl; [reflexivity | exact IH]. Qed.

Lemma replaceAt_middle {A} (pre : list A) (x y : A) post :
  replaceAt (List.length pre) y (pre ++ x :: post) = pre ++ y :: post.
Proof. induction pre as [| a pre IH]; simpl; [| rewrite IH]; reflexivity. Qed.

Lemma Forall2_replaceAt {A B} (P : A -> B -> Prop) l l' i x y :
  Forall2 P l l' -> nth_error l' i = Some x ->
  (forall a, P a x -> P a y) ->
  Forall2 P l (replaceAt i y l').
Proof.
  intros H. revert i. induction H as [| a b l l' Hab Hrest IH]; intros i Hn Hxy.
  - destruct i; discriminate Hn.
  - destruct i as [| i]; simpl in *.
    + inversion Hn; subst. constructor; [apply Hxy; exact Hab | exact Hrest].
    + constructor; [exact Hab | apply IH; assumption].
Qed.

(** One round of [promiseAll] when the chosen promise is still pending. *)
Lemma promiseAll_step {A} i sched (ps : list (Prog Env A)) env p p' env1 acts :
  values ps = None ->
  nth_error ps i = Some p ->
  step host p env = (p', env1, acts) ->
  (forall err, p' <> Raise err) ->
  promiseAll host (i :: sched) ps env =
  let '(o, env2, tr) := promiseAll host sched (replaceAt i p' ps) env1 in
  (o, env2, acts ++ tr).
Proof.
  intros Hv Hn Hs Hp. cbn [promiseAll]. rewrite Hv, Hn, Hs.
  destruct p' as [a | err | | | | | |]; try reflexivity.
  contradiction (Hp err). reflexivity.
Qed.

(** Whatever the schedule, the values [promiseAll] resolves to are, in
    order, values the promises could resolve to. *)
Lemma promiseAll_sound {A} sched : forall (ps0 ps : list (Prog Env A)) env rs env' tr,
  Forall2 Ahead ps0 ps ->
  promiseAll host sched ps env = (Some (Resolved rs), env', tr) ->
  Forall2 (fun p0 r => exists tr', Path p0 (Resolved r) tr') ps0 rs.
Proof.
  assert (Hdone : forall (ps0 ps : list (Prog Env A)) rs,
            Forall2 Ahead ps0 ps -> values ps = Some rs ->
            Forall2 (fun p0 r => exists tr', Path p0 (Resolved r) tr') ps0 rs).
  { intros ps0 ps rs Hah Hv. apply values_all in Hv. subst ps.
    revert ps0 Hah. induction rs as [| r rs IH]; intros ps0 Hah; inversion Hah; subst.
    - constructor.
    - constructor; [| apply IH; assumption].
      match goal with Ha : Ahead _ (Ret r) |- _ =>
        destruct (Ha _ _ (path_ret r)) as [tr0 H0] end.
      exists (tr0 ++ []). exact H0. }
  induction sched as [| i sched IH]; intros ps0 ps env rs env' tr Hah H.
  - simpl in H. destruct (values ps) as [l |] eqn:Hv; [| discriminate].
    inversion H; subst. apply (Hdone _ _ _ Hah Hv).
  - cbn [promiseAll] in H. destruct (values ps) as [l |] eqn:Hv.
    { inversion H; subst. apply (Hdone _ _ _ Hah Hv). }
    destruct (nth_error ps i) as [p |] eqn:Hn; [| apply (IH _ _ _ _ _ _ Hah H)].
    destruct (step host p env) as [[p' env1] acts] eqn:Hs.
    assert (Hah' : Forall2 Ahead ps0 (replaceAt i p' ps)).
    { apply Forall2_replaceAt with (x := p); [exact Hah | exact Hn |].
      intros p0 Hp0. apply Ahead_trans with (q := p); [exact Hp0 |].
      apply (step_ahead _ _ Hs). }
    destruct (promiseAll host sched (replaceAt i p' ps) env1) as [[o env2] tr2] eqn:Hrest.
    destruct p' as [a | err | | | | | |]; try discriminate H;
      inversion H; subst; apply (IH _ _ _ _ _ _ Hah' Hrest).
Qed.

(** A pending promise that does not reject can be driven to its value. *)
Lemma finish_one {A} (p : Prog Env A) : forall (pre : list A) post env,
  (exists a env' tr, run host p env = (Resolved a, env', tr)) ->
  (forall a env1, exists sched rs env' tr,
     promiseAll host sched (map Ret pre ++ Ret a :: post) env1 =
     (Some (Resolved rs), env', tr)) ->
  exists sched rs env' tr,
    promiseAll host sched (map Ret pre ++ p :: post) env =
    (Some (Resolved rs), env', tr).
Proof.
  assert (Hgo : forall (q p' : Prog Env A) (pre : list A) post env env1 acts,
            (forall a, q <> Ret a) ->
            step host q env = (p', env1, acts) ->
            (exists a env' tr, run host q env = (Resolved a, env', tr)) ->
            ((exists a env' tr, run host p' env1 = (Resolved a, env', tr)) ->
             exists sched rs env' tr,
               promiseAll host sched (map Ret pre ++ p' :: post) env1 =
               (Some (Resolved rs), env', tr)) ->
            exists sched rs env' tr,
              promiseAll host sched (map Ret pre ++ q :: post) env =
              (Some (Resolved rs), env', tr)).
  { intros q p' pre post env env1 acts Hnr Hs (a & env' & tr & Hrun) Hnext.
    rewrite (step_run _ _ Hs) in Hrun.
    destruct (run host p' env1) as [[o env2] tr2] eqn:Hrun'.
    inversion Hrun; subst.
    destruct Hnext as (sched & rs & env3 & tr3 & Hall);
      [exists a, env', tr2; reflexivity |].
    exists (List.length (map (Ret (Env := Env)) pre) :: sched), rs, env3, (acts ++ tr3).
    rewrite promiseAll_step with (p := q) (p' := p') (env1 := env1) (acts := acts).
    - rewrite replaceAt_middle, Hall. reflexivity.
    - apply values_stuck. exact Hnr.
    - apply nth_error_middle.
    - exact Hs.
    - intros err ->. simpl in Hrun'. discriminate Hrun'. }
  induction p as [a | err | m ev k IH | x k IH | x t k IH | ms k IH | k IH | st k IH];
    intros pre post env Hrun Hnext.
  - apply Hnext.
  - destruct Hrun as (a & env' & tr & Hrun). discriminate Hrun.
  - destruct (logEvent m ev env) as [r env1] eqn:Hc.
    apply Hgo with (p' := k r) (env1 := env1) (acts := [ALog ev r]);
      [discriminate | simpl; rewrite Hc; reflexivity | exact Hrun |].
    intros Hrun'. apply IH; assumption.
  - destruct (isAvailable x env) as [r env1] eqn:Hc.
    apply Hgo with (p' := k r) (env1 := env1) (acts := [AProbe x r]);
      [discriminate | simpl; rewrite Hc; reflexivity | exact Hrun |].
    intros Hrun'. apply IH; assumption.
  - destruct (execute x t env) as [r env1] eqn:Hc.
    apply Hgo with (p' := k r) (env1 := env1) (acts := [AExec x t r]);
      [discriminate | simpl; rewrite Hc; reflexivity | exact Hrun |].
    intros Hrun'. apply IH; assumption.
  - apply Hgo with (p' := k) (env1 := setTimeout host ms env) (acts := [ASleep ms]);
      [discriminate | reflexivity | exact Hrun |].
    intros Hrun'. apply IH; assumption.
  - destruct (newDate host env) as [now env1] eqn:Hc.
    apply Hgo with (p' := k now) (env1 := env1) (acts := [ANow now]);
      [discriminate | simpl; rewrite Hc; reflexivity | exact Hrun |].
    intros Hrun'. apply IH; assumption.
  - apply Hgo with (p' := k) (env1 := env) (acts := [AStatus st]);
      [discriminate | reflexivity | exact Hrun |].
    intros Hrun'. apply IH; assumption.
Qed.

Variable d : Dispatcher Env.

Lemma dispatch_total t env :
  accepts (memory d) ->
  exists res env' tr, run host (dispatch d t) env = (Resolved res, env', tr).
Proof.
  intros Hacc.
  destruct (run host (dispatch d t) env) as [[[res | err] env'] tr] eqn:Hrun.
  - exists res, env', tr. reflexivity.
  - exfalso. apply (dispatch_run_sound host) in Hrun.
    apply (accepts_never_refused Hacc (dispatch_refused Hrun)).
Qed.

Lemma dispatch_frame t res tr :
  Path (dispatch d t) (Resolved res) tr -> frame t (task res).
Proof.
  intros H. apply dispatch_sound in H.
  inversion H as [| | now i r tr0 Ho | | now i s tr0 now' i' Ho]; subst.
  - assert (Hin : inFlight t (theTask (entry now t)))
      by (split; [apply frame_written | left; reflexivity]).
    destruct (order_task Ho Hin) as [_ (Hf & _)]. exact Hf.
  - assert (Hin : inFlight t (theTask (entry now t)))
      by (split; [apply frame_written | left; reflexivity]).
    destruct (order_task Ho Hin) as [_ [Hf _]].
    eapply frame_trans; [exact Hf | apply frame_written].
Qed.

Lemma dispatchEach_sound tasks : forall acc rs tr,
  Path (dispatchEach d tasks acc) (Resolved rs) tr ->
  exists rs', rs = acc ++ rs' /\ Forall2 (resultOf d) tasks rs'.
Proof.
  induction tasks as [| t tasks IH]; intros acc rs tr H.
  - simpl in H. apply Path_ret_inv in H. destruct H as [H _].
    inversion H; subst. exists []. split; [rewrite app_nil_r; reflexivity | constructor].
  - cbn [dispatchEach] in H. apply Path_bind_inv in H.
    destruct H as [(err & Hbad & _) | (r & tr1 & tr2 & -> & H1 & H2)];
      [discriminate Hbad |].
    apply IH in H2. destruct H2 as (rs' & -> & Hall).
    exists (r :: rs'). split; [rewrite <- app_assoc; reflexivity |].
    constructor; [| exact Hall].
    split; [exists tr1; exact H1 | apply (dispatch_frame H1)].
Qed.

Lemma dispatchEach_total tasks :
  accepts (memory d) ->
  forall acc env, exists rs env' tr,
    run host (dispatchEach d tasks acc) env = (Resolved rs, env', tr).
Proof.
  intros Hacc. induction tasks as [| t tasks IH]; intros acc env.
  - exists acc, env, []. reflexivity.
  - cbn [dispatchEach]. rewrite run_bind.
    destruct (dispatch_total t env Hacc) as (r & env1 & tr1 & ->).
    destruct (IH (acc ++ [r]) env1) as (rs & env2 & tr2 & ->).
    exists rs, env2, (tr1 ++ tr2). reflexivity.
Qed.

Lemma promiseAll_total tasks :
  accepts (memory d) ->
  forall (vals : list DispatchResult) env, exists sched rs env' tr,
    promiseAll host sched (map Ret vals ++ map (dispatch d) tasks) env =
    (Some (Resolved rs), env', tr).
Proof.
  intros Hacc. induction tasks as [| t tasks IH]; intros vals env.
  - exists [], vals, env, []. simpl. rewrite app_nil_r, values_map_Ret. reflexivity.
  - cbn [map]. apply finish_one.
    + apply dispatch_total. exact Hacc.
    + intros a env1.
      destruct (IH (vals ++ [a]) env1) as (sched & rs & env' & tr & H).
      exists sched, rs, env', tr.
      rewrite map_app, <- app_assoc in H. exact H.
Qed.

End Batches.

(** ** The writes to the task's status *)

Section StatusWrites.

Context {Env : Type}.
Variable d : Dispatcher Env.

Lemma statusWrites_app (tr tr' : list (Action Env)) :
  statusWrites (tr ++ tr') = statusWrites tr ++ statusWrites tr'.
Proof.
  induction tr as [| a tr IH]; simpl; [reflexivity |].
  destruct a; simpl; rewrite IH; reflexivity.
Qed.

Lemma loopWrites_nil : loopWrites false ([] : list (Action Env)).
Proof. exists []. repeat split. constructor. Qed.

Lemma loopWrites_app returned (tr tr' : list (Action Env)) :
  loopWrites false tr -> loopWrites returned tr' -> loopWrites returned (tr ++ tr').
Proof.
  intros (u & Hu & Hw & Hq) (u' & Hu' & Hw' & Hq').
  exists (u ++ u'). split; [apply Forall_app; split; assumption |]. split.
  - rewrite statusWrites_app, Hw, Hw', app_nil_r, app_assoc. reflexivity.
  - rewrite allLogged_app. intros H. apply andb_true_iff in H. destruct H as [H1 H2].
    rewrite (Hq H1), (Hq' H2). reflexivity.
Qed.

Lemma loopWrites_pause n : loopWrites false (pause d n).
Proof.
  exists []. split; [constructor |]. split; [| reflexivity].
  unfold pause. destruct (n <? _); reflexivity.
Qed.

Lemma try_writes ty x attempt s o tr :
  TryRun d ty x attempt s o tr -> loopWrites (returns o) tr.
Proof.
  intros H. destruct H; simpl;
    try (exists []; split; [constructor |]; split; [reflexivity | reflexivity]).
  exists [completed]. split; [repeat constructor |]. split; [reflexivity |].
  simpl. discriminate.
Qed.

Lemma attempts_writes ty x remaining attempt s o tr :
  AttemptsRun d ty x remaining attempt s o tr -> loopWrites (returns o) tr.
Proof.
  intros H.
  induction H as [attempt s | remaining attempt s err tr Htry
                  | remaining attempt s r tr Htry
                  | remaining attempt s s' tr o tr' Htry Hrest IH].
  - apply loopWrites_nil.
  - apply (try_writes Htry).
  - apply (try_writes Htry).
  - apply loopWrites_app; [apply (try_writes Htry) |].
    apply loopWrites_app; [apply loopWrites_pause | exact IH].
Qed.

Lemma loopWrites_probe returned x r (tr : list (Action Env)) :
  loopWrites returned tr -> loopWrites returned (AProbe x r :: tr).
Proof. intros H. exact H. Qed.

Lemma order_writes order s o tr :
  OrderRun d order s o tr -> loopWrites (returns o) tr.
Proof.
  intros H.
  induction H as [s | ty rest s o tr Hget Hrest IH
                  | ty rest x r s o tr Hget Hr Hrest IH
                  | ty rest x s err tr Hget Hatt
                  | ty rest x s r tr Hget Hatt
                  | ty rest x s s' tr o tr' Hget Hatt Hrest IH].
  - apply loopWrites_nil.
  - exact IH.
  - apply loopWrites_probe. exact IH.
  - apply loopWrites_probe. apply (attempts_writes Hatt).
  - apply loopWrites_probe. apply (attempts_writes Hatt).
  - apply loopWrites_probe.
    apply loopWrites_app; [apply (attempts_writes Hatt) | exact IH].
Qed.

Lemma In_exec_opening now t r0 (tr : list (Action Env)) x t' r :
  In (AExec x t' r) (opening now t r0 ++ tr) -> In (AExec x t' r) tr.
Proof. intros [H | [H | [H | H]]]; try discriminate H. exact H. Qed.

Lemma In_exec_closing now s r0 (tr : list (Action Env)) x t' r :
  In (AExec x t' r) (tr ++ closing now s r0) -> In (AExec x t' r) tr.
Proof.
  intros H. apply in_app_or in H.
  destruct H as [H | [H | [H | [H | []]]]]; try discriminate H. exact H.
Qed.

End StatusWrites.

(** ** Announcement, call and report of a try *)

Section Protocol.

Context {Env : Type}.
Variable d : Dispatcher Env.

Lemma followAll_app (st : Stage) (a b : list (Action Env)) :
  followAll st (a ++ b) =
  match followAll st a with
  | Some st' => followAll st' b
  | None => None
  end.
Proof.
  revert st. induction a as [| x a IH]; intros st; simpl.
  - reflexivity.
  - destruct (follow st x) as [st' |]; [apply IH | reflexivity].
Qed.

Lemma followAll_quiet (a b : list (Action Env)) :
  followAll Quiet a = Some Quiet ->
  followAll Quiet b = Some Quiet ->
  followAll Quiet (a ++ b) = Some Quiet.
Proof. intros Ha Hb. rewrite followAll_app, Ha. exact Hb. Qed.

Lemma reports_try (t : Task) ty res :
  reports (respondedEvent t ty res) res = true.
Proof.
  unfold reports. simpl. rewrite Z.eqb_refl.
  destruct (success res); reflexivity.
Qed.

Lemma try_follow ty x attempt s o tr :
  TryRun d ty x attempt s o tr -> followAll Quiet tr = Some Quiet.
Proof.
  intros H. destruct H; cbn [followAll follow];
    cbn [isResponded isCalled calledEvent type EventType_eqb];
    cbn [followAll follow];
    rewrite ?answers_try, ?reports_try; reflexivity.
Qed.

Lemma pause_follow attempt : followAll Quiet (pause d attempt) = Some Quiet.
Proof. unfold pause. destruct (attempt <? retryAttempts (options d)); reflexivity. Qed.

Lemma attempts_follow ty x remaining attempt s o tr :
  AttemptsRun d ty x remaining attempt s o tr -> followAll Quiet tr = Some Quiet.
Proof.
  intros H.
  induction H as [attempt s | remaining attempt s err tr Htry
                  | remaining attempt s r tr Htry
                  | remaining attempt s s' tr o tr' Htry Hrest IH].
  - reflexivity.
  - apply (try_follow Htry).
  - apply (try_follow Htry).
  - apply followAll_quiet; [apply (try_follow Htry) |].
    apply followAll_quiet; [apply pause_follow | exact IH].
Qed.

Lemma order_follow order s o tr :
  OrderRun d order s o tr -> followAll Quiet tr = Some Quiet.
Proof.
  intros H.
  induction H as [s | ty rest s o tr Hget Hrest IH
                  | ty rest x r s o tr Hget Hr Hrest IH
                  | ty rest x s err tr Hget Hatt
                  | ty rest x s r tr Hget Hatt
                  | ty rest x s s' tr o tr' Hget Hatt Hrest IH].
  - reflexivity.
  - exact IH.
  - exact IH.
  - apply (attempts_follow Hatt).
  - apply (attempts_follow Hatt).
  - change (followAll Quiet (tr ++ tr') = Some Quiet).
    apply followAll_quiet; [apply (attempts_follow Hatt) | exact IH].
Qed.

Lemma opening_follow now t r : followAll (Env := Env) Quiet (opening now t r) = Some Quiet.
Proof. destruct r; reflexivity. Qed.

Lemma closing_follow now s r : followAll (Env := Env) Quiet (closing now s r) = Some Quiet.
Proof. destruct r; reflexivity. Qed.

Lemma dispatch_follow t o tr :
  DispatchRun d t o tr -> followAll Quiet tr = Some Quiet.
Proof.
  intros H. destruct H;
    repeat (apply followAll_quiet);
    try apply opening_follow; try apply closing_follow;
    eapply order_follow; eassumption.
Qed.

End Protocol.

(** ** The executors of the repository *)

Section Providers.

Context {Env : Type}.
Variable host : Host Env.

Lemma providerExecutor_kind ty (api : Provider Env) :
  kind (providerExecutor host ty api) = ty.
Proof. reflexivity. Qed.

(** [execute] of a repository executor settles with a result, whatever
    the provider does, and the result bears the executor's own type. *)
Lemma providerExecutor_execute ty (api : Provider Env) t env :
  exists res env',
    execute (providerExecutor host ty api) t env = (Resolved res, env') /\
    executor res = ty /\
    (success res = false -> content res = "" /\ error res <> None).
Proof.
  simpl. destruct (newDate host env) as [startTime env1].
  destruct (complete api t env1) as [r env2].
  destruct (newDate host env2) as [endTime env3].
  eexists _, _. split; [reflexivity |].
  destruct r as [c | err]; simpl; split; try reflexivity.
  - discriminate.
  - intros _. split; [reflexivity | discriminate].
Qed.

Lemma providerExecutor_labelled ty (api : Provider Env) :
  labelled (providerExecutor host ty api).
Proof.
  intros t env res env' H.
  destruct (providerExecutor_execute ty api t env) as (res0 & env0 & Hrun & Hty & _).
  rewrite Hrun in H. injection H as <- _. exact Hty.
Qed.

(** The probe of a repository executor never throws. *)
Lemma providerExecutor_isAvailable ty (api : Provider Env) env :
  exists b env', isAvailable (providerExecutor host ty api) env = (Resolved b, env').
Proof.
  simpl. destruct (ping api env) as [r env1]. eexists _, _. reflexivity.
Qed.

Lemma CodexExecutor_labelled (api : Provider Env) :
  labelled (CodexExecutor host api) /\ kind (CodexExecutor host api) = codex.
Proof. split; [apply providerExecutor_labelled | reflexivity]. Qed.

Lemma SonnetExecutor_labelled (api : Provider Env) :
  labelled (SonnetExecutor host api) /\ kind (SonnetExecutor host api) = sonnet.
Proof. split; [apply providerExecutor_labelled | reflexivity]. Qed.

Lemma GeminiExecutor_labelled (api : Provider Env) :
  labelled (GeminiExecutor host api) /\ kind (GeminiExecutor host api) = gemini.
Proof. split; [apply providerExecutor_labelled | reflexivity]. Qed.

End Providers.

(* ================================================================== *)
(** * The claims *)
(* ================================================================== *)

Section Claims.

Context {Env : Type}.
Variable host : Host Env.

Lemma entry_inFlight now t : inFlight t (theTask (entry now t)).
Proof. split; [apply frame_written | left; reflexivity]. Qed.

Lemma order_of_started (d : Dispatcher Env) now t :
  getExecutorOrder d (started now t) = getExecutorOrder d t.
Proof. apply getExecutorOrder_frame. apply frame_written. Qed.

(** A completed dispatch, taken apart: either some back end succeeded and
    its result is returned as is, or none did and the verdict is built. *)
Lemma dispatch_resolved (d : Dispatcher Env) t res tr :
  DispatchRun d t (Resolved res) tr ->
  exists now i tr0,
    (OrderRun d (getExecutorOrder d t) (entry now t) (Resolved (Exit res)) tr0 /\
     tr = opening now t (Resolved i) ++ tr0 /\
     success (result res) = true) \/
    (exists s now' i',
     OrderRun d (getExecutorOrder d t) (entry now t) (Resolved (Continue s)) tr0 /\
     tr = opening now t (Resolved i) ++ tr0 ++ closing now' s (Resolved i') /\
     res = verdict now' s).
Proof.
  intros H. inversion H as [| | now i r tr0 Ho | | now i s tr0 now' i' Ho]; subst;
    rewrite order_of_started in Ho; exists now, i, tr0.
  - left. repeat split; try assumption.
    destruct (order_task Ho (entry_inFlight now t)) as [_ (_ & _ & Hs)]. exact Hs.
  - right. exists s, now', i'. repeat split. exact Ho.
Qed.

Lemma dispatch_attempts (d : Dispatcher Env) t res tr :
  DispatchRun d t (Resolved res) tr -> attempts res = execCalls tr.
Proof.
  intros H. apply dispatch_resolved in H.
  destruct H as (now & i & tr0 & [(Ho & -> & Hs) | (s & now' & i' & Ho & -> & ->)]);
    pose proof (order_count Ho) as Hc; simpl in Hc.
  - destruct Hc as (ty & x & j & t' & _ & _ & _ & _ & Hat & Hex & _). simpl. lia.
  - destruct Hc as [Hat Hex]. simpl. rewrite execCalls_app. simpl. lia.
Qed.

(** C1, as the code has it.  A task whose executor order is empty is not
    rejected: with a store that takes the writes, [dispatch] logs
    [task_started], then [task_failed], and returns a failed result with
    no attempt and the message "All executors failed". *)
Theorem empty_order_is_reported_as_failure (d : Dispatcher Env) t env :
  getExecutorOrder d t = [] ->
  accepts (memory d) ->
  exists res env' tr,
    run host (dispatch d t) env = (Resolved res, env', tr) /\
    attempts res = 0 /\
    success (result res) = false /\
    error (result res) = Some "All executors failed" /\
    status (task res) = failed /\
    map type (loggedEvents tr) = [task_started; task_failed].
Proof.
  intros Hempty Hacc.
  destruct (run host (dispatch d t) env) as [[o env'] tr] eqn:Hrun.
  pose proof (dispatch_run_sound _ _ _ _ Hrun) as H.
  destruct o as [res | err].
  2:{ exfalso. eapply accepts_never_refused; [exact Hacc |].
      apply dispatch_refused with (t := t). exact H. }
  exists res, env', tr. split; [reflexivity |].
  apply dispatch_resolved in H.
  destruct H as (now & i & tr0 & [(Ho & -> & Hs) | (s & now' & i' & Ho & -> & ->)]);
    rewrite Hempty in Ho; inversion Ho; subst.
  repeat split.
Qed.

(** C2, as the code has it.  The events logged for the task of a completed
    dispatch start with [task_started] and end with the only terminal
    event; every [executor_responded] comes right after its
    [executor_called]; and when no [execute] call threw and no store write
    was refused, every [executor_called] is right away followed by its
    [executor_responded].  Call by call: an accepted [executor_called]
    write is followed by the [execute] call; when that call returns, the
    next call is the write of the matching [executor_responded] event with
    the success flag and the duration of the result; when it throws, no
    [executor_responded] event is written for it. *)
Theorem history_of_a_completed_dispatch (d : Dispatcher Env) t env res env' tr :
  run host (dispatch d t) env = (Resolved res, env', tr) ->
  let evs := getTaskHistory (id t) (loggedEvents tr) in
  (exists first rest, evs = first :: rest /\ type first = task_started) /\
  (exists pre last, evs = pre ++ [last] /\ isTerminal last = true) /\
  countTerminal evs = 1 /\
  respondedAfterCalled None evs = true /\
  (allSettled tr = true -> calledThenResponded evs = true) /\
  followAll Quiet tr = Some Quiet.
Proof.
  intros Hrun evs. subst evs.
  apply dispatch_run_sound in Hrun.
  pose proof (dispatch_follow Hrun) as Hfollow.
  apply dispatch_events in Hrun.
  destruct Hrun as (first & middle & last & Hevs & Hfirst & Hlast & Hmid & Hresp & Hpair & Hid).
  rewrite (getTaskHistory_all Hid). rewrite Hevs in *.
  split; [exists first, (middle ++ [last]); split; [reflexivity | exact Hfirst] |].
  split; [exists (first :: middle), last; split; [reflexivity | exact Hlast] |].
  split; [| split; [| split]; assumption].
  change (first :: middle ++ [last]) with ([first] ++ middle ++ [last]).
  rewrite !countTerminal_app, Hmid.
  unfold countTerminal. simpl. rewrite Hlast.
  unfold isTerminal. rewrite Hfirst. reflexivity.
Qed.


(** C4, as the code has it.  When no back end succeeded, the result of a
    completed dispatch is built by [dispatch] itself: its executor is the
    task's preferred executor, or [sonnet] when the task has none; it is
    not a success; its content is empty; its error is the last error seen
    in the run or, failing that, "All executors failed"; its duration is 0;
    and the task ends [failed]. *)
Theorem verdict_when_nothing_worked (d : Dispatcher Env) t env res env' tr :
  run host (dispatch d t) env = (Resolved res, env', tr) ->
  success (result res) = false ->
  executor (result res) =
    match preferredExecutor t with Some p => p | None => sonnet end /\
  content (result res) = "" /\
  usage (result res) = None /\
  error (result res) =
    Some (match lastObservedError None tr with
          | Some e => e
          | None => "All executors failed"
          end) /\
  durationMs (result res) = 0%Z /\
  status (task res) = failed.
Proof.
  intros Hrun Hfail.
  apply dispatch_run_sound in Hrun. apply dispatch_resolved in Hrun.
  destruct Hrun as (now & i & tr0 & [(Ho & -> & Hs) | (s & now' & i' & Ho & -> & ->)]).
  - congruence.
  - destruct (order_task Ho (entry_inFlight now t)) as [_ [Hf _]].
    pose proof (order_error Ho) as He. simpl in He.
    destruct Hf as (_ & _ & _ & Hp & _).
    simpl. rewrite Hp. repeat split.
    rewrite lastObservedError_app. simpl. rewrite <- He. reflexivity.
Qed.



(** C6.  A registered back end whose probe never answers [true] in a
    dispatch (it answers [false] or throws) is never called and no
    [executor_called] event bears its name, whatever the retry count; the
    attempt count of the result is the number of calls made, none of which
    is to it.  In particular, when it is the whole order, the dispatch
    returns a result with no attempt that is not a success, and the events
    of the task are [task_started], [task_failed]. *)
Theorem unavailable_backend_is_never_tried
    (d : Dispatcher Env) t env o env' tr ty (x : Executor Env) :
  run host (dispatch d t) env = (o, env', tr) ->
  get (executors d) ty = Some x ->
  (forall r, In (AProbe x r) tr -> r <> Resolved true) ->
  (forall t' r, ~ In (AExec x t' r) tr) /\
  (forall ev, In ev (loggedEvents tr) -> type ev = executor_called ->
     executorType ev <> Some ty) /\
  (forall res, o = Resolved res -> attempts res = execCalls tr) /\
  (forall res, o = Resolved res -> getExecutorOrder d t = [ty] ->
     attempts res = 0 /\
     success (result res) = false /\
     map type (getTaskHistory (id t) (loggedEvents tr)) = [task_started; task_failed]).
Proof.
  intros Hrun Hget Hdown.
  apply dispatch_run_sound in Hrun.
  destruct (dispatch_tried Hrun) as [Px Pc].
  split; [| split; [| split]].
  - intros t' r Hin. apply (Hdown (Resolved true)); [| reflexivity].
    apply (Px _ _ _ Hin).
  - intros ev Hin Hty Hev.
    apply In_loggedEvents in Hin. destruct Hin as [i Hin].
    destruct (Pc _ _ Hin Hty) as (ty' & y & H1 & H2 & H3).
    rewrite Hev in H1. injection H1 as <-.
    rewrite Hget in H2. injection H2 as <-.
    apply (Hdown (Resolved true) H3). reflexivity.
  - intros res ->. apply (dispatch_attempts Hrun).
  - intros res -> Horder.
    apply dispatch_resolved in Hrun.
    assert (Hloop : forall now o' (tr0 : list (Action Env)),
              OrderRun d [ty] (entry now t) o' tr0 ->
              In (AProbe x (Resolved true)) tr0 \/
              (o' = Resolved (Continue (entry now t)) /\
               exists r, tr0 = [AProbe x r])).
    { intros now o' tr0 Ho. inversion Ho; subst;
        try congruence;
        try (match goal with
             | Hg : get (executors d) ty = Some ?y |- _ =>
                 rewrite Hget in Hg; injection Hg as <-
             end).
      - right.
        match goal with Hr : OrderRun d [] _ _ _ |- _ => inversion Hr; subst end.
        split; [reflexivity | eexists; reflexivity].
      - left. left. reflexivity.
      - left. left. reflexivity.
      - left. left. reflexivity. }
    destruct Hrun as (now & i & tr0 & [(Ho & -> & Hs) | (s & now' & i' & Ho & -> & ->)]);
      rewrite Horder in Ho; destruct (Hloop _ _ _ Ho) as [Hin | [Heq [r Htr]]].
    + exfalso. apply (Hdown (Resolved true)); [| reflexivity].
      apply in_or_app. right. exact Hin.
    + discriminate Heq.
    + exfalso. apply (Hdown (Resolved true)); [| reflexivity].
      apply in_or_app. right. apply in_or_app. left. exact Hin.
    + injection Heq as ->. subst tr0. simpl.
      unfold getTaskHistory. simpl. rewrite String.eqb_refl. simpl.
      repeat split.
Qed.



End Claims.

(** C10, as the code has it.  The view [getConfig] gives of a
    configuration does not depend on the characters of the API keys: two
    configurations that agree on everything else and on which keys are set
    to a non-empty string have the same view, in which every non-empty key
    reads "[REDACTED]" and every key that is absent or empty is absent. *)
Theorem getConfig_hides_the_keys (c1 c2 : OrpheusConfig) :
  memoryPath c1 = memoryPath c2 ->
  logLevel c1 = logLevel c2 ->
  planner c1 = planner c2 ->
  truthy (openaiApiKey c1) = truthy (openaiApiKey c2) ->
  truthy (anthropicApiKey c1) = truthy (anthropicApiKey c2) ->
  truthy (googleApiKey c1) = truthy (googleApiKey c2) ->
  getConfig c1 = getConfig c2 /\
  openaiApiKey (getConfig c1) =
    (if truthy (openaiApiKey c1) then Some "[REDACTED]" else None) /\
  anthropicApiKey (getConfig c1) =
    (if truthy (anthropicApiKey c1) then Some "[REDACTED]" else None) /\
  googleApiKey (getConfig c1) =
    (if truthy (googleApiKey c1) then Some "[REDACTED]" else None).
Proof.
  intros Hm Hl Hp Ho Ha Hg. split; [| repeat split].
  unfold getConfig, redact. rewrite Hm, Hl, Hp, Ho, Ha, Hg. reflexivity.
Qed.

(* ================================================================== *)
(** * The claims on the examples *)
(* ================================================================== *)

Lemma store_accepts : accepts Scenario.store.
Proof. intros ev env. exists "event-id", env. reflexivity. Qed.

(** The scenario of the specification: [sonnet] fails twice, [codex]
    succeeds at once. *)
Example fallback_scenario :
  exists res env' tr,
    run Scenario.host (dispatch Examples.fallbackDispatcher Examples.fallbackTask) 0 =
      (Resolved res, env', tr) /\
    attempts res = 3 /\ executor (result res) = codex /\
    status (task res) = completed /\
    map type (loggedEvents tr) =
      [task_started; executor_called; executor_responded; executor_called;
       executor_responded; executor_called; executor_responded; task_completed] /\
    filter (fun a => match a with ASleep _ => true | _ => false end) tr =
      [ASleep 100%Z].
Proof. eexists _, _, _. split; [reflexivity |]. repeat split. Qed.

(** An SDK error inside a repository executor is a failed try that is
    reported, not a thrown call. *)
Example provider_error_is_reported :
  exists res env' tr,
    run Scenario.host (dispatch Examples.offlineDispatcher Examples.codexTask) 0 =
      (Resolved res, env', tr) /\
    attempts res = 1 /\ executor (result res) = codex /\
    error (result res) = Some "fetch failed" /\
    map type (loggedEvents tr) =
      [task_started; executor_called; executor_responded; task_failed].
Proof. eexists _, _, _. split; [reflexivity |]. repeat split. Qed.

(** The monitor of the tries refuses an [executor_responded] event written
    for a call that threw. *)
Example report_after_a_throw_is_refused :
  let t := Examples.sonnetTask in
  let x := Scenario.throwing sonnet in
  followAll Quiet
    [ALog (calledEvent t sonnet 1) (Resolved "event-id");
     AExec x t (Rejected (ErrorObject "socket hang up"));
     ALog (respondedEvent t sonnet (Scenario.reply sonnet false)) (Resolved "event-id")]
  = None.
Proof. reflexivity. Qed.

(** C1 fails as stated: with no executor registered and none named by the
    task the order is empty, and [dispatch] returns instead of raising. *)
Lemma empty_order_raises_nothing :
  getExecutorOrder Examples.emptyDispatcher Examples.plainTask = [] /\
  ~ raisesPlanError Scenario.host Examples.emptyDispatcher Examples.plainTask 0.
Proof.
  split; [reflexivity |].
  intros (err & env' & tr & H & _). vm_compute in H. discriminate H.
Qed.

Lemma empty_order_witness :
  getExecutorOrder Examples.emptyDispatcher Examples.plainTask = [] /\
  accepts (memory Examples.emptyDispatcher) /\
  exists res env' tr,
    run Scenario.host (dispatch Examples.emptyDispatcher Examples.plainTask) 0 =
      (Resolved res, env', tr) /\
    attempts res = 0 /\
    success (result res) = false /\
    error (result res) = Some "All executors failed" /\
    status (task res) = failed /\
    map type (loggedEvents tr) = [task_started; task_failed].
Proof.
  split; [reflexivity |]. split; [exact store_accepts |].
  apply (empty_order_is_reported_as_failure Scenario.host
           Examples.emptyDispatcher Examples.plainTask 0);
    [reflexivity | exact store_accepts].
Defined.

(** C2 fails as stated: when [execute] throws, the [executor_called]
    event is followed by [task_failed], not by [executor_responded]. *)
Lemma thrown_execute_leaves_the_call_unanswered :
  exists res env' tr,
    run Scenario.host (dispatch Examples.throwingDispatcher Examples.sonnetTask) 0 =
      (Resolved res, env', tr) /\
    map type (getTaskHistory (id Examples.sonnetTask) (loggedEvents tr)) =
      [task_started; executor_called; task_failed] /\
    ~ strictHistory (getTaskHistory (id Examples.sonnetTask) (loggedEvents tr)).
Proof.
  eexists _, _, _. split; [reflexivity |]. split; [reflexivity |].
  intros (_ & _ & _ & H). vm_compute in H. discriminate H.
Qed.

Lemma history_witness :
  exists res env' tr,
    run Scenario.host (dispatch Examples.fallbackDispatcher Examples.fallbackTask) 0 =
      (Resolved res, env', tr) /\
    let evs := getTaskHistory (id Examples.fallbackTask) (loggedEvents tr) in
    (exists first rest, evs = first :: rest /\ type first = task_started) /\
    (exists pre last, evs = pre ++ [last] /\ isTerminal last = true) /\
    countTerminal evs = 1 /\
    respondedAfterCalled None evs = true /\
    (allSettled tr = true -> calledThenResponded evs = true) /\
    followAll Quiet tr = Some Quiet.
Proof.
  eexists _, _, _. split; [reflexivity |].
  eapply (history_of_a_completed_dispatch Scenario.host
           Examples.fallbackDispatcher Examples.fallbackTask 0).
  reflexivity.
Defined.


(** C4 fails as stated: a task with a fallback list and no preferred
    executor has its failure attributed to [sonnet], which is neither the
    first entry of its order nor its preferred executor. *)
Lemma failure_is_blamed_on_the_default :
  exists res env' tr,
    run Scenario.host (dispatch Examples.geminiDispatcher Examples.geminiFirstTask) 0 =
      (Resolved res, env', tr) /\
    success (result res) = false /\
    executor (result res) = sonnet /\
    ~ blamesPlanOrPreferred Examples.geminiDispatcher Examples.geminiFirstTask res.
Proof.
  eexists _, _, _. split; [reflexivity |]. split; [reflexivity |].
  split; [reflexivity |].
  intros [(rest & H) | H]; vm_compute in H; discriminate H.
Qed.

Lemma verdict_witness :
  exists res env' tr,
    run Scenario.host (dispatch Examples.hopelessDispatcher Examples.fallbackTask) 0 =
      (Resolved res, env', tr) /\
    success (result res) = false /\
    executor (result res) = sonnet /\
    content (result res) = "" /\
    usage (result res) = None /\
    error (result res) = Some "rate limited" /\
    durationMs (result res) = 0%Z /\
    status (task res) = failed.
Proof.
  eexists _, _, _. split; [reflexivity |]. split; [reflexivity |].
  exact (@verdict_when_nothing_worked _ Scenario.host
           Examples.hopelessDispatcher Examples.fallbackTask 0 _ _ _
           eq_refl eq_refl).
Defined.

Lemma unavailable_witness :
  exists o env' tr,
    run Scenario.host (dispatch Examples.downDispatcher Examples.sonnetTask) 0 =
      (o, env', tr) /\
    get (executors Examples.downDispatcher) sonnet =
      Some (Scenario.unavailable sonnet) /\
    (forall r, In (AProbe (Scenario.unavailable sonnet) r) tr -> r <> Resolved true) /\
    (forall t' r, ~ In (AExec (Scenario.unavailable sonnet) t' r) tr) /\
    (forall ev, In ev (loggedEvents tr) -> type ev = executor_called ->
       executorType ev <> Some sonnet) /\
    (forall res, o = Resolved res -> attempts res = execCalls tr) /\
    (forall res, o = Resolved res ->
       getExecutorOrder Examples.downDispatcher Examples.sonnetTask = [sonnet] ->
       attempts res = 0 /\
       success (result res) = false /\
       map type (getTaskHistory (id Examples.sonnetTask) (loggedEvents tr)) =
         [task_started; task_failed]).
Proof.
  assert (Hdown : forall r,
            In (AProbe (Scenario.unavailable sonnet) r)
               (snd (run Scenario.host
                       (dispatch Examples.downDispatcher Examples.sonnetTask) 0)) ->
            r <> Resolved true).
  { intros r Hin. simpl in Hin.
    repeat (destruct Hin as [Hin | Hin];
            [try discriminate Hin; inversion Hin; discriminate |]).
    contradiction. }
  eexists _, _, _. split; [reflexivity |]. split; [reflexivity |].
  split; [exact Hdown |].
  exact (@unavailable_backend_is_never_tried _ Scenario.host
           Examples.downDispatcher Examples.sonnetTask 0 _ _ _ sonnet
           (Scenario.unavailable sonnet) eq_refl eq_refl Hdown).
Defined.



(** C10 fails as stated: a key set to the empty string is present, yet it
    is shown as absent, so its view differs from that of a configuration
    whose key is a non-empty string. *)
Lemma empty_key_is_told_apart :
  sameKeysPresent (Examples.configWith (Some "")) (Examples.configWith (Some "sk-live-1")) /\
  getConfig (Examples.configWith (Some "")) <>
  getConfig (Examples.configWith (Some "sk-live-1")) /\
  openaiApiKey (getConfig (Examples.configWith (Some ""))) = None.
Proof.
  split; [| split; [discriminate | reflexivity]].
  unfold sameKeysPresent. simpl.
  repeat split; intros H; try discriminate H; reflexivity.
Qed.

Lemma getConfig_witness :
  getConfig (Examples.configWith (Some "sk-live-1")) =
  getConfig (Examples.configWith (Some "sk-live-2")) /\
  openaiApiKey (getConfig (Examples.configWith (Some "sk-live-1"))) = Some "[REDACTED]" /\
  anthropicApiKey (getConfig (Examples.configWith (Some "sk-live-1"))) = None /\
  googleApiKey (getConfig (Examples.configWith (Some "sk-live-1"))) = None.
Proof.
  apply (getConfig_hides_the_keys
           (Examples.configWith (Some "sk-live-1"))
           (Examples.configWith (Some "sk-live-2"))); reflexivity.
Defined.

(* ================================================================== *)
(** * Further properties *)
(* ================================================================== *)

(** ** The dispatcher: who is probed, and in which order *)

Section Probes.

Context {Env : Type}.
Variable host : Host Env.
Variable d : Dispatcher Env.

Lemma probed_app (tr tr' : list (Action Env)) :
  probed (tr ++ tr') = probed tr ++ probed tr'.
Proof.
  induction tr as [| a tr IH]; simpl; [reflexivity |].
  destruct a; simpl; rewrite IH; reflexivity.
Qed.

Lemma In_probed x r (tr : list (Action Env)) :
  In (AProbe x r) tr -> In x (probed tr).
Proof.
  induction tr as [| a tr IH]; simpl; [intros [] |].
  intros [-> | H]; [left; reflexivity |].
  destruct a; simpl; auto.
Qed.

Lemma try_probed ty x attempt s o tr :
  TryRun d ty x attempt s o tr -> probed tr = [].
Proof. intros H. destruct H; reflexivity. Qed.

Lemma pause_probed n : probed (pause d n) = [].
Proof. unfold pause. destruct (n <? _); reflexivity. Qed.

Lemma attempts_probed ty x remaining attempt s o tr :
  AttemptsRun d ty x remaining attempt s o tr -> probed tr = [].
Proof.
  intros H.
  induction H as [attempt s | remaining attempt s err tr Htry
                  | remaining attempt s r tr Htry
                  | remaining attempt s s' tr o tr' Htry Hrest IH].
  - reflexivity.
  - apply (try_probed Htry).
  - apply (try_probed Htry).
  - rewrite !probed_app, (try_probed Htry), pause_probed, IH. reflexivity.
Qed.

Lemma order_probed order s o tr :
  OrderRun d order s o tr ->
  exists rest,
    registeredOf d order = probed tr ++ rest /\
    match o with
    | Resolved (Continue _) => rest = []
    | _ => True
    end.
Proof.
  intros H.
  induction H as [s | ty rest s o tr Hget Hrest IH
                  | ty rest x r s o tr Hget Hr Hrest IH
                  | ty rest x s err tr Hget Hatt
                  | ty rest x s r tr Hget Hatt
                  | ty rest x s s' tr o tr' Hget Hatt Hrest IH];
    simpl registeredOf; rewrite ?Hget.
  - exists []. split; reflexivity.
  - exact IH.
  - destruct IH as (rest' & -> & Ho). exists rest'. split; [reflexivity | exact Ho].
  - exists (registeredOf d rest). simpl. rewrite (attempts_probed Hatt).
    split; [reflexivity | exact I].
  - exists (registeredOf d rest). simpl. rewrite (attempts_probed Hatt).
    split; [reflexivity | exact I].
  - destruct IH as (rest' & -> & Ho). exists rest'. simpl.
    rewrite probed_app, (attempts_probed Hatt). split; [reflexivity | exact Ho].
Qed.

Lemma order_succeeded order s r tr :
  OrderRun d order s (Resolved (Exit r)) tr -> success (result r) = true.
Proof.
  intros H. pose proof (order_count H) as Hc. simpl in Hc.
  destruct Hc as (ty & x & j & t & _ & _ & _ & _ & _ & _ & Hs & _). exact Hs.
Qed.

(** X1.  The executors [dispatch] probes are, in order, the registered
    back ends of the executor order, from the first one on and without a
    gap: all of them when no back end succeeded.  An executor is called
    only after it was probed; so a back end that is not in the order, the
    preferred one included, is neither probed nor called. *)
Theorem dispatch_probes_along_the_order (t : Task) env o env' tr :
  run host (dispatch d t) env = (o, env', tr) ->
  (exists rest,
     registeredOf d (getExecutorOrder d t) = probed tr ++ rest /\
     (forall res, o = Resolved res -> success (result res) = false -> rest = [])) /\
  (forall x t' r, In (AExec x t' r) tr -> In x (probed tr)).
Proof.
  intros Hrun. apply dispatch_run_sound in Hrun. split.
  - inversion Hrun as [now err Hm | now i err tr0 Ho | now i r tr0 Ho
                       | now i s tr0 now' err Ho Hm | now i s tr0 now' i' Ho]; subst;
      try (rewrite order_of_started in Ho;
           destruct (order_probed Ho) as (rest & Hreg & Hrest)).
    + exists (registeredOf d (getExecutorOrder d t)). split; [reflexivity |].
      intros res H. discriminate H.
    + exists rest. split; [exact Hreg |]. intros res H. discriminate H.
    + exists rest. split; [exact Hreg |]. intros res H Hs. injection H as <-.
      rewrite (order_succeeded Ho) in Hs. discriminate Hs.
    + exists rest. split; [| intros res H; discriminate H].
      simpl. rewrite probed_app. simpl. rewrite app_nil_r. exact Hreg.
    + exists rest. split; [| intros _ _ _; exact Hrest].
      simpl. rewrite probed_app. simpl. rewrite app_nil_r. exact Hreg.
  - intros x t' r Hin. destruct (dispatch_tried Hrun) as [Hp _].
    apply (@In_probed x (Resolved true) tr). apply (Hp _ _ _ Hin).
Qed.

End Probes.

(** ** The dispatcher with no try allowed *)

Section NoTries.

Context {Env : Type}.
Variable host : Host Env.
Variable d : Dispatcher Env.

Lemma attempts_zero ty x attempt s o tr :
  AttemptsRun d ty x 0 attempt s o tr -> o = Resolved (Continue s) /\ tr = [].
Proof. intros H. inversion H; subst. split; reflexivity. Qed.

Lemma order_zero order s o tr :
  retryAttempts (options d) = 0 ->
  OrderRun d order s o tr ->
  o = Resolved (Continue s) /\ execCalls tr = 0 /\ offeredEvents tr = [].
Proof.
  intros HR H.
  induction H as [s | ty rest s o tr Hget Hrest IH
                  | ty rest x r s o tr Hget Hr Hrest IH
                  | ty rest x s err tr Hget Hatt
                  | ty rest x s r tr Hget Hatt
                  | ty rest x s s' tr o tr' Hget Hatt Hrest IH];
    try (rewrite HR in Hatt; apply attempts_zero in Hatt; destruct Hatt as [Ho ->]).
  - repeat split.
  - exact IH.
  - exact IH.
  - discriminate Ho.
  - discriminate Ho.
  - injection Ho as <-. exact IH.
Qed.

(** X7.  A retry count of 0 is kept as it is by the constructor (only a
    missing count is replaced by 3), and with it [dispatch] calls no
    executor: it only probes, writes [task_started] and [task_failed],
    and returns a failure with no attempt and the message "All executors
    failed". *)
Theorem no_try_is_made_with_zero_retries (t : Task) env o env' tr :
  retryAttempts (options d) = 0 ->
  run host (dispatch d t) env = (o, env', tr) ->
  execCalls tr = 0 /\
  (forall ev, In ev (offeredEvents tr) ->
     type ev = task_started \/ type ev = task_failed) /\
  (forall res, o = Resolved res ->
     attempts res = 0 /\
     success (result res) = false /\
     error (result res) = Some allFailedMessage /\
     map type (loggedEvents tr) = [task_started; task_failed]).
Proof.
  intros HR Hrun. apply dispatch_run_sound in Hrun.
  inversion Hrun as [now err Hm | now i err tr0 Ho | now i r tr0 Ho
                     | now i s tr0 now' err Ho Hm | now i s tr0 now' i' Ho]; subst;
    try (destruct (order_zero HR Ho) as (Hcont & Hex & Hoff); try discriminate Hcont).
  - split; [reflexivity |]. split; [| intros res H; discriminate H].
    intros ev [<- | []]. left. reflexivity.
  - injection Hcont as ->.
    split; [simpl; rewrite execCalls_app, Hex; reflexivity |].
    split; [| intros res H; discriminate H].
    intros ev Hin. simpl in Hin. rewrite offeredEvents_app, Hoff in Hin.
    destruct Hin as [<- | [<- | []]]; [left | right]; reflexivity.
  - injection Hcont as ->.
    split; [simpl; rewrite execCalls_app, Hex; reflexivity |].
    split.
    + intros ev Hin. simpl in Hin. rewrite offeredEvents_app, Hoff in Hin.
      destruct Hin as [<- | [<- | []]]; [left | right]; reflexivity.
    + intros res H. injection H as <-.
      assert (Hlog : loggedEvents tr0 = []).
      { clear - Hoff. induction tr0 as [| a tr0 IH]; [reflexivity |].
        destruct a as [ev r | | | | |]; simpl in *; try (apply IH; exact Hoff).
        discriminate Hoff. }
      repeat split.
      simpl. rewrite loggedEvents_app, Hlog. reflexivity.
Qed.

(** [createDispatcher] replaces a missing retry count only. *)
Lemma createDispatcher_keeps_zero (ex : ExecutorMap Env) mem delay :
  retryAttempts (options (createDispatcher ex mem (Some 0) delay)) = 0.
Proof. reflexivity. Qed.

End NoTries.

(** ** The writes that can make [dispatch] throw *)

Section RefusedWrites.

Context {Env : Type}.
Variable host : Host Env.
Variable d : Dispatcher Env.

Lemma refusedWrites_app (tr tr' : list (Action Env)) :
  refusedWrites (tr ++ tr') = refusedWrites tr ++ refusedWrites tr'.
Proof.
  induction tr as [| a tr IH]; simpl; [reflexivity |].
  destruct a as [ev [i | err] | | | | |]; simpl; rewrite IH; reflexivity.
Qed.

Lemma endsWithRefusal_app types err (pre tr : list (Action Env)) :
  endsWithRefusal types err tr -> endsWithRefusal types err (pre ++ tr).
Proof.
  intros (p & ev & -> & Hin). exists (pre ++ p), ev.
  split; [rewrite app_assoc; reflexivity | exact Hin].
Qed.

Lemma endsWithRefusal_cons types err a (tr : list (Action Env)) :
  endsWithRefusal types err tr -> endsWithRefusal types err (a :: tr).
Proof. intros H. apply (endsWithRefusal_app [a]). exact H. Qed.

Lemma endsWithRefusal_more types types' err (tr : list (Action Env)) :
  incl types types' -> endsWithRefusal types err tr -> endsWithRefusal types' err tr.
Proof. intros Hi (p & ev & -> & Hin). exists p, ev. split; [reflexivity | auto]. Qed.

Lemma try_thrown ty x attempt s o tr :
  TryRun d ty x attempt s o tr ->
  match o with
  | Rejected err => endsWithRefusal [executor_called] err tr
  | _ => True
  end.
Proof.
  intros H. destruct H; simpl; try exact I.
  eexists [], _. split; [reflexivity | left; reflexivity].
Qed.

Lemma attempts_thrown ty x remaining attempt s o tr :
  AttemptsRun d ty x remaining attempt s o tr ->
  match o with
  | Rejected err => endsWithRefusal [executor_called] err tr
  | _ => True
  end.
Proof.
  intros H.
  induction H as [attempt s | remaining attempt s err tr Htry
                  | remaining attempt s r tr Htry
                  | remaining attempt s s' tr o tr' Htry Hrest IH].
  - exact I.
  - apply (try_thrown Htry).
  - exact I.
  - destruct o as [f | err]; [exact I |].
    apply endsWithRefusal_app. apply endsWithRefusal_app. exact IH.
Qed.

Lemma order_thrown order s o tr :
  OrderRun d order s o tr ->
  match o with
  | Rejected err => endsWithRefusal [executor_called] err tr
  | _ => True
  end.
Proof.
  intros H.
  induction H as [s | ty rest s o tr Hget Hrest IH
                  | ty rest x r s o tr Hget Hr Hrest IH
                  | ty rest x s err tr Hget Hatt
                  | ty rest x s r tr Hget Hatt
                  | ty rest x s s' tr o tr' Hget Hatt Hrest IH].
  - exact I.
  - exact IH.
  - destruct o as [f | err]; [exact I |]. apply endsWithRefusal_cons. exact IH.
  - apply endsWithRefusal_cons. apply (attempts_thrown Hatt).
  - exact I.
  - destruct o as [f | err]; [exact I |].
    apply endsWithRefusal_cons. apply endsWithRefusal_app. exact IH.
Qed.

Lemma refusal_is_listed types err (tr : list (Action Env)) :
  endsWithRefusal types err tr -> exists ty, In ty types /\ In ty (refusedWrites tr).
Proof.
  intros (pre & ev & -> & Hin). exists (type ev). split; [exact Hin |].
  rewrite refusedWrites_app. apply in_or_app. right. left. reflexivity.
Qed.

Lemma dispatch_thrown t err tr :
  DispatchRun d t (Rejected err) tr ->
  endsWithRefusal [task_started; executor_called; task_failed] err tr.
Proof.
  intros Hrun.
  inversion Hrun as [now err' Hm | now i err' tr0 Ho | | now i s tr0 now' err' Ho Hm |];
    subst.
  - eexists [_; _], _. split; [reflexivity | left; reflexivity].
  - apply endsWithRefusal_app.
    apply endsWithRefusal_more with (types := [executor_called]).
    + intros ty [<- | []]. right. left. reflexivity.
    + apply (order_thrown Ho).
  - apply endsWithRefusal_app. apply endsWithRefusal_app.
    eexists [_; _], _. split; [reflexivity | right; right; left; reflexivity].
Qed.


End RefusedWrites.

(** ** The time spent waiting *)

Section Delays.

Context {Env : Type}.
Variable host : Host Env.
Variable d : Dispatcher Env.

Lemma totalDelay_app (tr tr' : list (Action Env)) :
  totalDelay (tr ++ tr') = (totalDelay tr + totalDelay tr')%Z.
Proof.
  induction tr as [| a tr IH]; simpl; [reflexivity |].
  destruct a; simpl; rewrite ?IH; lia.
Qed.

Lemma try_delay ty x attempt s o tr :
  TryRun d ty x attempt s o tr -> totalDelay tr = 0%Z.
Proof. intros H. destruct H; reflexivity. Qed.

Lemma pause_delay n :
  totalDelay (pause d n) = (if (n <? (retryAttempts (options d)))%nat then (retryDelayMs (options d)) * Z.of_nat n else 0)%Z.
Proof. unfold pause. destruct (n <? (retryAttempts (options d))); simpl; lia. Qed.

Lemma owedDelay_nonneg delay retries remaining : forall attempt,
  (0 <= delay)%Z -> (0 <= owedDelay delay retries remaining attempt)%Z.
Proof.
  induction remaining as [| remaining IH]; intros attempt Hd; cbn [owedDelay]; [lia |].
  specialize (IH (S attempt) Hd).
  destruct (attempt <? retries); nia.
Qed.

(** The pauses of a back end all of whose tries fail: the delay times
    [1 + 2 + ... + (retries - 1)]. *)
Lemma owedDelay_from delay retries remaining : forall attempt,
  attempt + S remaining = S retries ->
  (2 * owedDelay delay retries (S remaining) attempt =
   delay * (Z.of_nat retries * (Z.of_nat retries - 1) -
            Z.of_nat attempt * (Z.of_nat attempt - 1)))%Z.
Proof.
  induction remaining as [| remaining IH]; intros attempt Hsum.
  - assert (attempt = retries) as -> by lia.
    cbn [owedDelay]. rewrite Nat.ltb_irrefl. ring.
  - specialize (IH (S attempt) ltac:(lia)).
    change (owedDelay delay retries (S (S remaining)) attempt)
      with ((if (attempt <? retries)%nat then delay * Z.of_nat attempt else 0) +
            owedDelay delay retries (S remaining) (S attempt))%Z.
    destruct (Nat.ltb_spec attempt retries) as [Hlt | Hge]; [| lia].
    rewrite Nat2Z.inj_succ in IH. nia.
Qed.

Lemma owedDelay_all delay retries :
  (2 * owedDelay delay retries retries 1 =
   delay * Z.of_nat retries * (Z.of_nat retries - 1))%Z.
Proof.
  destruct retries as [| n]; [cbn [owedDelay]; ring |].
  rewrite (@owedDelay_from delay (S n) n 1) by lia. change (Z.of_nat 1) with 1%Z. ring.
Qed.

Lemma attempts_delay ty x remaining attempt s o tr :
  AttemptsRun d ty x remaining attempt s o tr ->
  ((0 <= (retryDelayMs (options d)))%Z -> (0 <= totalDelay tr <= owedDelay (retryDelayMs (options d)) (retryAttempts (options d)) remaining attempt)%Z) /\
  match o with
  | Resolved (Continue _) => totalDelay tr = owedDelay (retryDelayMs (options d)) (retryAttempts (options d)) remaining attempt
  | _ => True
  end.
Proof.
  intros H.
  induction H as [attempt s | remaining attempt s err tr Htry
                  | remaining attempt s r tr Htry
                  | remaining attempt s s' tr o tr' Htry Hrest IH].
  - split; [simpl; lia | reflexivity].
  - rewrite (try_delay Htry). split; [| exact I].
    intros Hd. pose proof (@owedDelay_nonneg (retryDelayMs (options d)) (retryAttempts (options d)) (S remaining) attempt Hd). lia.
  - rewrite (try_delay Htry). split; [| exact I].
    intros Hd. pose proof (@owedDelay_nonneg (retryDelayMs (options d)) (retryAttempts (options d)) (S remaining) attempt Hd). lia.
  - destruct IH as [Hbound Heq].
    rewrite !totalDelay_app, (try_delay Htry), pause_delay.
    change (owedDelay (retryDelayMs (options d)) (retryAttempts (options d)) (S remaining) attempt)
      with ((if (attempt <? (retryAttempts (options d)))%nat then (retryDelayMs (options d)) * Z.of_nat attempt else 0) +
            owedDelay (retryDelayMs (options d)) (retryAttempts (options d)) remaining (S attempt))%Z.
    split.
    + intros Hd. specialize (Hbound Hd). destruct (attempt <? (retryAttempts (options d))); nia.
    + destruct o as [[r | s''] | err]; try exact I. rewrite Heq. lia.
Qed.

Lemma order_delay order s o tr :
  OrderRun d order s o tr ->
  ((0 <= (retryDelayMs (options d)))%Z ->
   (0 <= totalDelay tr <= Z.of_nat (availableProbes tr) * owedDelay (retryDelayMs (options d)) (retryAttempts (options d)) (retryAttempts (options d)) 1)%Z) /\
  match o with
  | Resolved (Continue _) =>
      totalDelay tr = (Z.of_nat (availableProbes tr) * owedDelay (retryDelayMs (options d)) (retryAttempts (options d)) (retryAttempts (options d)) 1)%Z
  | _ => True
  end.
Proof.
  intros H.
  induction H as [s | ty rest s o tr Hget Hrest IH
                  | ty rest x r s o tr Hget Hr Hrest IH
                  | ty rest x s err tr Hget Hatt
                  | ty rest x s r tr Hget Hatt
                  | ty rest x s s' tr o tr' Hget Hatt Hrest IH].
  - split; [simpl; lia | reflexivity].
  - exact IH.
  - assert (Hsame : availableProbes (AProbe x r :: tr) = availableProbes tr).
    { destruct r as [[|] | e]; [exfalso; apply Hr |  |]; reflexivity. }
    rewrite Hsame. exact IH.
  - destruct (attempts_delay Hatt) as [Hb _].
    destruct (attempts_count Hatt) as [Hp _].
    simpl availableProbes. simpl totalDelay. rewrite Hp. split; [| exact I].
    intros Hd. specialize (Hb Hd). lia.
  - destruct (attempts_delay Hatt) as [Hb _].
    destruct (attempts_count Hatt) as [Hp _].
    simpl availableProbes. simpl totalDelay. rewrite Hp. split; [| exact I].
    intros Hd. specialize (Hb Hd). lia.
  - destruct (attempts_delay Hatt) as [Hb He]. simpl in He.
    destruct (attempts_count Hatt) as [Hp _].
    destruct IH as [Hb' He'].
    simpl availableProbes. simpl totalDelay.
    rewrite totalDelay_app, availableProbes_app, Hp, He. split.
    + intros Hd. specialize (Hb' Hd).
      pose proof (@owedDelay_nonneg (retryDelayMs (options d)) (retryAttempts (options d)) (retryAttempts (options d)) 1 Hd). nia.
    + destruct o as [[r | s''] | err]; try exact I. rewrite He'. lia.
Qed.

Lemma delay_around now t r0 (tr : list (Action Env)) now' s r1 :
  totalDelay (opening now t r0 ++ tr) = totalDelay tr /\
  availableProbes (opening now t r0 ++ tr) = availableProbes tr /\
  totalDelay (opening now t r0 ++ tr ++ closing now' s r1) = totalDelay tr /\
  availableProbes (opening now t r0 ++ tr ++ closing now' s r1) = availableProbes tr.
Proof.
  unfold opening, closing. cbn [app totalDelay availableProbes].
  rewrite totalDelay_app, availableProbes_app.
  cbn [totalDelay availableProbes]. repeat split; lia.
Qed.

Lemma doubled_bound (T P W K : Z) :
  (2 * W = K)%Z -> (0 <= T <= P * W)%Z -> (0 <= 2 * T <= P * K)%Z.
Proof.
  intros <- H. replace (P * (2 * W))%Z with (2 * (P * W))%Z by ring. lia.
Qed.

Lemma doubled_equal (T P W K : Z) :
  (2 * W = K)%Z -> T = (P * W)%Z -> (2 * T = P * K)%Z.
Proof. intros <- ->. ring. Qed.

Lemma dispatch_delay (t : Task) o tr :
  DispatchRun d t o tr ->
  ((0 <= retryDelayMs (options d))%Z ->
   (0 <= 2 * totalDelay tr <=
    Z.of_nat (availableProbes tr) *
    (retryDelayMs (options d) * Z.of_nat (retryAttempts (options d)) *
     (Z.of_nat (retryAttempts (options d)) - 1)))%Z) /\
  (forall res, o = Resolved res -> success (result res) = false ->
     (2 * totalDelay tr =
      Z.of_nat (availableProbes tr) *
      (retryDelayMs (options d) * Z.of_nat (retryAttempts (options d)) *
       (Z.of_nat (retryAttempts (options d)) - 1)))%Z).
Proof.
  intros Hrun.
  pose proof (owedDelay_all (retryDelayMs (options d)) (retryAttempts (options d)))
    as Hall.
  inversion Hrun as [now err Hm | now i err tr0 Ho | now i r tr0 Ho
                     | now i s tr0 now' err Ho Hm | now i s tr0 now' i' Ho]; subst;
    try (destruct (order_delay Ho) as [Hb He]).
  - split; [| intros res H; discriminate H].
    intros Hd. cbn [opening totalDelay availableProbes]. nia.
  - destruct (delay_around now t (Resolved i) tr0 0%Z (entry now t) (Resolved i))
      as (-> & -> & _).
    split; [| intros res H; discriminate H].
    intros Hd. apply (@doubled_bound _ _ _ _ Hall (Hb Hd)).
  - destruct (delay_around now t (Resolved i) tr0 0%Z (entry now t) (Resolved i))
      as (-> & -> & _).
    split; [intros Hd; apply (@doubled_bound _ _ _ _ Hall (Hb Hd)) |].
    intros res H Hs. injection H as <-.
    rewrite (order_succeeded Ho) in Hs. discriminate Hs.
  - destruct (delay_around now t (Resolved i) tr0 now' s (Rejected (A := string) err))
      as (_ & _ & -> & ->).
    split; [| intros res H; discriminate H].
    intros Hd. apply (@doubled_bound _ _ _ _ Hall (Hb Hd)).
  - destruct (delay_around now t (Resolved i) tr0 now' s (Resolved i'))
      as (_ & _ & -> & ->).
    simpl in He.
    split; [intros Hd; apply (@doubled_bound _ _ _ _ Hall (Hb Hd)) |].
    intros res _ _. apply (@doubled_equal _ _ _ _ Hall He).
Qed.


End Delays.

(** ** The last write of a dispatch *)

Section LastWrite.

Context {Env : Type}.
Variable host : Host Env.
Variable d : Dispatcher Env.

Lemma try_last ty x attempt s o tr :
  TryRun d ty x attempt s o tr ->
  match o with
  | Resolved (Exit r) =>
      exists pre i,
        tr = pre ++ [ALog (completedEvent (task r) ty (attempts r)) (Resolved i)]
  | _ => True
  end.
Proof.
  intros H. destruct H; simpl; try exact I.
  eexists [_; _; _; _; _], _. reflexivity.
Qed.

Lemma attempts_last ty x remaining attempt s o tr :
  AttemptsRun d ty x remaining attempt s o tr ->
  match o with
  | Resolved (Exit r) =>
      exists pre i,
        tr = pre ++ [ALog (completedEvent (task r) ty (attempts r)) (Resolved i)]
  | _ => True
  end.
Proof.
  intros H.
  induction H as [attempt s | remaining attempt s err tr Htry
                  | remaining attempt s r tr Htry
                  | remaining attempt s s' tr o tr' Htry Hrest IH].
  - exact I.
  - exact I.
  - apply (try_last Htry).
  - destruct o as [[r | s''] | err]; try exact I.
    destruct IH as (pre & i & ->). exists (tr ++ pause d attempt ++ pre), i.
    rewrite <- !app_assoc. reflexivity.
Qed.

Lemma order_last order s o tr :
  OrderRun d order s o tr ->
  match o with
  | Resolved (Exit r) =>
      exists ty pre i,
        In ty order /\
        tr = pre ++ [ALog (completedEvent (task r) ty (attempts r)) (Resolved i)]
  | _ => True
  end.
Proof.
  intros H.
  induction H as [s | ty rest s o tr Hget Hrest IH
                  | ty rest x r s o tr Hget Hr Hrest IH
                  | ty rest x s err tr Hget Hatt
                  | ty rest x s r tr Hget Hatt
                  | ty rest x s s' tr o tr' Hget Hatt Hrest IH].
  - exact I.
  - destruct o as [[r | s''] | err]; try exact I.
    destruct IH as (ty' & pre & i & Hin & ->). exists ty', pre, i.
    split; [right; exact Hin | reflexivity].
  - destruct o as [[r' | s''] | err]; try exact I.
    destruct IH as (ty' & pre & i & Hin & ->). exists ty', (AProbe x r :: pre), i.
    split; [right; exact Hin | reflexivity].
  - exact I.
  - destruct (attempts_last Hatt) as (pre & i & ->).
    exists ty, (AProbe x (Resolved true) :: pre), i.
    split; [left; reflexivity | reflexivity].
  - destruct o as [[r | s''] | err]; try exact I.
    destruct IH as (ty' & pre & i & Hin & ->).
    exists ty', (AProbe x (Resolved true) :: tr ++ pre), i.
    split; [right; exact Hin |]. simpl. rewrite <- app_assoc. reflexivity.
Qed.

(** X5.  The last call of a dispatch that returns is the write of the
    terminal event, and the store accepted it.  For a success it is
    [task_completed], carrying a type of the executor order and the
    attempt count of the result; otherwise it is [task_failed], carrying
    the error message and the attempt count of the result.  Nothing is
    probed, called or written after it. *)
Theorem terminal_event_is_written_last (t : Task) env res env' tr :
  run host (dispatch d t) env = (Resolved res, env', tr) ->
  exists pre ev i,
    tr = pre ++ [ALog ev (Resolved i)] /\
    taskId ev = Some (id t) /\
    if success (result res)
    then exists ty,
           In ty (getExecutorOrder d t) /\
           ev = completedEvent (task res) ty (attempts res)
    else exists msg,
           error (result res) = Some msg /\
           ev = failedEvent (task res) msg (attempts res).
Proof.
  intros Hrun. apply dispatch_run_sound in Hrun.
  pose proof (dispatch_resolved Hrun) as Hcases.
  destruct Hcases as (now & i & tr0 &
    [(Ho & -> & Hs) | (s & now' & i' & Ho & -> & ->)]).
  - destruct (order_last Ho) as (ty & pre & j & Hin & ->).
    exists (opening now t (Resolved i) ++ pre),
      (completedEvent (task res) ty (attempts res)), j.
    split; [rewrite <- app_assoc; reflexivity |].
    destruct (order_task Ho (entry_inFlight now t)) as [_ ((Hid & _) & _)].
    split; [simpl; rewrite Hid; reflexivity |].
    rewrite Hs. exists ty. split; [exact Hin | reflexivity].
  - exists (opening now t (Resolved i) ++ tr0 ++ [AStatus failed; ANow now']),
      (failedEventOf now' s), i'.
    split; [unfold closing; rewrite <- !app_assoc; reflexivity |].
    destruct (order_task Ho (entry_inFlight now t)) as [_ Hfl]. simpl in Hfl.
    destruct Hfl as [(Hid & _) _].
    split; [simpl; rewrite Hid; reflexivity |].
    simpl. eexists. split; reflexivity.
Qed.

End LastWrite.

(** ** The registry of executors *)

Section Registry.

Context {Env : Type}.

Lemma get_set_same (m : ExecutorMap Env) key x : get (set m key x) key = Some x.
Proof.
  induction m as [| [k y] m IH]; simpl.
  - rewrite ExecutorType_eqb_refl. reflexivity.
  - destruct (ExecutorType_eqb k key) eqn:E; simpl; rewrite E; [reflexivity | exact IH].
Qed.

Lemma get_set_other (m : ExecutorMap Env) key x ty :
  ty <> key -> get (set m key x) ty = get m ty.
Proof.
  intros Hne. induction m as [| [k y] m IH]; simpl.
  - destruct (ExecutorType_eqb key ty) eqn:E; [| reflexivity].
    apply ExecutorType_eqb_eq in E. congruence.
  - destruct (ExecutorType_eqb k key) eqn:E; simpl.
    + apply ExecutorType_eqb_eq in E. subst k.
      destruct (ExecutorType_eqb key ty) eqn:E'; [| reflexivity].
      apply ExecutorType_eqb_eq in E'. congruence.
    + rewrite IH. reflexivity.
Qed.

Lemma keys_set (m : ExecutorMap Env) key x :
  keys (set m key x) =
  if existsb (fun k => ExecutorType_eqb k key) (keys m) then keys m
  else keys m ++ [key].
Proof.
  unfold keys. induction m as [| [k y] m IH]; simpl; [reflexivity |].
  destruct (ExecutorType_eqb k key) eqn:E; simpl; [reflexivity |].
  rewrite IH. destruct (existsb _ (map fst m)); reflexivity.
Qed.

Lemma existsb_eqb_In key (l : list ExecutorType) :
  existsb (fun k => ExecutorType_eqb k key) l = true <-> In key l.
Proof.
  rewrite existsb_exists. split.
  - intros (k & Hin & E). apply ExecutorType_eqb_eq in E. subst k. exact Hin.
  - intros Hin. exists key. split; [exact Hin | apply ExecutorType_eqb_refl].
Qed.

Lemma NoDup_keys_set (m : ExecutorMap Env) key x :
  NoDup (keys m) -> NoDup (keys (set m key x)).
Proof.
  intros Hnd. rewrite keys_set.
  destruct (existsb _ (keys m)) eqn:E; [exact Hnd |].
  apply NoDup_app; [exact Hnd | repeat constructor; intros [] |].
  - intros k Hin [<- | []].
    apply existsb_eqb_In in Hin. rewrite Hin in E. discriminate E.
Qed.

(** X10.  [registerExecutor] files the executor under its own type: a
    lookup of that type now gives this executor, every other type is
    looked up as before, and [getRegisteredExecutors] lists the type at the
    place it had, or last when it is new; no type is ever listed twice.
    The store and the retry options are left as they were. *)
Theorem registerExecutor_files_under_own_type (d : Dispatcher Env) (x : Executor Env) :
  get (executors (registerExecutor d x)) (kind x) = Some x /\
  (forall ty, ty <> kind x ->
     get (executors (registerExecutor d x)) ty = get (executors d) ty) /\
  getRegisteredExecutors (registerExecutor d x) =
    (if existsb (fun k => ExecutorType_eqb k (kind x)) (getRegisteredExecutors d)
     then getRegisteredExecutors d
     else getRegisteredExecutors d ++ [kind x]) /\
  (NoDup (getRegisteredExecutors d) ->
   NoDup (getRegisteredExecutors (registerExecutor d x))) /\
  memory (registerExecutor d x) = memory d /\
  options (registerExecutor d x) = options d.
Proof.
  unfold registerExecutor, getRegisteredExecutors. simpl.
  split; [apply get_set_same |].
  split; [intros ty Hne; apply get_set_other; exact Hne |].
  split; [apply keys_set |].
  split; [apply NoDup_keys_set |].
  split; reflexivity.
Qed.

End Registry.

(** ** Tasks dispatched one at a time *)

Section OneByOne.

Context {Env : Type}.
Variable host : Host Env.
Variable d : Dispatcher Env.

Lemma startedTasks_app (tr tr' : list (Action Env)) :
  startedTasks (tr ++ tr') = startedTasks tr ++ startedTasks tr'.
Proof.
  unfold startedTasks. rewrite offeredEvents_app, filter_app, map_app. reflexivity.
Qed.

Lemma try_started ty x attempt s o tr :
  TryRun d ty x attempt s o tr -> startedTasks tr = [].
Proof. intros H. destruct H; reflexivity. Qed.

Lemma pause_started n : startedTasks (pause d n) = [].
Proof. unfold pause. destruct (n <? _); reflexivity. Qed.

Lemma attempts_started ty x remaining attempt s o tr :
  AttemptsRun d ty x remaining attempt s o tr -> startedTasks tr = [].
Proof.
  intros H.
  induction H as [attempt s | remaining attempt s err tr Htry
                  | remaining attempt s r tr Htry
                  | remaining attempt s s' tr o tr' Htry Hrest IH].
  - reflexivity.
  - apply (try_started Htry).
  - apply (try_started Htry).
  - rewrite !startedTasks_app, (try_started Htry), pause_started, IH. reflexivity.
Qed.

Lemma order_started order s o tr :
  OrderRun d order s o tr -> startedTasks tr = [].
Proof.
  intros H.
  induction H as [s | ty rest s o tr Hget Hrest IH
                  | ty rest x r s o tr Hget Hr Hrest IH
                  | ty rest x s err tr Hget Hatt
                  | ty rest x s r tr Hget Hatt
                  | ty rest x s s' tr o tr' Hget Hatt Hrest IH].
  - reflexivity.
  - exact IH.
  - exact IH.
  - apply (attempts_started Hatt).
  - apply (attempts_started Hatt).
  - change (startedTasks (tr ++ tr') = []).
    rewrite startedTasks_app, (attempts_started Hatt), IH. reflexivity.
Qed.

(** A dispatch hands one [task_started] event to the store, for its task. *)
Lemma dispatch_started t o tr :
  DispatchRun d t o tr -> startedTasks tr = [Some (id t)].
Proof.
  intros H.
  inversion H as [now err Hm | now i err tr0 Ho | now i r tr0 Ho
                  | now i s tr0 now' err Ho Hm | now i s tr0 now' i' Ho]; subst;
    rewrite ?startedTasks_app, ?(order_started Ho); reflexivity.
Qed.

Lemma dispatchEach_started tasks : forall acc o tr,
  Path (dispatchEach d tasks acc) o tr ->
  exists k,
    startedTasks tr = map (fun t => Some (id t)) (firstn k tasks) /\
    match o with
    | Resolved rs => k = List.length tasks /\ List.length rs = List.length acc + k
    | Rejected err =>
        1 <= k <= List.length tasks /\
        endsWithRefusal [task_started; executor_called; task_failed] err tr
    end.
Proof.
  induction tasks as [| t rest IH]; intros acc o tr H.
  - apply Path_ret_inv in H. destruct H as [-> ->]. exists 0.
    split; [reflexivity |]. split; [reflexivity | simpl; lia].
  - cbn [dispatchEach] in H. apply Path_bind_inv in H.
    destruct H as [(err & -> & Hp) | (r & tr1 & tr2 & -> & Hp & Hk)].
    + apply dispatch_sound in Hp. exists 1.
      split; [apply (dispatch_started Hp) |].
      split; [simpl; lia | apply (dispatch_thrown Hp)].
    + apply dispatch_sound in Hp. destruct (IH _ _ _ Hk) as (k & Hst & Ho).
      exists (S k). rewrite startedTasks_app, (dispatch_started Hp), Hst.
      split; [reflexivity |].
      destruct o as [rs | err].
      * destruct Ho as [-> Hlen]. split; [reflexivity |].
        rewrite Hlen, length_app. simpl. lia.
      * destruct Ho as [Hk' Href]. split; [simpl; lia |].
        apply endsWithRefusal_app. exact Href.
Qed.


End OneByOne.

(** ** Executors that never throw *)

Section NeverThrows.

Context {Env : Type}.
Variable host : Host Env.
Variable d : Dispatcher Env.

Hypothesis store_accepts_all : accepts (memory d).
Hypothesis registered_never_throw :
  forall ty x, get (executors d) ty = Some x -> neverThrows x.

Lemma no_refusal ev err : ~ mayReject d ev err.
Proof.
  intros (env0 & env1 & H).
  destruct (store_accepts_all ev env0) as (i & env2 & H'). congruence.
Qed.

Lemma no_throw ty x t err :
  get (executors d) ty = Some x -> ~ maySettle x t (Rejected err).
Proof.
  intros Hget (env0 & env1 & H).
  destruct (registered_never_throw _ Hget t env0) as (res & env2 & H'). congruence.
Qed.

Lemma try_settled ty x attempt s o tr :
  get (executors d) ty = Some x ->
  TryRun d ty x attempt s o tr -> allSettled tr = true.
Proof.
  intros Hget H. destruct H; try reflexivity; exfalso;
    first [ eapply no_refusal; eassumption
          | eapply (@no_throw ty x); eassumption ].
Qed.

Lemma attempts_settled ty x remaining attempt s o tr :
  get (executors d) ty = Some x ->
  AttemptsRun d ty x remaining attempt s o tr -> allSettled tr = true.
Proof.
  intros Hget H.
  induction H as [attempt s | remaining attempt s err tr Htry
                  | remaining attempt s r tr Htry
                  | remaining attempt s s' tr o tr' Htry Hrest IH].
  - reflexivity.
  - apply (try_settled Hget Htry).
  - apply (try_settled Hget Htry).
  - rewrite !allSettled_app, (try_settled Hget Htry), allSettled_pause, IH.
    reflexivity.
Qed.

Lemma allSettled_probe x r (tr : list (Action Env)) :
  allSettled (AProbe x r :: tr) = allSettled tr.
Proof. reflexivity. Qed.

Lemma order_settled order s o tr :
  OrderRun d order s o tr -> allSettled tr = true.
Proof.
  intros H.
  induction H as [s | ty rest s o tr Hget Hrest IH
                  | ty rest x r s o tr Hget Hr Hrest IH
                  | ty rest x s err tr Hget Hatt
                  | ty rest x s r tr Hget Hatt
                  | ty rest x s s' tr o tr' Hget Hatt Hrest IH];
    rewrite ?allSettled_probe.
  - reflexivity.
  - exact IH.
  - exact IH.
  - apply (attempts_settled Hget Hatt).
  - apply (attempts_settled Hget Hatt).
  - rewrite allSettled_app, (attempts_settled Hget Hatt), IH. reflexivity.
Qed.

Lemma dispatch_settled t res tr :
  DispatchRun d t (Resolved res) tr -> allSettled tr = true.
Proof.
  intros H.
  inversion H as [| | now i r tr0 Ho | | now i s tr0 now' i' Ho]; subst;
    unfold opening, closing; cbn [app allSettled];
    rewrite ?allSettled_app, (order_settled Ho); reflexivity.
Qed.


End NeverThrows.

(** ** The first write of a dispatch *)

Section FirstWrite.

Context {Env : Type}.
Variable host : Host Env.
Variable d : Dispatcher Env.

Lemma slice0_prefix n : forall s,
  exists tail,
    s = String.append (slice0 n s) tail /\
    String.length (slice0 n s) = Nat.min n (String.length s).
Proof.
  unfold slice0. induction n as [| n IH]; intros s.
  - exists s. destruct s; split; reflexivity.
  - destruct s as [| c s].
    + exists EmptyString. split; reflexivity.
    + destruct (IH s) as (tail & Hs & Hl). exists tail. simpl.
      split; [rewrite <- Hs; reflexivity | rewrite Hl; reflexivity].
Qed.

(** X6.  Whatever happens next, a dispatch begins by marking the task
    [running], reading the clock and handing the store a [task_started]
    event for the task, whose payload is the first 100 characters of the
    prompt: the whole prompt when it is no longer than that. *)
Theorem dispatch_begins_with_task_started (t : Task) env o env' tr :
  run host (dispatch d t) env = (o, env', tr) ->
  exists now ev r rest head tail,
    tr = AStatus running :: ANow now :: ALog ev r :: rest /\
    type ev = task_started /\
    taskId ev = Some (id t) /\
    payload ev = PStarted head /\
    prompt t = String.append head tail /\
    String.length head = Nat.min 100 (String.length (prompt t)).
Proof.
  intros Hrun. apply dispatch_run_sound in Hrun.
  destruct (slice0_prefix 100 (prompt t)) as (tail & Hs & Hl).
  assert (Hopen : forall now r (rest : list (Action Env)),
            exists now' ev r' rest' head tail',
              opening now t r ++ rest =
                AStatus running :: ANow now' :: ALog ev r' :: rest' /\
              type ev = task_started /\ taskId ev = Some (id t) /\
              payload ev = PStarted head /\
              prompt t = String.append head tail' /\
              String.length head = Nat.min 100 (String.length (prompt t))).
  { intros now r rest.
    exists now, (startedEvent (started now t)), r, rest, (slice0 100 (prompt t)), tail.
    repeat split; assumption. }
  inversion Hrun; subst.
  - rewrite <- (app_nil_r (opening now t (Rejected err))). apply Hopen.
  - apply Hopen.
  - apply Hopen.
  - apply Hopen.
  - apply Hopen.
Qed.

End FirstWrite.

(** ** The planner: routing a prompt *)

Section Routing.

Lemma prefix_spec p : forall s,
  String.prefix p s = true <-> exists post, s = String.append p post.
Proof.
  induction p as [| c p IH]; intros s.
  - split; [intros _; exists s; reflexivity | intros _; destruct s; reflexivity].
  - destruct s as [| c' s]; simpl.
    + split; [discriminate | intros (post & H); discriminate H].
    + destruct (Ascii.ascii_dec c c') as [<- | Hne].
      * rewrite IH. split; intros (post & H); exists post.
        -- rewrite H. reflexivity.
        -- injection H as H. exact H.
      * split; [discriminate |]. intros (post & H). injection H as H _. congruence.
Qed.

Lemma includes_spec p : forall s, includes s p = true <-> occursIn p s.
Proof.
  intros s. split.
  - induction s as [| c s IH]; cbn [includes]; rewrite orb_true_iff.
    + intros [H | H]; [| discriminate H].
      apply prefix_spec in H. destruct H as (post & H).
      exists EmptyString, post. exact H.
    + intros [H | H].
      * apply prefix_spec in H. destruct H as (post & H).
        exists EmptyString, post. exact H.
      * destruct (IH H) as (pre & post & ->). exists (String c pre), post. reflexivity.
  - intros (pre & post & ->). induction pre as [| c pre IH].
    + assert (Hp : String.prefix p (String.append p post) = true)
        by (apply prefix_spec; exists post; reflexivity).
      change (String.append EmptyString (String.append p post))
        with (String.append p post).
      destruct (String.append p post); cbn [includes]; rewrite Hp; reflexivity.
    + change (String.append (String c pre) (String.append p post))
        with (String c (String.append pre (String.append p post))).
      cbn [includes]. rewrite IH. apply orb_true_r.
Qed.

Lemma matchesPatterns_spec s patterns :
  matchesPatterns s patterns = true <-> someOccurs patterns s.
Proof.
  unfold matchesPatterns, someOccurs. rewrite existsb_exists.
  split; intros (p & Hin & H); exists p; split; try exact Hin;
    apply includes_spec; exact H.
Qed.

Lemma matchesPatterns_false s patterns :
  matchesPatterns s patterns = false <-> ~ someOccurs patterns s.
Proof.
  rewrite <- matchesPatterns_spec. destruct (matchesPatterns s patterns).
  - split; [discriminate |]. intros H. exfalso. apply H. reflexivity.
  - split; [intros _; discriminate | reflexivity].
Qed.

Lemma routes_by_occurrence (prompt_ : string) :
  let lower := toLowerCase prompt_ in
  let a := analyzePrompt prompt_ in
  (Analysis.recommendedExecutor a = codex <-> someOccurs codePatterns lower) /\
  (Analysis.recommendedExecutor a = gemini <->
     ~ someOccurs codePatterns lower /\ someOccurs researchPatterns lower) /\
  (Analysis.recommendedExecutor a = sonnet <->
     ~ someOccurs codePatterns lower /\ ~ someOccurs researchPatterns lower) /\
  Analysis.priority a = normal.
Proof.
  intros lower a. subst a. unfold analyzePrompt. fold lower.
  destruct (matchesPatterns lower codePatterns) eqn:Ec.
  - pose proof (proj1 (matchesPatterns_spec _ _) Ec) as Hc. simpl.
    repeat split; try discriminate; try (intros _; exact Hc);
      intros [Hn _]; destruct (Hn Hc).
  - pose proof (proj1 (matchesPatterns_false _ _) Ec) as Hc.
    destruct (matchesPatterns lower researchPatterns) eqn:Er.
    + pose proof (proj1 (matchesPatterns_spec _ _) Er) as Hr. simpl.
      repeat split; try discriminate; try assumption.
      * intros H. destruct (Hc H).
      * intros [_ Hn]. destruct (Hn Hr).
    + pose proof (proj1 (matchesPatterns_false _ _) Er) as Hr. simpl.
      repeat split; try discriminate; try assumption.
      * intros H. destruct (Hc H).
      * intros [_ H]. destruct (Hr H).
Qed.

(** X12.  [analyzePrompt] routes by occurrence in the lower-cased
    prompt: to Codex exactly when one of the code words occurs in it; to
    Gemini exactly when none does and one of the research phrases occurs;
    to Sonnet exactly when neither occurs.  The priority is always
    [normal]. *)
Theorem analyzePrompt_routes_by_occurrence (prompt_ : string) :
  let lower := toLowerCase prompt_ in
  let a := analyzePrompt prompt_ in
  (Analysis.recommendedExecutor a = codex <-> someOccurs codePatterns lower) /\
  (Analysis.recommendedExecutor a = gemini <->
     ~ someOccurs codePatterns lower /\ someOccurs researchPatterns lower) /\
  (Analysis.recommendedExecutor a = sonnet <->
     ~ someOccurs codePatterns lower /\ ~ someOccurs researchPatterns lower) /\
  Analysis.priority a = normal.
Proof. exact (routes_by_occurrence prompt_). Qed.

Lemma toLowerCase_app a : forall b,
  toLowerCase (String.append a b) = String.append (toLowerCase a) (toLowerCase b).
Proof.
  induction a as [| c a IH]; intros b; simpl; [reflexivity |].
  rewrite IH. reflexivity.
Qed.

Lemma lowerChar_idem c : lowerChar (lowerChar c) = lowerChar c.
Proof.
  destruct c as [[|] [|] [|] [|] [|] [|] [|] [|]]; vm_compute; reflexivity.
Qed.

Lemma toLowerCase_idem s : toLowerCase (toLowerCase s) = toLowerCase s.
Proof.
  induction s as [| c s IH]; simpl; [reflexivity |].
  rewrite lowerChar_idem, IH. reflexivity.
Qed.

Lemma occursIn_app p s a b :
  occursIn p s -> occursIn p (String.append a (String.append s b)).
Proof.
  intros (pre & post & ->). exists (String.append a pre), (String.append post b).
  clear. induction a as [| c a IH]; simpl.
  - induction pre as [| c pre IH]; simpl.
    + induction p as [| c p IH]; simpl; [reflexivity | rewrite IH; reflexivity].
    + rewrite IH. reflexivity.
  - rewrite IH. reflexivity.
Qed.

Lemma someOccurs_app patterns s a b :
  someOccurs patterns s ->
  someOccurs patterns (String.append a (String.append s b)).
Proof.
  intros (p & Hin & H). exists p. split; [exact Hin | apply occursIn_app; exact H].
Qed.

(** X13.  Routing does not depend on the case of the letters.  A prompt
    routed to Codex stays routed to Codex whatever text is put before and
    after it; and when a text is routed to Sonnet, so is every stretch of
    it. *)
Theorem routing_is_stable_under_context (prompt_ : string) :
  analyzePrompt (toLowerCase prompt_) = analyzePrompt prompt_ /\
  (Analysis.recommendedExecutor (analyzePrompt prompt_) = codex ->
   forall before after,
     Analysis.recommendedExecutor
       (analyzePrompt (String.append before (String.append prompt_ after))) = codex) /\
  (forall before after,
     Analysis.recommendedExecutor
       (analyzePrompt (String.append before (String.append prompt_ after))) = sonnet ->
     Analysis.recommendedExecutor (analyzePrompt prompt_) = sonnet).
Proof.
  split; [unfold analyzePrompt; rewrite toLowerCase_idem; reflexivity |].
  split.
  - intros H before after.
    apply (proj1 (routes_by_occurrence _)).
    apply (proj1 (routes_by_occurrence _)) in H.
    rewrite !toLowerCase_app. apply someOccurs_app. exact H.
  - intros before after H.
    destruct (routes_by_occurrence prompt_) as (_ & _ & Hs & _).
    destruct (routes_by_occurrence
                (String.append before (String.append prompt_ after)))
      as (_ & _ & Hs' & _).
    apply Hs. apply Hs' in H. destruct H as [Hc Hr].
    rewrite !toLowerCase_app in Hc, Hr.
    split; intros Hocc; [apply Hc | apply Hr]; apply someOccurs_app; exact Hocc.
Qed.

End Routing.

(** ** The planner: tasks and plans *)

Section Planning.

Context {Env : Type}.
Variable host : Host Env.
Variable crypto : Crypto Env.

Lemma fallback_order_shape (preferred : option ExecutorType) :
  NoDup (getFallbackOrder preferred) /\
  (forall e, In e (getFallbackOrder preferred)) /\
  List.length (getFallbackOrder preferred) = 3 /\
  (forall p, preferred = Some p ->
     getFallbackOrder preferred =
       p :: filter (fun e => negb (ExecutorType_eqb e p)) [sonnet; codex; gemini]) /\
  (preferred = None -> getFallbackOrder preferred = [sonnet; codex; gemini]).
Proof.
  split; [| split; [| split; [| split]]].
  - destruct preferred as [[| |] |]; simpl;
      repeat constructor; simpl; intuition discriminate.
  - intros e. destruct preferred as [[| |] |], e; simpl; auto 6.
  - destruct preferred as [[| |] |]; reflexivity.
  - intros p ->. reflexivity.
  - intros ->. reflexivity.
Qed.

(** X14.  [getFallbackOrder] lists each of the three executors exactly
    once; the preferred one, if any, comes first, and the others follow in
    the order sonnet, codex, gemini. *)
Theorem getFallbackOrder_lists_every_executor_once (preferred : option ExecutorType) :
  NoDup (getFallbackOrder preferred) /\
  (forall e, In e (getFallbackOrder preferred)) /\
  List.length (getFallbackOrder preferred) = 3 /\
  (forall p, preferred = Some p ->
     getFallbackOrder preferred =
       p :: filter (fun e => negb (ExecutorType_eqb e p)) [sonnet; codex; gemini]) /\
  (preferred = None -> getFallbackOrder preferred = [sonnet; codex; gemini]).
Proof. exact (fallback_order_shape preferred). Qed.

Lemma createTask_fields (config : PlannerConfig) (params : TaskParams.t) env t env' :
  createTask host crypto config params env = (t, env') ->
  prompt t = TaskParams.prompt params /\
  systemPrompt t = TaskParams.systemPrompt params /\
  status t = pending /\
  createdAt t = updatedAt t /\
  preferredExecutor t =
    Some match TaskParams.preferredExecutor params with
         | Some p => p
         | None => defaultExecutor config
         end /\
  fallbackExecutors t = Some (getFallbackOrder (TaskParams.preferredExecutor params)) /\
  priority t = match TaskParams.priority params with Some p => p | None => normal end /\
  parentId t = TaskParams.parentId params /\
  metadata t = TaskParams.metadata params /\
  exists env0 env1, id t = fst (randomUUID crypto env0) /\
    createdAt t = fst (newDate host env1).
Proof.
  unfold createTask. intros H.
  destruct (newDate host env) as [now env1] eqn:Hnow.
  destruct (randomUUID crypto env1) as [uuid env2] eqn:Hid.
  injection H as <- _. simpl. repeat split.
  exists env1, env. rewrite Hid, Hnow. split; reflexivity.
Qed.

Lemma order_of_created_task (d : Dispatcher Env) config params env t env' :
  createTask host crypto config params env = (t, env') ->
  getExecutorOrder d t = getFallbackOrder (TaskParams.preferredExecutor params).
Proof.
  intros H. destruct (createTask_fields _ _ _ H) as (_ & _ & _ & _ & _ & Hf & _).
  unfold getExecutorOrder. rewrite Hf.
  destruct (TaskParams.preferredExecutor params) as [p |]; reflexivity.
Qed.

Lemma created_task_facts
    (d : Dispatcher Env) (config : PlannerConfig) (params : TaskParams.t) env t env' :
  createTask host crypto config params env = (t, env') ->
  status t = pending /\
  prompt t = TaskParams.prompt params /\
  createdAt t = updatedAt t /\
  getExecutorOrder d t = getFallbackOrder (TaskParams.preferredExecutor params) /\
  NoDup (getExecutorOrder d t) /\
  (forall e, In e (getExecutorOrder d t)) /\
  (forall p, TaskParams.preferredExecutor params = Some p ->
     preferredExecutor t = Some p /\ exists rest, getExecutorOrder d t = p :: rest) /\
  (TaskParams.preferredExecutor params = None ->
     preferredExecutor t = Some (defaultExecutor config) /\
     getExecutorOrder d t = [sonnet; codex; gemini]).
Proof.
  intros H. pose proof (order_of_created_task d _ _ _ H) as Ho.
  destruct (createTask_fields _ _ _ H) as (Hp & _ & Hs & Hd & Hpref & _).
  destruct (fallback_order_shape (TaskParams.preferredExecutor params))
    as (Hnd & Hall & _ & Hhd & Hnone).
  rewrite Ho. repeat split; try assumption.
  - rewrite Hpref, H0. reflexivity.
  - eexists. apply Hhd. exact H0.
  - rewrite Hpref, H0. reflexivity.
  - apply Hnone. exact H0.
Qed.

(** X15.  A task made by [createTask] is [pending], carries the prompt
    it was given, and always names a preferred executor: the requested one,
    or else the planner's default.  Whatever is registered, a dispatcher
    tries the three executor types for it, each once, the requested one
    first; when none was requested the order is sonnet, codex, gemini, so
    the preferred executor written in the task (the planner's default) is
    tried first only when that default is sonnet. *)
Theorem created_task_is_tried_on_all_executors
    (d : Dispatcher Env) (config : PlannerConfig) (params : TaskParams.t) env t env' :
  createTask host crypto config params env = (t, env') ->
  status t = pending /\
  prompt t = TaskParams.prompt params /\
  createdAt t = updatedAt t /\
  getExecutorOrder d t = getFallbackOrder (TaskParams.preferredExecutor params) /\
  NoDup (getExecutorOrder d t) /\
  (forall e, In e (getExecutorOrder d t)) /\
  (forall p, TaskParams.preferredExecutor params = Some p ->
     preferredExecutor t = Some p /\ exists rest, getExecutorOrder d t = p :: rest) /\
  (TaskParams.preferredExecutor params = None ->
     preferredExecutor t = Some (defaultExecutor config) /\
     getExecutorOrder d t = [sonnet; codex; gemini]).
Proof. exact (@created_task_facts d config params env t env'). Qed.

Lemma plan_facts (d : Dispatcher Env) (config : PlannerConfig) (prompt_ : string)
    env plan env' :
  createPlan host crypto config prompt_ env = (plan, env') ->
  Plan.originalPrompt plan = prompt_ /\
  exists t,
    Plan.tasks plan = [t] /\
    prompt t = prompt_ /\
    List.length (getExecutorOrder d t) = 3.
Proof.
  unfold createPlan. intros H.
  destruct (randomUUID crypto env) as [planId env1] eqn:Hid.
  destruct (newDate host env1) as [now env2] eqn:Hnow.
  destruct (createTask host crypto config _ env2) as [t env3] eqn:Ht.
  injection H as <- _. split; [reflexivity |]. exists t. split; [reflexivity |].
  destruct (createTask_fields _ _ _ Ht) as (Hp & _).
  split; [exact Hp |].
  rewrite (order_of_created_task d _ _ _ Ht).
  apply fallback_order_shape.
Qed.

(** X16.  [createPlan] makes a plan of exactly one task for the whole
    prompt: the task is [pending], of [normal] priority, prefers the
    executor [analyzePrompt] recommends, and a dispatcher tries that
    executor first, then the two others.  The plan id is the first UUID
    drawn, the task id the second. *)
Theorem plan_has_one_task_for_the_prompt
    (d : Dispatcher Env) (config : PlannerConfig) (prompt_ : string) env plan env' :
  createPlan host crypto config prompt_ env = (plan, env') ->
  Plan.originalPrompt plan = prompt_ /\
  Plan.strategy plan = Analysis.strategy (analyzePrompt prompt_) /\
  Plan.id plan = fst (randomUUID crypto env) /\
  exists t,
    Plan.tasks plan = [t] /\
    prompt t = prompt_ /\
    status t = pending /\
    priority t = normal /\
    systemPrompt t = None /\
    preferredExecutor t = Some (Analysis.recommendedExecutor (analyzePrompt prompt_)) /\
    (exists rest,
       getExecutorOrder d t =
         Analysis.recommendedExecutor (analyzePrompt prompt_) :: rest) /\
    NoDup (getExecutorOrder d t) /\
    (forall e, In e (getExecutorOrder d t)) /\
    id t =
      fst (randomUUID crypto
             (snd (newDate host (snd (newDate host (snd (randomUUID crypto env))))))).
Proof.
  unfold createPlan. intros H.
  destruct (randomUUID crypto env) as [planId env1] eqn:Hid.
  destruct (newDate host env1) as [now env2] eqn:Hnow.
  destruct (createTask host crypto config _ env2) as [t env3] eqn:Ht.
  injection H as <- _. cbn [Plan.originalPrompt Plan.strategy Plan.id Plan.tasks fst snd].
  split; [reflexivity |]. split; [reflexivity |]. split; [reflexivity |].
  exists t. split; [reflexivity |].
  destruct (createTask_fields _ _ _ Ht) as (Hp & Hsys & Hs & _ & Hpref & _ & Hprio & _).
  destruct (created_task_facts d _ _ _ Ht) as (_ & _ & _ & _ & Hnd & Hall & Hsome & _).
  destruct (Hsome _ eq_refl) as [_ Hhd].
  cbn [TaskParams.prompt TaskParams.systemPrompt TaskParams.preferredExecutor
       TaskParams.priority] in *.
  split; [exact Hp |]. split; [exact Hs |].
  split; [rewrite Hprio; apply (routes_by_occurrence prompt_) |].
  split; [exact Hsys |]. split; [exact Hpref |]. split; [exact Hhd |].
  split; [exact Hnd |]. split; [exact Hall |].
  unfold createTask in Ht.
  destruct (newDate host env2) as [now' env2'] eqn:Hnow'.
  destruct (randomUUID crypto env2') as [uuid env2''] eqn:Hid'.
  injection Ht as <- _. cbn [id snd]. rewrite Hnow. cbn [snd].
  rewrite Hnow'. cbn [snd]. rewrite Hid'. reflexivity.
Qed.

End Planning.

(** ** A bound on the tries *)

Section Bounds.

Context {Env : Type}.
Variable host : Host Env.
Variable d : Dispatcher Env.

Lemma availableProbes_le_probed (tr : list (Action Env)) :
  availableProbes tr <= List.length (probed tr).
Proof.
  induction tr as [| a tr IH]; simpl; [lia |].
  destruct a as [ev r | x [[|] | err] | x t r | ms | now | s]; simpl; lia.
Qed.

Lemma registeredOf_length order :
  List.length (registeredOf d order) <= List.length order.
Proof.
  induction order as [| ty order IH]; simpl; [lia |].
  destruct (get (executors d) ty); simpl; lia.
Qed.

Lemma order_bounded order s o tr :
  OrderRun d order s o tr ->
  availableProbes tr <= List.length (registeredOf d order).
Proof.
  intros H. destruct (order_probed H) as (rest & Hreg & _).
  rewrite Hreg, length_app. pose proof (availableProbes_le_probed tr). lia.
Qed.

Lemma dispatch_probes_bounded (t : Task) o tr :
  DispatchRun d t o tr ->
  availableProbes tr <= List.length (registeredOf d (getExecutorOrder d t)).
Proof.
  intros Hrun.
  inversion Hrun as [now err Hm | now i err tr0 Ho | now i r tr0 Ho
                     | now i s tr0 now' err Ho Hm | now i s tr0 now' i' Ho]; subst;
    try (rewrite order_of_started in Ho; pose proof (order_bounded Ho) as Hb).
  - simpl. lia.
  - destruct (delay_around now t (Resolved i) tr0 0%Z (entry now t) (Resolved i))
      as (_ & -> & _). exact Hb.
  - destruct (delay_around now t (Resolved i) tr0 0%Z (entry now t) (Resolved i))
      as (_ & -> & _). exact Hb.
  - destruct (delay_around now t (Resolved i) tr0 now' s (Rejected (A := string) err))
      as (_ & _ & _ & ->). exact Hb.
  - destruct (delay_around now t (Resolved i) tr0 now' s (Resolved i'))
      as (_ & _ & _ & ->). exact Hb.
Qed.

Lemma dispatch_bounded t res tr :
  DispatchRun d t (Resolved res) tr ->
  attempts res <=
    retryAttempts (options d) * List.length (registeredOf d (getExecutorOrder d t)).
Proof.
  intros H. apply dispatch_resolved in H.
  destruct H as (now & i & tr0 & [(Ho & -> & Hs) | (s & now' & i' & Ho & -> & ->)]);
    pose proof (order_count Ho) as Hc; pose proof (order_bounded Ho) as Hb;
    simpl in Hc.
  - destruct Hc as (ty & x & j & t' & _ & Hj & _ & Hav & Hat & _).
    rewrite Hat.
    apply Nat.le_trans with (retryAttempts (options d) * availableProbes tr0);
      [| apply Nat.mul_le_mono_l; exact Hb].
    destruct (availableProbes tr0) as [| n]; [lia |].
    replace (S n - 1) with n by lia. rewrite Nat.mul_succ_r. lia.
  - destruct Hc as [Hat _]. simpl. rewrite Hat.
    apply Nat.mul_le_mono_l. exact Hb.
Qed.

(** X2.  The attempt count of a result is at most the retry count times
    the number of registered back ends of the executor order, each counted
    as often as the order names it. *)
Theorem attempts_are_bounded_by_the_order (t : Task) env res env' tr :
  run host (dispatch d t) env = (Resolved res, env', tr) ->
  attempts res <=
    retryAttempts (options d) * List.length (registeredOf d (getExecutorOrder d t)) /\
  List.length (registeredOf d (getExecutorOrder d t)) <=
    List.length (getExecutorOrder d t) /\
  execCalls tr = attempts res.
Proof.
  intros Hrun. apply dispatch_run_sound in Hrun.
  split; [apply (dispatch_bounded Hrun) |].
  split; [apply registeredOf_length |].
  symmetry. apply (dispatch_attempts Hrun).
Qed.

End Bounds.

(** ** The orchestrator *)

Section OrchestratorFacts.

Context {Env : Type}.
Variable host : Host Env.
Variable crypto : Crypto Env.

Lemma set_nonempty (m : ExecutorMap Env) key x : set m key x <> [].
Proof. destruct m as [| [k y] m]; simpl; [| destruct (ExecutorType_eqb k key)]; discriminate. Qed.

Lemma rebuildDispatcher_keeps (o : Orpheus Env) :
  theConfig (rebuildDispatcher o) = theConfig o /\
  thePlanner (rebuildDispatcher o) = thePlanner o /\
  theExecutors (rebuildDispatcher o) = theExecutors o /\
  theMemory (rebuildDispatcher o) = theMemory o.
Proof.
  unfold rebuildDispatcher.
  destruct (theMemory o) as [m |] eqn:Hm, (theExecutors o) as [| e l] eqn:He;
    cbn [theConfig thePlanner theExecutors theMemory]; rewrite ?Hm, ?He;
    repeat split.
Qed.

Lemma rebuild_in_sync (o : Orpheus Env) :
  (theMemory o = None \/ theExecutors o = [] -> theDispatcher o = None) ->
  dispatcherInSync (rebuildDispatcher o).
Proof.
  unfold dispatcherInSync, rebuildDispatcher. intros H.
  destruct (theMemory o) as [m |] eqn:Hm; [destruct (theExecutors o) as [| e l] eqn:He |];
    cbn [theDispatcher theMemory theExecutors]; rewrite ?Hm, ?He.
  - apply H. right. reflexivity.
  - reflexivity.
  - apply H. left. reflexivity.
Qed.

Lemma register_in_sync (o : Orpheus Env) r :
  dispatcherInSync o -> dispatcherInSync (register o r).
Proof.
  unfold dispatcherInSync at 1. intros H.
  destruct r as [m | x]; unfold register, useMemory, useExecutor;
    apply rebuild_in_sync; cbn [theDispatcher theMemory theExecutors].
  - intros [Hm | He]; [discriminate Hm |].
    rewrite H, He. destruct (theMemory o); reflexivity.
  - intros [Hm | He]; [| destruct (set_nonempty _ _ _ He)].
    rewrite H, Hm. reflexivity.
Qed.

Lemma register_fields (o : Orpheus Env) r :
  theConfig (register o r) = theConfig o /\
  thePlanner (register o r) = thePlanner o /\
  theMemory (register o r) =
    match r with UseMemory m => Some m | UseExecutor _ => theMemory o end /\
  theExecutors (register o r) =
    match r with
    | UseMemory _ => theExecutors o
    | UseExecutor x => set (theExecutors o) (kind x) x
    end.
Proof.
  destruct r as [m | x]; unfold register, useMemory, useExecutor;
    match goal with |- context [rebuildDispatcher ?o'] =>
      destruct (rebuildDispatcher_keeps o') as (-> & -> & -> & ->)
    end; repeat split.
Qed.

Lemma registrations_facts (regs : list (Registration Env)) : forall o,
  dispatcherInSync o ->
  NoDup (keys (theExecutors o)) ->
  let o' := fold_left register regs o in
  dispatcherInSync o' /\
  NoDup (keys (theExecutors o')) /\
  theConfig o' = theConfig o /\
  thePlanner o' = thePlanner o /\
  (theMemory o' <> None <->
     theMemory o <> None \/ exists m, In (UseMemory m) regs) /\
  (theExecutors o' <> [] <->
     theExecutors o <> [] \/ exists x, In (UseExecutor x) regs).
Proof.
  induction regs as [| r regs IH]; intros o Hsync Hnd; cbn [fold_left].
  - repeat split; try assumption; try (intros H; left; exact H);
      intros [H | (z & [])]; exact H.
  - destruct (register_fields o r) as (Hc & Hp & Hm & He).
    assert (Hnd' : NoDup (keys (theExecutors (register o r)))).
    { rewrite He. destruct r as [m | x]; [exact Hnd | apply NoDup_keys_set; exact Hnd]. }
    destruct (IH (register o r) (register_in_sync r Hsync) Hnd')
      as (Hs' & Hn' & Hc' & Hp' & Hm' & He').
    split; [exact Hs' |]. split; [exact Hn' |].
    split; [rewrite Hc'; exact Hc |]. split; [rewrite Hp'; exact Hp |].
    split.
    + rewrite Hm', Hm. destruct r as [m | x].
      * split; [intros _; right; exists m; left; reflexivity |].
        intros _. left. discriminate.
      * split.
        -- intros [H | (m & H)]; [left; exact H | right; exists m; right; exact H].
        -- intros [H | (m & [H | H])];
             [left; exact H | discriminate H | right; exists m; exact H].
    + rewrite He', He. destruct r as [m | x].
      * split.
        -- intros [H | (x & H)]; [left; exact H | right; exists x; right; exact H].
        -- intros [H | (x & [H | H])];
             [left; exact H | discriminate H | right; exists x; exact H].
      * split; [intros _; right; exists x; left; reflexivity |].
        intros _. left. apply set_nonempty.
Qed.

Lemma newOrpheus_in_sync config penv :
  dispatcherInSync (newOrpheus (Env := Env) config penv) /\
  NoDup (keys (theExecutors (newOrpheus (Env := Env) config penv))).
Proof. split; [reflexivity | constructor]. Qed.

Lemma registered_orpheus (config : PartialConfig.t) penv (regs : list (Registration Env)) :
  let o := fold_left register regs (newOrpheus config penv) in
  dispatcherInSync o /\
  NoDup (keys (theExecutors o)) /\
  theConfig o = resolveConfig config penv /\
  thePlanner o = planner (resolveConfig config penv) /\
  (theMemory o <> None <-> exists m, In (UseMemory m) regs) /\
  (theExecutors o <> [] <-> exists x, In (UseExecutor x) regs).
Proof.
  destruct (newOrpheus_in_sync config penv) as [Hs Hn].
  destruct (registrations_facts regs Hs Hn) as (Hs' & Hn' & Hc & Hp & Hm & He).
  split; [exact Hs' |]. split; [exact Hn' |]. split; [exact Hc |].
  split.
  { rewrite Hp. cbn [newOrpheus thePlanner createPlanner].
    destruct (planner (resolveConfig config penv)); reflexivity. }
  split.
  - rewrite Hm. split; [intros [H | H]; [exfalso; apply H; reflexivity | exact H] |].
    intros H. right. exact H.
  - rewrite He. split; [intros [H | H]; [exfalso; apply H; reflexivity | exact H] |].
    intros H. right. exact H.
Qed.

(** X17.  After any sequence of [useMemory] and [useExecutor] calls on a
    new [Orpheus], the dispatcher is set exactly when a store and at least
    one executor have been registered, and it is then the dispatcher built
    from the last store and all the executors registered so far, with 3
    tries and a base delay of 1000 ms.  While it is unset, [execute]
    rejects with the "not ready" error, makes no call and leaves the world
    as it is. *)
Theorem orpheus_is_ready_once_registered
    (config : PartialConfig.t) penv (regs : list (Registration Env)) :
  let o := fold_left register regs (newOrpheus config penv) in
  (theDispatcher o <> None <->
     (exists m, In (UseMemory m) regs) /\ (exists x, In (UseExecutor x) regs)) /\
  (forall d, theDispatcher o = Some d ->
     exists m, theMemory o = Some m /\
       d = createDispatcher (theExecutors o) m None None /\
       retryAttempts (options d) = 3 /\ retryDelayMs (options d) = 1000%Z) /\
  (theDispatcher o = None ->
   forall prompt_ sched env,
     orpheusExecute host crypto o prompt_ sched env =
       (Some (Rejected notReady), env, [])).
Proof.
  intros o. destruct (registered_orpheus config penv regs)
    as (Hs & _ & _ & _ & Hm & He). fold o in Hs, Hm, He.
  unfold dispatcherInSync in Hs.
  split; [| split].
  - rewrite <- Hm, <- He, Hs.
    destruct (theMemory o) as [m |], (theExecutors o) as [| e l];
      split; try (intros H; exfalso; apply H; reflexivity);
      try (intros [H1 H2]; exfalso; first [apply H1 | apply H2]; reflexivity).
    + intros _. split; discriminate.
    + intros _. discriminate.
  - intros d Hd. rewrite Hs in Hd.
    destruct (theMemory o) as [m |]; [| discriminate Hd].
    destruct (theExecutors o) as [| e l]; [discriminate Hd |].
    injection Hd as <-. exists m. repeat split.
  - intros Hnone prompt_ sched env. unfold orpheusExecute. rewrite Hnone. reflexivity.
Qed.

End OrchestratorFacts.

(** ** A prompt taken through the whole pipeline *)

Section Pipeline.

Context {Env : Type}.
Variable host : Host Env.
Variable crypto : Crypto Env.

Lemma runBatch_sound (d : Dispatcher Env) tasks parallel sched env rs env' tr :
  runBatch host sched (dispatchAll d tasks parallel) env = (Some (Resolved rs), env', tr) ->
  Forall2 (resultOf d) tasks rs.
Proof.
  intros H. destruct parallel; simpl in H.
  - assert (Hstart : Forall2 Ahead (map (dispatch d) tasks) (map (dispatch d) tasks)).
    { clear H. induction tasks as [| t ts IH]; simpl; constructor;
        [apply Ahead_refl | exact IH]. }
    pose proof (@promiseAll_sound _ host _ _ _ _ _ _ _ _ Hstart H) as Hres.
    clear - Hres. revert rs Hres.
    induction tasks as [| t ts IH]; intros rs Hres; inversion Hres; subst.
    + constructor.
    + constructor; [| apply IH; assumption].
      match goal with Hp : exists tr', Path _ _ tr' |- _ =>
        destruct Hp as [tr' Hpath];
        split; [exists tr'; exact Hpath | apply (dispatch_frame Hpath)]
      end.
  - destruct (run host (dispatchEach d tasks []) env) as [[o env1] tr1] eqn:Hrun.
    inversion H; subst.
    apply run_path in Hrun. apply dispatchEach_sound in Hrun.
    destruct Hrun as (rs' & -> & Hres). exact Hres.
Qed.

Lemma dispatch_outcome (d : Dispatcher Env) t res tr :
  DispatchRun d t (Resolved res) tr ->
  (status (task res) = completed /\ success (result res) = true) \/
  (status (task res) = failed /\ success (result res) = false).
Proof.
  intros H. apply dispatch_resolved in H.
  destruct H as (now & i & tr0 & [(Ho & -> & Hs) | (s & now' & i' & Ho & -> & ->)]).
  - left. destruct (order_task Ho (entry_inFlight now t)) as [_ (_ & Hst & _)].
    split; assumption.
  - right. split; reflexivity.
Qed.


End Pipeline.

(** ** The configuration and the executors of an orchestrator *)

Section OrchestratorViews.

Context {Env : Type}.
Variable host : Host Env.

Lemma redact_cases key :
  (redact key = None \/ redact key = Some "[REDACTED]") /\
  (redact key = Some "[REDACTED]" <-> truthy key = true).
Proof.
  unfold redact. destruct (truthy key); split; auto;
    split; intros H; try reflexivity; discriminate H.
Qed.

(** X19.  Whatever options and environment an [Orpheus] is made with, and
    whatever is registered on it, [getConfig] shows each API key either as
    absent or as "[REDACTED]".  It shows "[REDACTED]" exactly when the key
    in force is a non-empty string, the key in force being the one of the
    options when they hold one and the one of the environment otherwise;
    so an empty key in the options hides the key of the environment. *)
Theorem getConfig_of_an_orpheus_shows_no_key
    (config : PartialConfig.t) penv (regs : list (Registration Env)) :
  let o := fold_left register regs (newOrpheus config penv) in
  let view := getConfig (theConfig o) in
  (openaiApiKey view = None \/ openaiApiKey view = Some "[REDACTED]") /\
  (anthropicApiKey view = None \/ anthropicApiKey view = Some "[REDACTED]") /\
  (googleApiKey view = None \/ googleApiKey view = Some "[REDACTED]") /\
  (openaiApiKey view = Some "[REDACTED]" <->
     truthy (nullish (PartialConfig.openaiApiKey config) (OPENAI_API_KEY penv)) = true) /\
  (anthropicApiKey view = Some "[REDACTED]" <->
     truthy (nullish (PartialConfig.anthropicApiKey config) (ANTHROPIC_API_KEY penv))
       = true) /\
  (googleApiKey view = Some "[REDACTED]" <->
     truthy (nullish (PartialConfig.googleApiKey config) (GOOGLE_AI_API_KEY penv))
       = true) /\
  (PartialConfig.openaiApiKey config = Some "" -> openaiApiKey view = None) /\
  (PartialConfig.anthropicApiKey config = Some "" -> anthropicApiKey view = None) /\
  (PartialConfig.googleApiKey config = Some "" -> googleApiKey view = None).
Proof.
  intros o view. subst view.
  destruct (registered_orpheus config penv regs) as (_ & _ & Hc & _).
  fold o in Hc. rewrite Hc. unfold getConfig, resolveConfig.
  cbn [openaiApiKey anthropicApiKey googleApiKey].
  repeat split;
    try apply redact_cases;
    try (intros H; apply redact_cases; exact H);
    intros ->; reflexivity.
Qed.

Lemma checkEach_run (m : ExecutorMap Env) : forall acc env,
  exists answers_ env',
    run host (checkEach m acc) env =
      (Resolved (acc ++ combine (keys m) (map asBool answers_)), env',
       probesOf m answers_) /\
    List.length answers_ = List.length m.
Proof.
  induction m as [| [ty x] m IH]; intros acc env; cbn [checkEach run].
  - exists [], env. rewrite app_nil_r. split; reflexivity.
  - destruct (isAvailable x env) as [r env1] eqn:Hr.
    destruct (IH (acc ++ [(ty, asBool r)]) env1) as (answers_ & env' & Hrun & Hlen).
    unfold asBool in Hrun at 1. rewrite Hrun.
    exists (r :: answers_), env'. rewrite <- app_assoc. split; [reflexivity |].
    simpl. rewrite Hlen. reflexivity.
Qed.


End OrchestratorViews.

(** ** The SQLite store *)

Section Store.

Lemma insertSorted_perm row sorted : Permutation (row :: sorted) (insertSorted row sorted).
Proof.
  induction sorted as [| r rest IH]; simpl; [apply Permutation_refl |].
  destruct (EventRow.timestamp row <? EventRow.timestamp r)%Z.
  - apply Permutation_refl.
  - apply perm_trans with (r :: row :: rest); [apply perm_swap |].
    apply perm_skip. exact IH.
Qed.

Lemma insertSorted_sorted row sorted :
  StronglySorted earlier sorted -> StronglySorted earlier (insertSorted row sorted).
Proof.
  induction sorted as [| r rest IH]; intros Hs; simpl.
  - constructor; constructor.
  - inversion Hs as [| r' rest' Hrest Hall]; subst.
    destruct (Z.ltb_spec (EventRow.timestamp row) (EventRow.timestamp r)) as [Hlt | Hge].
    + constructor; [exact Hs |]. constructor; [unfold earlier; lia |].
      rewrite Forall_forall in *. intros x Hx. specialize (Hall x Hx).
      unfold earlier in *. lia.
    + constructor; [apply IH; exact Hrest |].
      rewrite Forall_forall in *. intros x Hx.
      apply (Permutation_in _ (Permutation_sym (insertSorted_perm row rest))) in Hx.
      destruct Hx as [<- | Hx]; [exact Hge | apply Hall; exact Hx].
Qed.

Lemma orderByTimestamp_answers rows : orderedAsc rows (orderByTimestamp rows).
Proof.
  unfold orderByTimestamp, orderedAsc.
  assert (Hgen : forall acc,
            StronglySorted earlier acc ->
            Permutation (acc ++ rows)
              (fold_left (fun sorted row => insertSorted row sorted) rows acc) /\
            StronglySorted earlier
              (fold_left (fun sorted row => insertSorted row sorted) rows acc)).
  { induction rows as [| row rows IH]; intros acc Hacc; simpl.
    - rewrite app_nil_r. split; [apply Permutation_refl | exact Hacc].
    - destruct (IH (insertSorted row acc) (insertSorted_sorted row Hacc)) as [Hp Hs].
      split; [| exact Hs].
      apply perm_trans with (insertSorted row acc ++ rows); [| exact Hp].
      apply perm_trans with ((row :: acc) ++ rows).
      + apply Permutation_sym. apply Permutation_middle.
      + apply Permutation_app_tail. apply insertSorted_perm. }
  apply (Hgen []). constructor.
Qed.

(** Rows whose timestamps strictly increase can be arranged in one way
    only. *)
Lemma orderedAsc_unique selected answer :
  StronglySorted strictlyEarlier selected ->
  orderedAsc selected answer -> answer = selected.
Proof.
  intros Hstrict [Hperm Hsorted]. revert answer Hperm Hsorted.
  induction Hstrict as [| a l Hl IH Hall]; intros answer Hperm Hsorted.
  - apply Permutation_nil in Hperm. exact Hperm.
  - destruct answer as [| b l'].
    + apply Permutation_sym, Permutation_nil in Hperm. discriminate Hperm.
    + inversion Hsorted as [| b' l'' Hl' Hall']; subst.
      assert (Hb : In b (a :: l))
        by (apply (Permutation_in _ (Permutation_sym Hperm)); left; reflexivity).
      assert (Ha : In a (b :: l'))
        by (apply (Permutation_in _ Hperm); left; reflexivity).
      assert (Hab : a = b).
      { destruct Hb as [Hb | Hb]; [exact Hb |].
        destruct Ha as [Ha | Ha]; [symmetry; exact Ha |].
        rewrite Forall_forall in Hall, Hall'.
        specialize (Hall b Hb). specialize (Hall' a Ha).
        unfold strictlyEarlier, earlier in *. lia. }
      subst b. f_equal. apply IH; [| exact Hl'].
      apply Permutation_cons_inv with (a := a). exact Hperm.
Qed.

Lemma filter_ofTask tid row :
  ofTask tid row = true <-> EventRow.task_id row = Some tid.
Proof.
  unfold ofTask, string_eqb_opt. destruct (EventRow.task_id row) as [s |].
  - rewrite String.eqb_eq. split; [intros ->; reflexivity | intros H; injection H; auto].
  - split; discriminate.
Qed.

Lemma sorted_events rows :
  StronglySorted earlier rows -> StronglySorted notAfter (map rowToEvent rows).
Proof.
  induction 1 as [| a l Hl IH Hall]; simpl; constructor; [exact IH |].
  rewrite Forall_forall in *. intros e He. apply in_map_iff in He.
  destruct He as (row & <- & Hrow). apply (Hall row Hrow).
Qed.

(** X22.  [getTaskHistory(taskId)] always has an answer.  Every answer
    holds the rows of that task and no other, each once, as events, sorted
    by timestamp; the events all bear the task's id.  When the timestamps
    of the task's rows strictly increase in the order of insertion, the
    answer is the rows in that order. *)
Theorem task_history_is_the_rows_of_the_task (db : Table) (taskId_ : string) :
  taskHistory db taskId_
    (map rowToEvent (orderByTimestamp (filter (ofTask taskId_) db))) /\
  forall events_, taskHistory db taskId_ events_ ->
    Forall (fun e => MemoryEvent.taskId e = Some taskId_) events_ /\
    Permutation (map rowToEvent (filter (ofTask taskId_) db)) events_ /\
    (forall e, In e events_ <->
       exists row, In row db /\ EventRow.task_id row = Some taskId_ /\
                   e = rowToEvent row) /\
    StronglySorted notAfter events_ /\
    (StronglySorted strictlyEarlier (filter (ofTask taskId_) db) ->
     events_ = map rowToEvent (filter (ofTask taskId_) db)).
Proof.
  split.
  - eexists. split; [apply orderByTimestamp_answers | reflexivity].
  - intros events_ (rows & [Hperm Hsorted] & ->).
    assert (Hin : forall row, In row rows <->
               In row db /\ EventRow.task_id row = Some taskId_).
    { intros row. rewrite <- filter_ofTask, <- filter_In. split; intros H.
      - apply (Permutation_in _ (Permutation_sym Hperm)). exact H.
      - apply (Permutation_in _ Hperm). exact H. }
    split; [| split; [| split; [| split]]].
    + rewrite Forall_forall. intros e He. apply in_map_iff in He.
      destruct He as (row & <- & Hrow). apply Hin in Hrow. apply Hrow.
    + apply Permutation_map. exact Hperm.
    + intros e. rewrite in_map_iff. split.
      * intros (row & <- & Hrow). exists row. apply Hin in Hrow.
        destruct Hrow as [H1 H2]. repeat split; assumption.
      * intros (row & H1 & H2 & ->). exists row. split; [reflexivity |].
        apply Hin. split; assumption.
    + apply sorted_events. exact Hsorted.
    + intros Hstrict. f_equal. apply orderedAsc_unique; [exact Hstrict |].
      split; assumption.
Qed.

End Store.

Section StoreWrites.

Context {W : Type}.
Variable host : Host W.
Variable crypto : Crypto W.
Variable constraintFailed : Thrown.

Lemma existsb_hasId uuid (db : Table) :
  existsb (hasId uuid) db = true <-> In uuid (map EventRow.id db).
Proof.
  rewrite existsb_exists, in_map_iff. unfold hasId.
  split; intros (row & H1 & H2).
  - exists row. apply String.eqb_eq in H2. split; [exact H2 | exact H1].
  - exists row. split; [exact H2 | apply String.eqb_eq; exact H1].
Qed.

Lemma insertRow_cases (row : EventRow.t) (db : Table) :
  (In (EventRow.id row) (map EventRow.id db) /\
   insertRow constraintFailed row db = (Rejected constraintFailed, db)) \/
  (~ In (EventRow.id row) (map EventRow.id db) /\
   insertRow constraintFailed row db = (Resolved (EventRow.id row), db ++ [row])).
Proof.
  unfold insertRow. destruct (existsb (hasId (EventRow.id row)) db) eqn:E.
  - left. split; [apply existsb_hasId; exact E | reflexivity].
  - right. split; [| reflexivity]. intros H. apply existsb_hasId in H.
    rewrite H in E. discriminate E.
Qed.

Lemma logEvent_cases (ev : EventInput) (db : Table) (w : W) :
  let uuid := fst (randomUUID crypto w) in
  let w1 := snd (randomUUID crypto w) in
  let now := fst (newDate host w1) in
  let w2 := snd (newDate host w1) in
  (In uuid (map EventRow.id db) /\
   sqliteLogEvent host crypto constraintFailed ev (db, w) =
     (Rejected constraintFailed, (db, w2))) \/
  (~ In uuid (map EventRow.id db) /\
   sqliteLogEvent host crypto constraintFailed ev (db, w) =
     (Resolved uuid, (db ++ [rowOf uuid now ev], w2))).
Proof.
  intros uuid w1 now w2. subst uuid w1 now w2. unfold sqliteLogEvent.
  destruct (randomUUID crypto w) as [uuid w1]. cbn [fst snd].
  destruct (newDate host w1) as [now w2]. cbn [fst snd].
  destruct (insertRow_cases (rowOf uuid now ev) db) as [[Hin ->] | [Hin ->]];
    [left | right]; split; try exact Hin; reflexivity.
Qed.

(** X21.  [logEvent] draws a UUID, then reads the clock.  When no row
    bears that UUID it appends one row, holding the event as given, the
    UUID and the date, returns the UUID, and the event count grows by one.
    When a row bears it already, [logEvent] rejects with the error of the
    failed constraint and the table is as before.  Either way no two rows
    of the table share an id if none did before. *)
Theorem logEvent_appends_one_row (ev : EventInput) (db : Table) (w : W) r db' w' :
  sqliteLogEvent host crypto constraintFailed ev (db, w) = (r, (db', w')) ->
  let uuid := fst (randomUUID crypto w) in
  let now := fst (newDate host (snd (randomUUID crypto w))) in
  (In uuid (map EventRow.id db) ->
     r = Rejected constraintFailed /\ db' = db) /\
  (~ In uuid (map EventRow.id db) ->
     r = Resolved uuid /\
     db' = db ++ [rowOf uuid now ev] /\
     inputOf (rowOf uuid now ev) = ev /\
     getEventCount db' = S (getEventCount db)) /\
  (NoDup (map EventRow.id db) -> NoDup (map EventRow.id db')).
Proof.
  intros H uuid now.
  destruct (logEvent_cases ev db w) as [[Hin Hrun] | [Hin Hrun]];
    fold uuid in Hin, Hrun; fold now in Hrun;
    rewrite Hrun in H; injection H as <- <- _.
  - split; [intros _; split; reflexivity |].
    split; [intros Hn; destruct (Hn Hin) | intros Hnd; exact Hnd].
  - split; [intros Hi; destruct (Hin Hi) |].
    split.
    + intros _. split; [reflexivity |]. split; [reflexivity |].
      split; [destruct ev; reflexivity |].
      unfold getEventCount. rewrite length_app. simpl. lia.
    + intros Hnd. rewrite map_app. simpl.
      apply NoDup_app; [exact Hnd | repeat constructor; intros [] |].
      intros x Hx [<- | []]. exact (Hin Hx).
Qed.

End StoreWrites.

Section StoreReads.

Lemma orderedAsc_nil answer : orderedAsc [] answer -> answer = [].
Proof. intros [H _]. apply Permutation_nil. exact H. Qed.

Lemma filter_ext_on {A} (f g : A -> bool) (l : list A) :
  (forall a, f a = g a) -> filter f l = filter g l.
Proof. intros H. apply filter_ext. exact H. Qed.

(** X23.  A row that [logEvent] appends for an event of a task is in
    every answer of [getTaskHistory] for that task, and changes no answer
    for another task; a row for an event without a task id changes no
    task history. *)
Theorem logged_event_is_in_its_task_history
    (db : Table) (uuid : string) (now : Z) (ev : EventInput) :
  let db' := db ++ [rowOf uuid now ev] in
  (forall tid events_, taskId ev = Some tid -> taskHistory db' tid events_ ->
     In (rowToEvent (rowOf uuid now ev)) events_ /\
     List.length events_ = S (List.length (filter (ofTask tid) db))) /\
  (forall tid events_, taskId ev <> Some tid ->
     (taskHistory db' tid events_ <-> taskHistory db tid events_)).
Proof.
  intros db'. subst db'. split.
  - intros tid events_ Htid (rows & [Hperm Hsorted] & ->).
    rewrite filter_app in Hperm. simpl in Hperm.
    assert (Hof : ofTask tid (rowOf uuid now ev) = true)
      by (apply filter_ofTask; exact Htid).
    rewrite Hof in Hperm. split.
    + apply in_map. apply (Permutation_in _ Hperm).
      apply in_or_app. right. left. reflexivity.
    + rewrite length_map, <- (Permutation_length Hperm), length_app. simpl. lia.
  - intros tid events_ Htid.
    assert (Hof : ofTask tid (rowOf uuid now ev) = false).
    { destruct (ofTask tid (rowOf uuid now ev)) eqn:E; [| reflexivity].
      apply filter_ofTask in E. destruct (Htid E). }
    unfold taskHistory. rewrite filter_app. simpl. rewrite Hof, app_nil_r.
    reflexivity.
Qed.

(** X24.  [getEvents] keeps a condition only for the filter fields
    [type], [taskId] and [executorType], and only when they are truthy.
    Filtering by a non-empty task id alone gives the answers of
    [getTaskHistory]; a filter whose task id is the empty string, or that
    only names [id], [timestamp] or [payload], selects every row, as no
    filter does. *)
Theorem getEvents_ignores_what_is_not_truthy (db : Table) :
  (forall tid id_ ts pl answer, tid <> "" ->
     events db (Some {| EventFilter.id := id_; EventFilter.type := None;
                        EventFilter.timestamp := ts;
                        EventFilter.taskId := Some tid;
                        EventFilter.executorType := None;
                        EventFilter.payload := pl |}) answer <->
     taskHistory db tid answer) /\
  (forall f answer,
     EventFilter.type f = None -> EventFilter.executorType f = None ->
     truthy (EventFilter.taskId f) = false ->
     (events db (Some f) answer <-> events db None answer)) /\
  (forall answer,
     events db None answer <->
     exists rows, orderedAsc db rows /\ answer = map rowToEvent rows).
Proof.
  split; [| split].
  - intros tid id_ ts pl answer Hne. unfold events, taskHistory.
    rewrite (@filter_ext_on _ (selects _) (ofTask tid)); [reflexivity |].
    intros row. unfold selects. cbn [EventFilter.type EventFilter.taskId
                                     EventFilter.executorType truthy].
    destruct (String.eqb_spec tid "") as [E | _]; [destruct (Hne E) |].
    simpl. rewrite andb_true_r. reflexivity.
  - intros f answer Hty Hex Htid. unfold events.
    rewrite (@filter_ext_on _ (selects (Some f)) (selects None)); [reflexivity |].
    intros row. unfold selects. rewrite Hty, Hex, Htid. reflexivity.
  - intros answer. unfold events.
    assert (Hall : filter (selects None) db = db).
    { clear. induction db as [| r l IH]; simpl; [| rewrite IH]; reflexivity. }
    rewrite Hall. reflexivity.
Qed.

Lemma StronglySorted_app_inv {A} (R : A -> A -> Prop) (l1 l2 : list A) :
  StronglySorted R (l1 ++ l2) ->
  StronglySorted R l1 /\ StronglySorted R l2 /\
  (forall a b, In a l1 -> In b l2 -> R a b).
Proof.
  induction l1 as [| x l1 IH]; simpl; intros H.
  - split; [constructor |]. split; [exact H |]. intros a b [].
  - inversion H as [| x' l' Hl Hall]; subst.
    destruct (IH Hl) as (H1 & H2 & H12). rewrite Forall_forall in Hall.
    split.
    + constructor; [exact H1 |]. rewrite Forall_forall. intros y Hy.
      apply Hall. apply in_or_app. left. exact Hy.
    + split; [exact H2 |]. intros a b [<- | Ha] Hb.
      * apply Hall. apply in_or_app. right. exact Hb.
      * apply H12; assumption.
Qed.

Lemma sorted_rev_events rows :
  StronglySorted later rows -> StronglySorted notAfter (rev (map rowToEvent rows)).
Proof.
  induction 1 as [| a l Hl IH Hall]; simpl; [constructor |].
  assert (Hsnoc : forall (evs : list MemoryEvent.t) e,
            StronglySorted notAfter evs ->
            Forall (fun x => notAfter x e) evs ->
            StronglySorted notAfter (evs ++ [e])).
  { clear. induction evs as [| x evs IH]; intros e Hs Hf; simpl.
    - constructor; constructor.
    - inversion Hs as [| x' evs' Hs' Hx]; subst.
      inversion Hf as [| x'' evs'' Hxe Hf']; subst.
      constructor; [apply IH; assumption |].
      apply Forall_app. split; [exact Hx | constructor; [exact Hxe | constructor]]. }
  apply Hsnoc; [exact IH |].
  rewrite Forall_forall in *. intros e He. apply in_rev in He.
  apply in_map_iff in He. destruct He as (row & <- & Hrow). apply (Hall row Hrow).
Qed.

Lemma limitTo_split {A} limit (rows : list A) :
  exists rest, rows = limitTo limit rows ++ rest /\
    List.length (limitTo limit rows) =
      if (limit <? 0)%Z then List.length rows
      else Nat.min (Z.to_nat limit) (List.length rows).
Proof.
  unfold limitTo. destruct (limit <? 0)%Z.
  - exists []. rewrite app_nil_r. split; reflexivity.
  - exists (skipn (Z.to_nat limit) rows). split.
    + symmetry. apply firstn_skipn.
    + apply length_firstn.
Qed.

(** X25.  [getRecentEvents(limit)] returns events of the table, sorted by
    timestamp: [limit] of them, or all when the table holds fewer or the
    limit is negative.  No row that is left out is later than an event
    that is returned. *)
Theorem recent_events_are_the_latest (db : Table) (limit : Z) answer :
  recentEvents db limit answer ->
  List.length answer =
    (if (limit <? 0)%Z then getEventCount db
     else Nat.min (Z.to_nat limit) (getEventCount db)) /\
  StronglySorted notAfter answer /\
  (forall e, In e answer -> exists row, In row db /\ e = rowToEvent row) /\
  (forall e row, In e answer -> In row db -> ~ In (rowToEvent row) answer ->
     (EventRow.timestamp row <= MemoryEvent.timestamp e)%Z).
Proof.
  intros (rows & [Hperm Hsorted] & ->).
  destruct (limitTo_split limit rows) as (rest & Hsplit & Hlen).
  rewrite Hsplit in Hsorted. apply StronglySorted_app_inv in Hsorted.
  destruct Hsorted as (Htaken & _ & Hcross).
  split; [| split; [| split]].
  - rewrite length_rev, length_map, Hlen. unfold getEventCount.
    rewrite (Permutation_length Hperm). reflexivity.
  - apply sorted_rev_events. exact Htaken.
  - intros e He. apply in_rev in He. apply in_map_iff in He.
    destruct He as (row & <- & Hrow). exists row. split; [| reflexivity].
    apply (Permutation_in _ (Permutation_sym Hperm)). rewrite Hsplit.
    apply in_or_app. left. exact Hrow.
  - intros e row He Hrow Hout. apply in_rev in He. apply in_map_iff in He.
    destruct He as (taken & <- & Htk).
    apply (Permutation_in _ Hperm) in Hrow. rewrite Hsplit in Hrow.
    apply in_app_or in Hrow. destruct Hrow as [Hrow | Hrow].
    + exfalso. apply Hout. apply -> in_rev. apply in_map. exact Hrow.
    + apply (Hcross taken row Htk Hrow).
Qed.

(** After [clear] the store is empty: the event count is 0 and every
    query, whatever its arguments, answers with no event. *)
Lemma clear_empties_the_store (db : Table) :
  getEventCount (clear db) = 0 /\
  (forall tid answer, taskHistory (clear db) tid answer -> answer = []) /\
  (forall f answer, events (clear db) f answer -> answer = []) /\
  (forall limit answer, recentEvents (clear db) limit answer -> answer = []).
Proof.
  split; [reflexivity |]. split; [| split].
  - intros tid answer (rows & H & ->). apply orderedAsc_nil in H. subst. reflexivity.
  - intros f answer (rows & H & ->). apply orderedAsc_nil in H. subst. reflexivity.
  - intros limit answer (rows & [H _] & ->). apply Permutation_nil in H. subst.
    unfold limitTo. destruct (limit <? 0)%Z; [reflexivity |].
    rewrite firstn_nil. reflexivity.
Qed.

End StoreReads.

(** ** The dispatcher writing to the SQLite store *)

Section DispatchToStore.

Context {W : Type}.
Variable host : Host W.
Variable crypto : Crypto W.
Variable constraintFailed : Thrown.

Lemma executorBesideTable_keeps (x : Executor W) : keepsTable (executorBesideTable x).
Proof.
  split.
  - intros t env. simpl. destruct (execute x t (snd env)). reflexivity.
  - intros env. simpl. destruct (isAvailable x (snd env)). reflexivity.
Qed.

Lemma tidy_bind {A B} m (p : Prog (Table * W) A) (f : A -> Prog (Table * W) B) :
  Tidy m p -> (forall a, Tidy m (f a)) -> Tidy m (bind p f).
Proof.
  intros Hp Hf. induction Hp; simpl; try constructor; auto.
Qed.

Section OneDispatcher.

Variable d : Dispatcher (Table * W).
Hypothesis its_store : memory d = (SQLiteStore host crypto constraintFailed).
Hypothesis its_executors :
  forall ty x, get (executors d) ty = Some x -> keepsTable x.

Lemma tidy_tryOnce ty x attempt s :
  keepsTable x -> Tidy (SQLiteStore host crypto constraintFailed) (tryOnce d ty x attempt s).
Proof.
  intros Hx. unfold tryOnce. rewrite its_store.
  constructor. intros [i | err]; [| constructor].
  constructor; [exact Hx |]. intros [res | err]; [| constructor].
  constructor. intros [i' | err]; [| constructor].
  destruct (success res); [| constructor].
  constructor. constructor. intros now. constructor.
  intros [i'' | err]; constructor.
Qed.

Lemma tidy_attemptLoop ty x remaining : forall attempt s,
  keepsTable x -> Tidy (SQLiteStore host crypto constraintFailed) (attemptLoop d ty x remaining attempt s).
Proof.
  induction remaining as [| remaining IH]; intros attempt s Hx; cbn [attemptLoop].
  - constructor.
  - apply tidy_bind; [apply tidy_tryOnce; exact Hx |].
    intros [r | s']; [constructor |].
    destruct (attempt <? retryAttempts (options d)); [constructor |]; apply IH; exact Hx.
Qed.

Lemma tidy_executorLoop order : forall s, Tidy (SQLiteStore host crypto constraintFailed) (executorLoop d order s).
Proof.
  induction order as [| ty order IH]; intros s; cbn [executorLoop].
  - constructor.
  - destruct (get (executors d) ty) as [x |] eqn:Hget; [| apply IH].
    pose proof (its_executors _ Hget) as Hx.
    constructor; [exact Hx |]. intros r.
    destruct (negb _); [apply IH |].
    apply tidy_bind; [apply tidy_attemptLoop; exact Hx |].
    intros [res | s']; [constructor | apply IH].
Qed.

Lemma tidy_dispatch t : Tidy (SQLiteStore host crypto constraintFailed) (dispatch d t).
Proof.
  unfold dispatch. constructor. constructor. intros now. rewrite its_store.
  constructor. intros [i | err]; [| constructor].
  apply tidy_bind; [apply tidy_executorLoop |].
  intros [res | s]; [constructor |].
  unfold allFailed. constructor. constructor. intros now'. rewrite its_store.
  constructor. intros [i' | err]; constructor.
Qed.

End OneDispatcher.

Lemma tidy_run {A} (p : Prog (Table * W) A) :
  Tidy (SQLiteStore host crypto constraintFailed) p ->
  forall db w o db' w' tr,
    run (besideTable host) p (db, w) = (o, (db', w'), tr) ->
    exists rows,
      db' = db ++ rows /\
      map inputOf rows = loggedEvents tr /\
      (NoDup (map EventRow.id db) -> NoDup (map EventRow.id db')).
Proof.
  induction 1 as [a | err | ev k Hk IH | x k Hx Hk IH | x t k Hx Hk IH
                  | ms k Hk IH | k Hk IH | s k Hk IH];
    intros db w o db' w' tr Hrun; cbn [run] in Hrun.
  - injection Hrun as <- <- <- <-. exists []. rewrite app_nil_r. repeat split. auto.
  - injection Hrun as <- <- <- <-. exists []. rewrite app_nil_r. repeat split. auto.
  - cbn [logEvent SQLiteStore] in Hrun.
    destruct (logEvent_cases host crypto constraintFailed ev db w)
      as [[Hin Hlog] | [Hin Hlog]]; rewrite Hlog in Hrun;
      match type of Hrun with
      | context [run _ (k ?r) ?e] =>
          destruct (run (besideTable host) (k r) e) as [[o1 [db1 w1]] tr1] eqn:Hrest
      end;
      injection Hrun as <- <- <- <-;
      destruct (IH _ _ _ _ _ _ _ Hrest) as (rows & -> & Hev & Hnd).
    + exists rows. repeat split; assumption.
    + eexists (_ :: rows). split; [rewrite <- app_assoc; reflexivity |].
      split.
      * cbn [map loggedEvents]. rewrite Hev. f_equal. destruct ev; reflexivity.
      * intros Hd. apply Hnd. rewrite map_app. simpl.
        apply NoDup_app; [exact Hd | repeat constructor; intros [] |].
        intros y Hy [<- | []]. exact (Hin Hy).
  - destruct Hx as [_ Hx]. specialize (Hx (db, w)).
    destruct (isAvailable x (db, w)) as [r [db1 w1]]. cbn [fst snd] in Hx. subst db1.
    destruct (run (besideTable host) (k r) (db, w1)) as [[o1 [db2 w2]] tr1] eqn:Hrest.
    injection Hrun as <- <- <- <-.
    destruct (IH _ _ _ _ _ _ _ Hrest) as (rows & -> & Hev & Hnd).
    exists rows. repeat split; assumption.
  - destruct Hx as [Hx _]. specialize (Hx t (db, w)).
    destruct (execute x t (db, w)) as [r [db1 w1]]. cbn [fst snd] in Hx. subst db1.
    destruct (run (besideTable host) (k r) (db, w1)) as [[o1 [db2 w2]] tr1] eqn:Hrest.
    injection Hrun as <- <- <- <-.
    destruct (IH _ _ _ _ _ _ _ Hrest) as (rows & -> & Hev & Hnd).
    exists rows. repeat split; assumption.
  - cbn [setTimeout besideTable fst snd] in Hrun.
    destruct (run (besideTable host) k _) as [[o1 [db2 w2]] tr1] eqn:Hrest.
    injection Hrun as <- <- <- <-.
    destruct (IH _ _ _ _ _ _ Hrest) as (rows & -> & Hev & Hnd).
    exists rows. repeat split; assumption.
  - cbn [newDate besideTable fst snd] in Hrun.
    destruct (newDate host w) as [now w1].
    destruct (run (besideTable host) (k now) _) as [[o1 [db2 w2]] tr1] eqn:Hrest.
    injection Hrun as <- <- <- <-.
    destruct (IH _ _ _ _ _ _ _ Hrest) as (rows & -> & Hev & Hnd).
    exists rows. repeat split; assumption.
  - destruct (run (besideTable host) k _) as [[o1 [db2 w2]] tr1] eqn:Hrest.
    injection Hrun as <- <- <- <-.
    destruct (IH _ _ _ _ _ _ Hrest) as (rows & -> & Hev & Hnd).
    exists rows. repeat split; assumption.
Qed.

Lemma eventInput_rowToEvent rows :
  map eventInput (map rowToEvent rows) = map inputOf rows.
Proof. rewrite map_map. reflexivity. Qed.

Lemma filter_all_of_task tid rows :
  Forall (fun ev => taskId ev = Some tid) (map inputOf rows) ->
  filter (ofTask tid) rows = rows.
Proof.
  induction rows as [| r rows IH]; intros H; [reflexivity |].
  inversion H as [| ev evs Hr Hrest]; subst. simpl.
  assert (Hof : ofTask tid r = true) by (apply filter_ofTask; exact Hr).
  rewrite Hof, (IH Hrest). reflexivity.
Qed.

(** X26.  When a dispatcher writes to the SQLite store, the rows a
    dispatch adds to the table are the events the store accepted, in the
    order they were logged, and no two rows share an id if none did
    before.  If the table held no row of the task before and the clock
    moved between the writes, so that the timestamps of the new rows
    strictly increase, then [getTaskHistory] for the task answers with
    exactly the events logged by the dispatch, in that order. *)
Theorem dispatch_fills_the_table
    (d : Dispatcher (Table * W)) (t : Task) db w o db' w' tr :
  memory d = SQLiteStore host crypto constraintFailed ->
  (forall ty x, get (executors d) ty = Some x -> keepsTable x) ->
  run (besideTable host) (dispatch d t) (db, w) = (o, (db', w'), tr) ->
  exists rows,
    db' = db ++ rows /\
    map inputOf rows = loggedEvents tr /\
    (NoDup (map EventRow.id db) -> NoDup (map EventRow.id db')) /\
    (forall res, o = Resolved res ->
     filter (ofTask (id t)) db = [] ->
     StronglySorted strictlyEarlier rows ->
     forall events_, taskHistory db' (id t) events_ ->
       map eventInput events_ = loggedEvents tr).
Proof.
  intros Hstore Hexec Hrun.
  destruct (tidy_run (@tidy_dispatch d Hstore Hexec t) _ _ Hrun) as (rows & -> & Hev & Hnd).
  exists rows. split; [reflexivity |]. split; [exact Hev |]. split; [exact Hnd |].
  intros res -> Hnone Hstrict events_ (answer & Hans & ->).
  apply dispatch_run_sound in Hrun.
  destruct (dispatch_events Hrun) as (_ & _ & _ & _ & _ & _ & _ & _ & _ & Hid).
  rewrite <- Hev in Hid.
  rewrite filter_app, Hnone, (filter_all_of_task _ Hid) in Hans. simpl in Hans.
  rewrite (orderedAsc_unique Hstrict Hans), eventInput_rowToEvent. exact Hev.
Qed.

End DispatchToStore.

(** ** The executors of the repository, the model registry, the command line *)

Section ExecutorsAndModels.

Context {Env : Type}.
Variable host : Host Env.


End ExecutorsAndModels.

(** X29.  [getModel] always answers with a model of the provider asked
    for: the one the registry lists for the use case, and the provider's
    flagship when no use case is given or the provider lists none for it.
    No model is listed under two providers, so the provider can be read
    off the answer. *)
Theorem getModel_answers_for_the_provider (provider : ModelProvider) :
  getModel provider None = flagshipOf provider /\
  FRONTIER_MODELS provider flagship = Some (flagshipOf provider) /\
  (forall useCase m, FRONTIER_MODELS provider useCase = Some m ->
     getModel provider (Some useCase) = m) /\
  (forall useCase, FRONTIER_MODELS provider useCase = None ->
     getModel provider (Some useCase) = flagshipOf provider) /\
  (forall useCase provider' useCase',
     getModel provider useCase = getModel provider' useCase' -> provider = provider').
Proof.
  split; [destruct provider; reflexivity |].
  split; [destruct provider; reflexivity |].
  split; [intros useCase m H; unfold getModel; rewrite H; reflexivity |].
  split; [intros useCase H; unfold getModel; rewrite H; reflexivity |].
  intros useCase provider' useCase' H.
  destruct provider, provider'; try reflexivity; exfalso;
    destruct useCase as [[| | |] |], useCase' as [[| | |] |];
    vm_compute in H; discriminate H.
Qed.

Section CommandLineFacts.

Lemma startsWith_dashes a : startsWith a "--" = true -> startsWith a "-" = true.
Proof.
  unfold startsWith. intros H. apply prefix_spec in H. destruct H as (post & ->).
  apply prefix_spec. exists (String "-"%char post). reflexivity.
Qed.

Lemma words_filter (args : list string) :
  filter (fun a => negb (startsWith a "--") && negb (startsWith a "-")) args =
  filter (fun a => negb (startsWith a "-")) args.
Proof.
  apply filter_ext. intros a.
  destruct (startsWith a "-") eqn:E1; [rewrite andb_false_r; reflexivity |].
  destruct (startsWith a "--") eqn:E2; [| reflexivity].
  apply startsWith_dashes in E2. rewrite E2 in E1. discriminate E1.
Qed.

Lemma hasArg_In args a : hasArg args a = true <-> In a args.
Proof.
  unfold hasArg. rewrite existsb_exists. split.
  - intros (x & Hin & E). apply String.eqb_eq in E. subst x. exact Hin.
  - intros Hin. exists a. split; [exact Hin | apply String.eqb_refl].
Qed.

Lemma append_empty a b : String.append a b = "" -> a = "" /\ b = "".
Proof. destruct a; simpl; [intros ->; split; reflexivity | discriminate]. Qed.

Lemma concat_space_empty (l : list string) :
  String.concat " " l = "" <-> l = [] \/ l = [""].
Proof.
  split.
  - destruct l as [| x [| y l]]; simpl; intros H.
    + left. reflexivity.
    + right. rewrite H. reflexivity.
    + apply append_empty in H. destruct H as [_ H]. discriminate H.
  - intros [-> | ->]; reflexivity.
Qed.

(** X28.  [parseArgs] makes the prompt of the arguments that do not
    start with a dash, joined by single spaces, and of nothing else: an
    argument that starts with a dash never reaches the prompt, be it a
    known option or not, and leaving it out changes nothing to the prompt.
    The prompt is empty exactly when no argument without a dash is left,
    or just one that is the empty string.  Each option is set exactly when
    one of its spellings is among the arguments. *)
Theorem parseArgs_keeps_dashed_arguments_out (args : list string) :
  let words := filter (fun a => negb (startsWith a "-")) args in
  fst (parseArgs args) = String.concat " " words /\
  (fst (parseArgs args) = "" <-> words = [] \/ words = [""]) /\
  (forall before option_ after,
     args = before ++ option_ :: after -> startsWith option_ "-" = true ->
     fst (parseArgs args) = fst (parseArgs (before ++ after))) /\
  (json (snd (parseArgs args)) = true <-> In "--json" args) /\
  (help (snd (parseArgs args)) = true <-> In "--help" args \/ In "-h" args) /\
  (verbose (snd (parseArgs args)) = true <-> In "--verbose" args \/ In "-v" args).
Proof.
  intros words. subst words. unfold parseArgs. cbn [fst snd json help verbose].
  rewrite words_filter.
  split; [reflexivity |]. split; [apply concat_space_empty |].
  split.
  - intros before option_ after -> Hdash.
    rewrite words_filter, !filter_app. simpl. rewrite Hdash. reflexivity.
  - rewrite !orb_true_iff, !hasArg_In. repeat split; auto.
Qed.

End CommandLineFacts.

Section Launching.

Context {Env : Type}.
Variable host : Host Env.
Variable createMemoryStore : string -> MemoryStore Env.
Variable client : ModelProvider -> string -> string -> Provider Env.

(** X27.  The command line leaves with code 0 exactly when help is asked
    for, and with code 1 when the prompt is empty or no API key of the
    environment is truthy.  Otherwise it reaches [orpheus.execute] with a
    prompt that is not empty and an [Orpheus] that is ready: its
    dispatcher writes to the store opened at [ORPHEUS_MEMORY_PATH] (or
    ./orpheus.db), allows 3 tries, and has the executors of the truthy
    keys registered, in the order codex, sonnet, gemini. *)
Theorem command_line_executes_only_when_ready (argv : list string) (penv : ProcessEnv) :
  let parsed := parseArgs (skipn 2 argv) in
  match launch host createMemoryStore client argv penv with
  | Leaves code =>
      (code = 0 /\ help (snd parsed) = true) \/
      (code = 1 /\ help (snd parsed) = false /\
       (fst parsed = "" \/
        filter (fun ty => truthy (apiKeyFor penv ty)) [codex; sonnet; gemini] = []))
  | Executes o prompt_ =>
      prompt_ = fst parsed /\ prompt_ <> "" /\ help (snd parsed) = false /\
      exists d,
        theDispatcher o = Some d /\
        memory d =
          createMemoryStore
            match ORPHEUS_MEMORY_PATH penv with
            | Some p => p
            | None => "./orpheus.db"
            end /\
        retryAttempts (options d) = 3 /\
        getRegisteredExecutors d =
          filter (fun ty => truthy (apiKeyFor penv ty)) [codex; sonnet; gemini] /\
        getRegisteredExecutors d <> [] /\
        logLevel (theConfig o) = (if verbose (snd parsed) then debug else info)
  end.
Proof.
  intros parsed. subst parsed. unfold launch.
  destruct (parseArgs (skipn 2 argv)) as [prompt_ options_]. cbn [fst snd].
  destruct (help options_) eqn:Hhelp; cbn [orb].
  { left. split; reflexivity. }
  destruct (String.eqb_spec prompt_ "") as [-> | Hne].
  { right. split; [reflexivity |]. split; [reflexivity |]. left. reflexivity. }
  unfold executorsFor, cliOrpheus, executorsFor, apiKeyFor. cbn [filter].
  destruct (OPENAI_API_KEY penv) as [k1 |];
    [destruct (truthy (Some k1)) |];
    (destruct (ANTHROPIC_API_KEY penv) as [k2 |];
       [destruct (truthy (Some k2)) |]);
    (destruct (GOOGLE_AI_API_KEY penv) as [k3 |];
       [destruct (truthy (Some k3)) |]);
    cbn [app truthy];
    first
      [ right; split; [reflexivity |]; split; [reflexivity |]; right; reflexivity
      | split; [reflexivity |]; split; [exact Hne |]; split; [reflexivity |];
        eexists; split; [reflexivity |]; split; [reflexivity |];
        split; [reflexivity |]; split; [reflexivity |];
        split; [discriminate | reflexivity] ].
Qed.

End Launching.

(* ================================================================== *)
(** * The further properties on the examples *)
(* ================================================================== *)

Lemma probes_witness :
  exists o env' tr,
    run Scenario.host (dispatch Examples.fallbackDispatcher Examples.fallbackTask) 0 =
      (o, env', tr) /\
    (exists rest,
       registeredOf Examples.fallbackDispatcher
         (getExecutorOrder Examples.fallbackDispatcher Examples.fallbackTask) =
         probed tr ++ rest /\
       (forall res, o = Resolved res -> success (result res) = false -> rest = [])) /\
    (forall x t' r, In (AExec x t' r) tr -> In x (probed tr)).
Proof.
  eexists _, _, _. split; [reflexivity |].
  exact (@dispatch_probes_along_the_order _ Scenario.host
           Examples.fallbackDispatcher Examples.fallbackTask 0 _ _ _ eq_refl).
Defined.

Lemma zero_retries_witness :
  retryAttempts (options Demo.noRetryDispatcher) = 0 /\
  exists o env' tr,
    run Scenario.host (dispatch Demo.noRetryDispatcher Examples.sonnetTask) 0 =
      (o, env', tr) /\
    execCalls tr = 0 /\
    (forall ev, In ev (offeredEvents tr) ->
       type ev = task_started \/ type ev = task_failed) /\
    (forall res, o = Resolved res ->
       attempts res = 0 /\
       success (result res) = false /\
       error (result res) = Some allFailedMessage /\
       map type (loggedEvents tr) = [task_started; task_failed]).
Proof.
  split; [reflexivity |].
  eexists _, _, _. split; [reflexivity |].
  exact (@no_try_is_made_with_zero_retries _ Scenario.host
           Demo.noRetryDispatcher Examples.sonnetTask 0 _ _ _ eq_refl eq_refl).
Defined.



Lemma terminal_event_witness :
  exists res env' tr,
    run Scenario.host (dispatch Examples.fallbackDispatcher Examples.fallbackTask) 0 =
      (Resolved res, env', tr) /\
    exists pre ev i,
      tr = pre ++ [ALog ev (Resolved i)] /\
      taskId ev = Some (id Examples.fallbackTask) /\
      if success (result res)
      then exists ty,
             In ty (getExecutorOrder Examples.fallbackDispatcher Examples.fallbackTask) /\
             ev = completedEvent (task res) ty (attempts res)
      else exists msg,
             error (result res) = Some msg /\
             ev = failedEvent (task res) msg (attempts res).
Proof.
  eexists _, _, _. split; [reflexivity |].
  exact (@terminal_event_is_written_last _ Scenario.host
           Examples.fallbackDispatcher Examples.fallbackTask 0 _ _ _ eq_refl).
Defined.


Lemma first_write_witness :
  exists o env' tr,
    run Scenario.host (dispatch Examples.fallbackDispatcher Examples.fallbackTask) 0 =
      (o, env', tr) /\
    exists now ev r rest head tail,
      tr = AStatus running :: ANow now :: ALog ev r :: rest /\
      type ev = task_started /\
      taskId ev = Some (id Examples.fallbackTask) /\
      payload ev = PStarted head /\
      prompt Examples.fallbackTask = String.append head tail /\
      String.length head = Nat.min 100 (String.length (prompt Examples.fallbackTask)).
Proof.
  eexists _, _, _. split; [reflexivity |].
  exact (@dispatch_begins_with_task_started _ Scenario.host
           Examples.fallbackDispatcher Examples.fallbackTask 0 _ _ _ eq_refl).
Defined.

Lemma bounded_attempts_witness :
  exists res env' tr,
    run Scenario.host (dispatch Examples.fallbackDispatcher Examples.fallbackTask) 0 =
      (Resolved res, env', tr) /\
    attempts res <=
      retryAttempts (options Examples.fallbackDispatcher) *
      List.length (registeredOf Examples.fallbackDispatcher
                     (getExecutorOrder Examples.fallbackDispatcher Examples.fallbackTask)) /\
    List.length (registeredOf Examples.fallbackDispatcher
                   (getExecutorOrder Examples.fallbackDispatcher Examples.fallbackTask)) <=
      List.length (getExecutorOrder Examples.fallbackDispatcher Examples.fallbackTask) /\
    execCalls tr = attempts res.
Proof.
  eexists _, _, _. split; [reflexivity |].
  exact (@attempts_are_bounded_by_the_order _ Scenario.host
           Examples.fallbackDispatcher Examples.fallbackTask 0 _ _ _ eq_refl).
Defined.


Lemma created_task_witness :
  exists t env',
    createTask Scenario.host Demo.crypto Examples.basePlanner Demo.someParams 0 =
      (t, env') /\
    status t = pending /\
    prompt t = TaskParams.prompt Demo.someParams /\
    createdAt t = updatedAt t /\
    getExecutorOrder Examples.fallbackDispatcher t =
      getFallbackOrder (TaskParams.preferredExecutor Demo.someParams) /\
    NoDup (getExecutorOrder Examples.fallbackDispatcher t) /\
    (forall e, In e (getExecutorOrder Examples.fallbackDispatcher t)) /\
    (forall p, TaskParams.preferredExecutor Demo.someParams = Some p ->
       preferredExecutor t = Some p /\
       exists rest, getExecutorOrder Examples.fallbackDispatcher t = p :: rest) /\
    (TaskParams.preferredExecutor Demo.someParams = None ->
       preferredExecutor t = Some (defaultExecutor Examples.basePlanner) /\
       getExecutorOrder Examples.fallbackDispatcher t = [sonnet; codex; gemini]).
Proof.
  eexists _, _. split; [reflexivity |].
  exact (@created_task_is_tried_on_all_executors _ Scenario.host Demo.crypto
           Examples.fallbackDispatcher Examples.basePlanner Demo.someParams 0 _ _ eq_refl).
Defined.

Lemma plan_witness :
  exists plan env',
    createPlan Scenario.host Demo.crypto Examples.basePlanner "Debug my script" 0 =
      (plan, env') /\
    Plan.originalPrompt plan = "Debug my script" /\
    Plan.strategy plan = Analysis.strategy (analyzePrompt "Debug my script") /\
    Plan.id plan = fst (randomUUID Demo.crypto 0) /\
    exists t,
      Plan.tasks plan = [t] /\
      prompt t = "Debug my script" /\
      status t = pending /\
      priority t = normal /\
      systemPrompt t = None /\
      preferredExecutor t =
        Some (Analysis.recommendedExecutor (analyzePrompt "Debug my script")) /\
      (exists rest,
         getExecutorOrder Examples.fallbackDispatcher t =
           Analysis.recommendedExecutor (analyzePrompt "Debug my script") :: rest) /\
      NoDup (getExecutorOrder Examples.fallbackDispatcher t) /\
      (forall e, In e (getExecutorOrder Examples.fallbackDispatcher t)) /\
      id t =
        fst (randomUUID Demo.crypto
               (snd (newDate Scenario.host
                       (snd (newDate Scenario.host (snd (randomUUID Demo.crypto 0))))))).
Proof.
  eexists _, _. split; [reflexivity |].
  exact (@plan_has_one_task_for_the_prompt _ Scenario.host Demo.crypto
           Examples.fallbackDispatcher Examples.basePlanner "Debug my script" 0 _ _
           eq_refl).
Defined.


Lemma logEvent_witness :
  exists r db' w',
    sqliteLogEvent Demo.ticking Demo.crypto Demo.databaseLocked
      (startedEvent Examples.sonnetTask) ([Demo.oldRow], 1) = (r, (db', w')) /\
    let uuid := fst (randomUUID Demo.crypto 1) in
    let now := fst (newDate Demo.ticking (snd (randomUUID Demo.crypto 1))) in
    (In uuid (map EventRow.id [Demo.oldRow]) ->
       r = Rejected Demo.databaseLocked /\ db' = [Demo.oldRow]) /\
    (~ In uuid (map EventRow.id [Demo.oldRow]) ->
       r = Resolved uuid /\
       db' = [Demo.oldRow] ++ [rowOf uuid now (startedEvent Examples.sonnetTask)] /\
       inputOf (rowOf uuid now (startedEvent Examples.sonnetTask)) =
         startedEvent Examples.sonnetTask /\
       getEventCount db' = S (getEventCount [Demo.oldRow])) /\
    (NoDup (map EventRow.id [Demo.oldRow]) -> NoDup (map EventRow.id db')).
Proof.
  eexists _, _, _. split; [reflexivity |].
  exact (@logEvent_appends_one_row _ Demo.ticking Demo.crypto Demo.databaseLocked
           (startedEvent Examples.sonnetTask) [Demo.oldRow] 1 _ _ _ eq_refl).
Defined.

Lemma recent_events_witness :
  recentEvents [Demo.oldRow; Demo.newRow] 1 [rowToEvent Demo.newRow] /\
  List.length [rowToEvent Demo.newRow] =
    (if (1 <? 0)%Z then getEventCount [Demo.oldRow; Demo.newRow]
     else Nat.min (Z.to_nat 1) (getEventCount [Demo.oldRow; Demo.newRow])) /\
  StronglySorted notAfter [rowToEvent Demo.newRow] /\
  (forall e, In e [rowToEvent Demo.newRow] ->
     exists row, In row [Demo.oldRow; Demo.newRow] /\ e = rowToEvent row) /\
  (forall e row, In e [rowToEvent Demo.newRow] -> In row [Demo.oldRow; Demo.newRow] ->
     ~ In (rowToEvent row) [rowToEvent Demo.newRow] ->
     (EventRow.timestamp row <= MemoryEvent.timestamp e)%Z).
Proof.
  assert (H : recentEvents [Demo.oldRow; Demo.newRow] 1 [rowToEvent Demo.newRow]).
  { exists [Demo.newRow; Demo.oldRow]. split; [| reflexivity].
    split; [apply perm_swap |].
    repeat constructor. unfold later. simpl. lia. }
  split; [exact H |].
  exact (@recent_events_are_the_latest [Demo.oldRow; Demo.newRow] 1
           [rowToEvent Demo.newRow] H).
Defined.

Lemma table_witness :
  memory Demo.sqliteDispatcher =
    SQLiteStore Demo.ticking Demo.crypto Demo.databaseLocked /\
  (forall ty x, get (executors Demo.sqliteDispatcher) ty = Some x -> keepsTable x) /\
  exists o db' w' tr,
    run (besideTable Demo.ticking) (dispatch Demo.sqliteDispatcher Examples.fallbackTask)
      ([], 0) = (o, (db', w'), tr) /\
    exists rows,
      db' = [] ++ rows /\
      map inputOf rows = loggedEvents tr /\
      (NoDup (map EventRow.id []) -> NoDup (map EventRow.id db')) /\
      (forall res, o = Resolved res ->
       filter (ofTask (id Examples.fallbackTask)) [] = [] ->
       StronglySorted strictlyEarlier rows ->
       forall events_, taskHistory db' (id Examples.fallbackTask) events_ ->
         map eventInput events_ = loggedEvents tr).
Proof.
  assert (Hexec : forall ty x,
            get (executors Demo.sqliteDispatcher) ty = Some x -> keepsTable x).
  { intros ty x H. destruct ty; simpl in H; try discriminate H;
      injection H as <-; apply executorBesideTable_keeps. }
  split; [reflexivity |]. split; [exact Hexec |].
  eexists _, _, _, _. split; [reflexivity |].
  exact (@dispatch_fills_the_table _ Demo.ticking Demo.crypto Demo.databaseLocked
           Demo.sqliteDispatcher Examples.fallbackTask [] 0 _ _ _ _
           eq_refl Hexec eq_refl).
Defined.
